(** * Helper functions of the CNN hands-on notebook

    A shallow embedding of the utility functions defined in
    [CNN/AI ML LatAm Conference 2019 - CNN HandsOn.ipynb]:
    [convolve2D], [pad_img], [get_kernels], [plot_with_kernels],
    [get_data_from_dir], [train_test_split], [shuffle], [one_hot],
    [plot_some], [vectorize_sequences] and [organize_series], and of the
    cells that prepare the image data, decode a review, cut the validation
    rows and split the framed series.

    Conventions of the embedding.
    - A NumPy array is a record holding its [shape] fields next to nested
      lists of entries; the nested lists alone would forget the trailing
      extents of an array with no rows.
    - A Python exception is [None]; a function that can raise returns
      [option].
    - Integer arrays built from Python integers have dtype int64; their
      arithmetic wraps around, which [wrap64] writes out.  Kernels with
      floating point entries (the two blur kernels) are outside the
      embedding. *)

From Stdlib Require Import ZArith QArith Qround String Ascii DecimalString.
From stdpp Require Import base option list.

Local Open Scope Z_scope.

(** ** Machine integers *)

Module Int64.

Definition wrap64 (z : Z) : Z := (z + 2 ^ 63) mod 2 ^ 64 - 2 ^ 63.

Definition mul (a b : Z) : Z := wrap64 (a * b).
Definition add (a b : Z) : Z := wrap64 (a + b).

(** [ndarray.astype('uint8')] on an int64 entry keeps the low eight bits. *)
Definition astype_uint8 (z : Z) : Z := z mod 256.

End Int64.

(** [int(x)] on a rational: truncation towards zero. *)
Definition int_of_Q (q : Q) : Z :=
  if Qle_bool 0 q then Qfloor q else Qceiling q.

(** ** Arrays *)

Module Numpy.

Record ndarray2 := Array2 {
  rows2 : nat;
  cols2 : nat;
  data2 : list (list Z)
}.

Record ndarray3 := Array3 {
  rows3 : nat;
  cols3 : nat;
  chans3 : nat;
  data3 : list (list (list Z))
}.

(** The nested lists agree with the declared shape. *)
Definition wf2 (a : ndarray2) : Prop :=
  length (data2 a) = rows2 a ∧ Forall (λ r, length r = cols2 a) (data2 a).

Definition wf3 (a : ndarray3) : Prop :=
  length (data3 a) = rows3 a ∧
  Forall (λ r, length r = cols3 a ∧ Forall (λ p, length p = chans3 a) r)
         (data3 a).

#[global] Instance wf2_dec a : Decision (wf2 a).
Proof. unfold wf2. apply _. Defined.

#[global] Instance wf3_dec a : Decision (wf3 a).
Proof. unfold wf3. apply _. Defined.

(** Entry access; [None] outside the array. *)
Definition get2 (a : ndarray2) (i j : nat) : option Z :=
  r ← data2 a !! i; r !! j.

Definition get3 (a : ndarray3) (i j k : nat) : option Z :=
  r ← data3 a !! i; p ← r !! j; p !! k.

(** [np.expand_dims(img, axis=2)]: every entry becomes a one-channel pixel. *)
Definition expand_dims (a : ndarray2) : ndarray3 :=
  {| rows3 := rows2 a; cols3 := cols2 a; chans3 := 1;
     data3 := (λ r : list Z, (λ v : Z, [v]) <$> r) <$> data2 a |}.

(** [res[:, :, 0]] on an array that has a channel 0. *)
Definition channel0 (a : ndarray3) : ndarray2 :=
  {| rows2 := rows3 a; cols2 := cols3 a;
     data2 := (λ r : list (list Z), (λ p : list Z, p !!! 0%nat) <$> r)
                <$> data3 a |}.

(** Constant (zero) padding by [h] rows above and below and [w] columns
    left and right. *)
Definition constant_pad2 (a : ndarray2) (h w : nat) : ndarray2 :=
  let zrow := replicate (w + cols2 a + w) 0 in
  {| rows2 := h + rows2 a + h; cols2 := w + cols2 a + w;
     data2 := replicate h zrow
              ++ ((λ r : list Z, replicate w 0 ++ r ++ replicate w 0) <$> data2 a)
              ++ replicate h zrow |}.

Definition constant_pad3 (a : ndarray3) (h w : nat) : ndarray3 :=
  let zpx := replicate (chans3 a) 0 in
  let zrow := replicate (w + cols3 a + w) zpx in
  {| rows3 := h + rows3 a + h; cols3 := w + cols3 a + w; chans3 := chans3 a;
     data3 := replicate h zrow
              ++ ((λ r : list (list Z), replicate w zpx ++ r ++ replicate w zpx)
                    <$> data3 a)
              ++ replicate h zrow |}.

(** [np.pad(img, ((ph, ph), (pw, pw)), 'constant')]; a negative pad width
    raises [ValueError]. *)
Definition np_pad2 (a : ndarray2) (ph pw : Z) : option ndarray2 :=
  if decide (ph < 0 ∨ pw < 0) then None
  else Some (constant_pad2 a (Z.to_nat ph) (Z.to_nat pw)).

(** [np.pad(img, ((ph, ph), (pw, pw), (0, 0)), 'constant')]. *)
Definition np_pad3 (a : ndarray3) (ph pw : Z) : option ndarray3 :=
  if decide (ph < 0 ∨ pw < 0) then None
  else Some (constant_pad3 a (Z.to_nat ph) (Z.to_nat pw)).

(** [np.concatenate(blocks, axis)]: each block is given as its list of
    slices along the axis; an empty list of blocks raises [ValueError]. *)
Definition np_concatenate {A} (blocks : list (list A)) : option (list A) :=
  match blocks with
  | [] => None
  | _ => Some (concat blocks)
  end.

(** [np.sum] of an int64 matrix. *)
Definition np_sum (m : list (list Z)) : Z :=
  foldr Int64.add 0 (concat m).

(** [a * b] on two int64 matrices of one shape. *)
Definition np_multiply (a b : list (list Z)) : list (list Z) :=
  zip_with (zip_with Int64.mul) a b.

(** [np.maximum(x, 0)] on one entry. *)
Definition np_maximum0 (z : Z) : Z := Z.max z 0.

End Numpy.

Import Numpy.

(** ** The convolution helpers *)

Inductive image :=
  | Img2 (a : ndarray2)
  | Img3 (a : ndarray3).

Definition wf_image (img : image) : Prop :=
  match img with Img2 a => wf2 a | Img3 a => wf3 a end.

Definition img_rows (img : image) : nat :=
  match img with Img2 a => rows2 a | Img3 a => rows3 a end.

Definition img_cols (img : image) : nat :=
  match img with Img2 a => cols2 a | Img3 a => cols3 a end.

(** [len(img.shape)]. *)
Definition ndim (img : image) : nat :=
  match img with Img2 _ => 2 | Img3 _ => 3 end.

(** Number of channels of a 3-D image; a 2-D image has no channel axis. *)
Definition img_chans (img : image) : option nat :=
  match img with Img2 _ => None | Img3 a => Some (chans3 a) end.

(** [k] is a channel of [img]; a 2-D image has the one channel 0. *)
Definition chan_in (img : image) (k : nat) : Prop :=
  match img with Img2 _ => k = 0%nat | Img3 a => (k < chans3 a)%nat end.

#[global] Instance chan_in_dec img k : Decision (chan_in img k).
Proof. destruct img; simpl; apply _. Defined.

(** Entry [(i, j)] of a 2-D image, entry [(i, j, k)] of a 3-D one; the
    channel index of a 2-D image is taken to be 0. *)
Definition img_at (img : image) (i j k : nat) : option Z :=
  match img with
  | Img2 a => if decide (k = 0%nat) then get2 a i j else None
  | Img3 a => get3 a i j k
  end.

Definition pad_height (kernel : ndarray2) : Z := (Z.of_nat (rows2 kernel) - 1) / 2.
Definition pad_width (kernel : ndarray2) : Z := (Z.of_nat (cols2 kernel) - 1) / 2.

Definition pad_img (img : image) (kernel : ndarray2) : option image :=
  match img with
  | Img2 a => Img2 <$> np_pad2 a (pad_height kernel) (pad_width kernel)
  | Img3 a => Img3 <$> np_pad3 a (pad_height kernel) (pad_width kernel)
  end.

(** [img[i:i+kh, j:j+kw, k]]. *)
Definition window (img : ndarray3) (kh kw i j k : nat) : list (list Z) :=
  (λ r : list (list Z), (λ p : list Z, p !!! k) <$> take kw (drop j r))
    <$> take kh (drop i (data3 img)).

(** The body of the innermost loop: entry [k] of the output pixel [(i, j)],
    a block of shape (1, 1, 1) given by its one slice along axis 2. *)
Definition conv_channel (img : ndarray3) (kernel : ndarray2) (i j k : nat)
  : list Z :=
  let slice := window img (rows2 kernel) (cols2 kernel) i j k in
  [np_sum (np_multiply slice (data2 kernel))].

(** The loop over [k] and [row.append(np.concatenate(channels, axis=2))]:
    a block of shape (1, 1, C), the list of its one pixel. *)
Definition conv_pixel (img : ndarray3) (kernel : ndarray2) (i j : nat)
  : option (list (list Z)) :=
  let channels := (λ k : nat, conv_channel img kernel i j k)
                    <$> seq 0 (chans3 img) in
  px ← np_concatenate channels;
  Some [px].

(** The loop over [j] and [new_img.append(np.concatenate(row, axis=1))]. *)
Definition conv_row (img : ndarray3) (kernel : ndarray2) (out_cols i : nat)
  : option (list (list (list Z))) :=
  row ← mapM (λ j : nat, conv_pixel img kernel i j) (seq 0 out_cols);
  r ← np_concatenate row;
  Some [r].

(** [range(height - kernel.shape[0] + 1)] and its twin for the width: the
    bound is computed on integers and an empty range results when it is
    not positive. *)
Definition out_extent (padded k : nat) : nat :=
  Z.to_nat (Z.of_nat padded - Z.of_nat k + 1).

Definition clamp_cast (v : Z) : Z := Int64.astype_uint8 (np_maximum0 v).

Definition convolve2D (img : image) (kernel : ndarray2) : option image :=
  let is_gray_scale := bool_decide (ndim img = 2%nat) in
  let img := match img with Img2 a => Img3 (expand_dims a) | Img3 _ => img end in
  img ← pad_img img kernel;
  match img with
  | Img2 _ => None (* not taken: [pad_img] keeps the number of axes *)
  | Img3 img =>
    let height := rows3 img in
    let width := cols3 img in
    let out_rows := out_extent height (rows2 kernel) in
    let out_cols := out_extent width (cols2 kernel) in
    new_img ← mapM (λ i : nat, conv_row img kernel out_cols i) (seq 0 out_rows);
    res ← np_concatenate new_img;
    let res := {| rows3 := out_rows; cols3 := out_cols; chans3 := chans3 img;
                  data3 := (λ r : list (list Z),
                             (λ p : list Z, clamp_cast <$> p) <$> r) <$> res |} in
    if is_gray_scale then Some (Img2 (channel0 res)) else Some (Img3 res)
  end.

(** The integer kernels of [get_kernels]. *)
Definition kernel3x3 (m : list (list Z)) : ndarray2 :=
  {| rows2 := 3; cols2 := 3; data2 := m |}.

Definition get_kernels : list (string * ndarray2) :=
  [ ("Identity"%string, kernel3x3 [[0; 0; 0]; [0; 1; 0]; [0; 0; 0]]);
    ("Edge Detection1"%string, kernel3x3 [[1; 0; -1]; [0; 0; 0]; [-1; 0; 1]]);
    ("Edge Detection2"%string, kernel3x3 [[0; 1; 0]; [1; -4; 1]; [0; 1; 0]]);
    ("Edge Detection3"%string,
       kernel3x3 [[-1; -1; -1]; [-1; 8; -1]; [-1; -1; -1]]);
    ("Sharpen"%string, kernel3x3 [[0; -1; 0]; [-1; 5; -1]; [0; -1; 0]]) ].

(** ** Notions used to state the results *)

(** Entry of an array by position (the default value of the lookup outside
    the array); used to state results at positions inside it. *)
Definition at2 (a : ndarray2) (i j : nat) : Z := (data2 a !!! i) !!! j.
Definition at3 (a : ndarray3) (i j k : nat) : Z := ((data3 a !!! i) !!! j) !!! k.

Definition Zsum (l : list Z) : Z := foldr Z.add 0 l.

(** The elementwise product-sum of the kernel against the window of [img]
    whose top left corner is [(i, j)], in channel [k], over the integers. *)
Definition product_sum (img : ndarray3) (kernel : ndarray2) (i j k : nat) : Z :=
  Zsum ((λ a : nat,
           Zsum ((λ b : nat, at3 img (i + a) (j + b) k * at2 kernel a b)
                   <$> seq 0 (cols2 kernel)))
          <$> seq 0 (rows2 kernel)).

(** [tabulate3 f h w c] is the [h] by [w] by [c] nested list of the values
    [f i j k]. *)
Definition tabulate3 {A} (f : nat → nat → nat → A) (h w c : nat)
  : list (list (list A)) :=
  (λ i : nat, (λ j : nat, (λ k : nat, f i j k) <$> seq 0 c) <$> seq 0 w)
    <$> seq 0 h.

(** The 3-D array [convolve2D] works on. *)
Definition to3d (img : image) : ndarray3 :=
  match img with Img2 a => expand_dims a | Img3 a => a end.

(** The value stored at an output position. *)
Definition conv_value (padded : ndarray3) (kernel : ndarray2) (i j k : nat) : Z :=
  clamp_cast (Int64.wrap64 (product_sum padded kernel i j k)).

(** An image of dtype uint8: every entry lies in [0, 255]. *)
Definition uint8_image (a : ndarray3) : Prop :=
  Forall (Forall (Forall (λ v, 0 ≤ v ≤ 255))) (data3 a).

(** The sum of the absolute values of the kernel entries. *)
Definition kernel_weight (kernel : ndarray2) : Z :=
  Zsum ((λ a : nat,
           Zsum ((λ b : nat, Z.abs (at2 kernel a b)) <$> seq 0 (cols2 kernel)))
          <$> seq 0 (rows2 kernel)).

(** ** Loops with an index *)

(** [for i, x in enumerate(l, start): st = body(st, i, x)], where the body
    may raise. *)
Fixpoint for_enumerate {St A} (body : St → nat → A → option St)
    (start : nat) (l : list A) (st : St) : option St :=
  match l with
  | [] => Some st
  | x :: l => st ← body st start x; for_enumerate body (S start) l st
  end.

(** [for x in l: st = body(st, x)]. *)
Definition for_each {St A} (body : St → A → option St) (l : list A) (st : St)
  : option St :=
  for_enumerate (λ st (_ : nat) x, body st x) 0 l st.

(** ** The dataset loader *)

Section Loader.
(** [picture] is the content of an image file and [ndimage] the array
    [np.asarray(img.resize(size))] made from it; both belong to PIL and
    NumPy and stay abstract. *)
Context {picture ndimage : Type}.
Variable load : picture → list nat → ndimage.

#[warnings="-register-all"] Inductive node :=
  | ImageFile (p : picture)
  | OtherFile
  | Directory (entries : list (string * node)).

(** [os.listdir(path)] with the entries the names resolve to; it raises
    when [path] is not a directory. *)
Definition listdir (n : node) : option (list (string * node)) :=
  match n with Directory es => Some es | _ => None end.

(** [Image.open(path)]. *)
Definition image_open (n : node) : option picture :=
  match n with ImageFile p => Some p | _ => None end.

Definition loader_state : Type := list ndimage * list (list Z) * list string.

Definition load_class (size : list nat) (st : loader_state) (i : nat)
    (file : string * node) : option loader_state :=
  let '(imgs, labels, labels_list) := st in
  img_names ← listdir file.2;
  let labels := labels ++ [replicate (length img_names) (1 * Z.of_nat i)] in
  let labels_list := labels_list ++ [file.1] in
  imgs ← for_each
            (λ imgs (img_name : string * node),
               img ← image_open img_name.2;
               Some (imgs ++ [load img size]))
            img_names imgs;
  Some (imgs, labels, labels_list).

Definition get_data_from_dir (path : node) (size : list nat)
  : option (list ndimage * list Z * list string) :=
  files ← listdir path;
  '(imgs, labels, labels_list) ← for_enumerate (load_class size) 0 files ([], [], []);
  hstack ← np_concatenate labels;
  Some (imgs, hstack, labels_list).

(** The pictures of a class subdirectory that holds image files only. *)
Definition pictures_of (n : node) : option (list picture) :=
  es ← listdir n; mapM (λ e : string * node, image_open e.2) es.

(** The examples of the class subdirectory [c] listed at position [i]:
    its pictures, loaded, each with the label [i]. *)
Definition class_examples (size : list nat) (i : nat) (c : string * node)
  : list (ndimage * Z) :=
  (λ p, (load p size, Z.of_nat i)) <$> default [] (pictures_of c.2).
End Loader.

(** ** Splitting, shuffling and one-hot encoding *)

(** [l[:index]] and [l[index:]]: a negative bound counts from the end. *)
Definition slice_bound (len : nat) (index : Z) : nat :=
  if decide (index < 0) then Z.to_nat (Z.max 0 (Z.of_nat len + index))
  else Z.to_nat index.

Definition slice_to {A} (index : Z) (l : list A) : list A :=
  take (slice_bound (length l) index) l.

Definition slice_from {A} (index : Z) (l : list A) : list A :=
  drop (slice_bound (length l) index) l.

(** [val_split] is a rational here; the rounding of the binary64 product
    is not part of the embedding. *)
Definition train_test_split {A B} (X : list A) (y : list B) (val_split : Q)
  : list A * list B * list A * list B :=
  let index :=
    int_of_Q (inject_Z (Z.of_nat (length X)) * (1 - val_split))%Q in
  (slice_to index X, slice_to index y, slice_from index X, slice_from index y).

(** [X[indices]] with an array of positions. *)
Definition take_indices {A} (X : list A) (indices : list nat) : option (list A) :=
  mapM (λ i : nat, X !! i) indices.

Section Shuffle.
(** [np.random.shuffle] reorders an array in place and advances the
    state of the global generator. *)
Context {rng : Type}.
Variable np_random_shuffle : rng → list nat → list nat * rng.

Definition shuffle {A B} (X : list A) (y : list B) (g : rng)
  : option (list A * list B * rng) :=
  let indices := seq 0 (length X) in
  let '(indices, g) := np_random_shuffle g indices in
  X' ← take_indices X indices;
  y' ← take_indices y indices;
  Some (X', y', g).
End Shuffle.

(** [np.max(y)]; raises on an empty array. *)
Definition np_max (y : list Z) : option Z :=
  match y with
  | [] => None
  | v :: y => Some (foldr Z.max v y)
  end.

(** [np.eye(n)]; raises when [n] is negative. *)
Definition np_eye (n : Z) : option (list (list Z)) :=
  if decide (n < 0) then None
  else
    let n := Z.to_nat n in
    Some ((λ i : nat, (λ j : nat, if decide (i = j) then 1 else 0) <$> seq 0 n)
            <$> seq 0 n).

(** A NumPy index into an axis of extent [n]: negative values count from
    the end, anything else out of range raises [IndexError]. *)
Definition np_index (n : nat) (v : Z) : option nat :=
  if decide (0 ≤ v < Z.of_nat n) then Some (Z.to_nat v)
  else if decide (- Z.of_nat n ≤ v < 0) then Some (Z.to_nat (Z.of_nat n + v))
  else None.

(** [m[idx]] with an integer array [idx]: rows of [m]. *)
Definition take_rows {A} (m : list A) (idx : list Z) : option (list A) :=
  mapM (λ v : Z, i ← np_index (length m) v; m !! i) idx.

(** The labels hold integral values, so [int(...)] and [astype('int')]
    leave them as they are. *)
Definition one_hot (y : list Z) : option (list (list Z)) :=
  m ← np_max y;
  eye ← np_eye (m + 1);
  take_rows eye y.

(** ** Bag-of-words rows *)

(** [row[sequence] = 1.]: every index is checked before anything is
    stored. *)
Definition set_ones (row : list Z) (sequence : list Z) : option (list Z) :=
  indices ← mapM (np_index (length row)) sequence;
  Some (foldl (λ (r : list Z) (i : nat), <[i := 1]> r) row indices).

Definition vectorize_sequences (sequences : list (list Z)) (dimension : nat)
  : option (list (list Z)) :=
  let results := replicate (length sequences) (replicate dimension 0) in
  for_enumerate
    (λ (results : list (list Z)) (i : nat) (sequence : list Z),
       row ← results !! i;
       row ← set_ones row sequence;
       Some (<[i := row]> results))
    0 sequences results.

(** The indicator row of a sequence. *)
Definition bag_row (dimension : nat) (s : list Z) : list Z :=
  (λ j : nat, if decide (Z.of_nat j ∈ s) then 1 else 0) <$> seq 0 dimension.

(** ** Framing a time series *)

(** ['%d' % n]. *)
Definition dec (n : nat) : string := NilEmpty.string_of_uint (Nat.to_uint n).

Section Series.
(** The numbers of a table are not computed with; a cell is a value or
    NaN, the marker pandas uses for a missing value. *)
Context {V : Type}.

Definition cell : Type := option V.

Record table := Table {
  nrows : nat;
  ncols : nat;
  cells : list (list cell)
}.

Definition wf_table (t : table) : Prop :=
  length (cells t) = nrows t ∧ Forall (λ r, length r = ncols t) (cells t).

(** What [organize_series] accepts as [data]: a Python list of values
    (one series, for which the code sets [n_vars = 1]) or a 2-D array with
    its [shape].  A Python list of rows is not part of this type. *)
Inductive series_input :=
  | PyList (xs : list cell)
  | NdArray (a : table).

(** A [DataFrame] without its column labels: the row labels and the
    rows. *)
Record frame := Frame {
  width : nat;
  index : list nat;
  rows : list (list cell)
}.

(** [agg] once [agg.columns = names] has been carried out. *)
Record named_frame := NamedFrame {
  names : list string;
  body : frame
}.

(** [pd.DataFrame(data)]; an empty list gives a frame without columns. *)
Definition DataFrame (data : series_input) : frame :=
  match data with
  | PyList xs =>
      {| width := if decide (xs = []) then 0 else 1;
         index := seq 0 (length xs);
         rows := (λ x : cell, [x]) <$> xs |}
  | NdArray a =>
      {| width := ncols a; index := seq 0 (nrows a); rows := cells a |}
  end.

(** [df.shift(periods)]: the rows move down by [periods] (up when it is
    negative) under the same row labels; vacated rows are NaN. *)
Definition shift (df : frame) (periods : Z) : frame :=
  let n := length (rows df) in
  let nan_row : list cell := replicate (width df) None in
  let moved :=
    if decide (0 ≤ periods) then
      let p := Nat.min (Z.to_nat periods) n in
      replicate p nan_row ++ take (n - p) (rows df)
    else
      let p := Nat.min (Z.to_nat (- periods)) n in
      drop p (rows df) ++ replicate p nan_row in
  {| width := width df; index := index df; rows := moved |}.

(** [pd.concat(cols, axis=1)] on frames that carry the row labels of one
    frame; no frame to concatenate raises [ValueError]. *)
Definition pd_concat (cols : list frame) : option frame :=
  match cols with
  | [] => None
  | c :: cols' =>
      Some (foldl (λ (acc : frame) (f : frame),
                     {| width := width acc + width f;
                        index := index acc;
                        rows := zip_with app (rows acc) (rows f) |})
                  c cols')
  end.

(** [agg.columns = names]; a wrong number of names raises. *)
Definition set_columns (agg : frame) (names : list string) : option named_frame :=
  if decide (length names = width agg) then
    Some {| names := names; body := agg |}
  else None.

(** [agg.dropna(inplace=True)]: rows with a NaN go, labels stay with
    their rows. *)
Definition dropna (agg : named_frame) : named_frame :=
  let kept :=
    filter (λ lr : nat * list cell, ¬ Exists (λ c, c = None) lr.2)
           (zip (index (body agg)) (rows (body agg))) in
  {| names := names agg;
     body := {| width := width (body agg);
                index := kept.*1; rows := kept.*2 |} |}.

Definition organize_series (data : series_input) (n_in n_out : nat)
    (dropnan : bool) : option named_frame :=
  let n_vars :=
    match data with PyList _ => 1%nat | NdArray a => ncols a end in
  let df := DataFrame data in
  let '(cols, names) :=
    foldl (λ '(cols, names) (i : nat),
             (cols ++ [shift df (Z.of_nat i)],
              names ++ ((λ j : nat,
                           "var" ++ dec (j + 1) ++ "(t-" ++ dec i ++ ")")%string
                          <$> seq 0 n_vars)))
          ([], []) (reverse (seq 1 n_in)) in
  let '(cols, names) :=
    foldl (λ '(cols, names) (i : nat),
             (cols ++ [shift df (- Z.of_nat i)],
              if decide (i = 0%nat) then
                names ++ ((λ j : nat, "var" ++ dec (j + 1) ++ "(t)")%string
                            <$> seq 0 n_vars)
              else
                names ++ ((λ j : nat,
                             "var" ++ dec (j + 1) ++ "(t+" ++ dec i ++ ")")%string
                            <$> seq 0 n_vars)))
          (cols, names) (seq 0 n_out) in
  agg ← pd_concat cols;
  agg ← set_columns agg names;
  let agg := if dropnan then dropna agg else agg in
  Some agg.

(** The rows and the number of columns of the table passed as [data]. *)
Definition input_rows (data : series_input) : list (list cell) :=
  rows (DataFrame data).

Definition input_cols (data : series_input) : nat :=
  match data with PyList _ => 1%nat | NdArray a => ncols a end.

Definition wf_input (data : series_input) : Prop :=
  match data with PyList _ => True | NdArray a => wf_table a end.

(** A row without NaN. *)
Definition complete (r : list cell) : Prop := Forall (λ c, c ≠ None) r.

(** The column labels for [n_in = n_out = 1]. *)
Definition lag_names (v : nat) : list string :=
  ((λ j : nat, "var" ++ dec (j + 1) ++ "(t-1)")%string <$> seq 0 v)
  ++ ((λ j : nat, "var" ++ dec (j + 1) ++ "(t)")%string <$> seq 0 v).
End Series.

(** ** Further code of the notebooks *)

(** [img[:, :, c]] for a channel [c] of the 3-D array. *)
Definition take_channel (c : nat) (a : ndarray3) : ndarray2 :=
  {| rows2 := rows3 a; cols2 := cols3 a;
     data2 := (λ r : list (list Z), (λ p : list Z, p !!! c) <$> r) <$> data3 a |}.

(** The first entry of [get_kernels]. *)
Definition identity_kernel : ndarray2 :=
  kernel3x3 [[0; 0; 0]; [0; 1; 0]; [0; 0; 0]].

(** The calls [plot_with_kernels] makes into matplotlib and seaborn, in the
    order it makes them; the styling arguments are left out. *)
Inductive plot_call :=
  | PltFigure
  | PltSubplot (nrows ncols index : nat)
  | PltText (s : string)
  | PltAxisOff
  | SnsHeatmap (k : ndarray2)
  | PltImshow (img : image) (cmap_gray : bool)
  | PltShow.

(** [plt.subplot(nrows, ncols, index)] raises [ValueError] unless
    [1 <= index <= nrows * ncols]. *)
Definition plt_subplot (nrows ncols index : nat) (calls : list plot_call)
  : option (list plot_call) :=
  if decide (1 ≤ index ≤ nrows * ncols)%nat
  then Some (calls ++ [PltSubplot nrows ncols index])
  else None.

(** The body of the loop of [plot_with_kernels]: the three panels of one
    kernel. *)
Definition plot_kernel_panels (n_sub_plots : nat) (img : image)
    (calls : list plot_call) (i : nat) (kernel : string * ndarray2)
  : option (list plot_call) :=
  calls ← plt_subplot n_sub_plots 3 (i * 3 + 1) calls;
  let calls := calls ++ [PltText kernel.1; PltAxisOff] in
  calls ← plt_subplot n_sub_plots 3 (i * 3 + 2) calls;
  let calls := calls ++ [SnsHeatmap kernel.2; PltAxisOff] in
  calls ← plt_subplot n_sub_plots 3 ((i + 1) * 3) calls;
  img_ ← convolve2D img kernel.2;
  let calls :=
    if decide (ndim img_ = 2%nat)
    then calls ++ [PltImshow img_ true]
    else calls ++ [PltImshow img_ false] in
  Some (calls ++ [PltAxisOff]).

(** [plot_with_kernels(img)] with the list [kernels = get_kernels()] as an
    argument, since two entries of that list are float arrays. *)
Definition plot_with_kernels (kernels : list (string * ndarray2)) (img : image)
  : option (list plot_call) :=
  let n_sub_plots := length kernels in
  let calls := [PltFigure] in
  calls ← for_enumerate (plot_kernel_panels n_sub_plots img) 0 kernels calls;
  Some (calls ++ [PltShow]).

(** The grid positions a list of calls selects, in order. *)
Definition subplot_indices (calls : list plot_call) : list nat :=
  omap (λ c, match c with PltSubplot _ _ index => Some index | _ => None end)
       calls.

(** The images a list of calls shows, in order. *)
Definition shown_images (calls : list plot_call) : list (image * bool) :=
  omap (λ c, match c with PltImshow img g => Some (img, g) | _ => None end)
       calls.

(** [row.argmax()]: the first position of the largest entry; an empty row
    raises. *)
Fixpoint argmax_from (best : Z) (best_i i : nat) (row : list Z) : nat :=
  match row with
  | [] => best_i
  | v :: row =>
      if decide (best < v) then argmax_from v i (S i) row
      else argmax_from best best_i (S i) row
  end.

Definition np_argmax (row : list Z) : option nat :=
  match row with
  | [] => None
  | v :: row => Some (argmax_from v 0 1 row)
  end.

(** [m.argmax(axis=1)] for a matrix that has a row. *)
Definition argmax_axis1 (m : list (list Z)) : option (list nat) :=
  mapM np_argmax m.

(** The row of [n] entries that is 1 at position [c] and 0 elsewhere. *)
Definition unit_row (n c : nat) : list Z :=
  (λ j : nat, if decide (c = j) then 1 else 0) <$> seq 0 n.

(** ** The cells that prepare the image data *)

Section Pipeline.
Context {picture ndimage rng : Type}.
Variable load : picture → list nat → ndimage.
Variable np_random_shuffle : rng → list nat → list nat * rng.

(** What the training cell leaves behind. *)
Record training_data := TrainingData {
  X_train : list ndimage;
  y_train : list Z;
  X_test : list ndimage;
  y_test : list Z;
  y_train_hot : list (list Z);
  y_test_hot : list (list Z);
  labels_list : list string
}.

(** The cell run with [train_model] set: load, shuffle, split with the
    default [val_split] of 0.2, encode both label vectors.  For [0.2] the
    64-bit product [len * (1 - 0.2)] truncates to the same integer as the
    rational one for every length below [2 ^ 50]. *)
Definition prepare_training (path : @node picture) (g : rng)
  : option (training_data * rng) :=
  '(X, y, labels_list) ← get_data_from_dir load path [100; 100]%nat;
  '(X, y, g) ← shuffle np_random_shuffle X y g;
  let '(X_train, y_train, X_test, y_test) := train_test_split X y (2 # 10) in
  y_train_hot ← one_hot y_train;
  y_test_hot ← one_hot y_test;
  Some ({| X_train := X_train; y_train := y_train;
           X_test := X_test; y_test := y_test;
           y_train_hot := y_train_hot; y_test_hot := y_test_hot;
           labels_list := labels_list |}, g).

(** The cell that prepares the validation data. *)
Definition prepare_validation (path : @node picture) (g : rng)
  : option (list ndimage * list Z * list (list Z) * list string * rng) :=
  '(X_val, y_val, labels_list) ← get_data_from_dir load path [100; 100]%nat;
  '(X_val, y_val, g) ← shuffle np_random_shuffle X_val y_val g;
  y_val_hot ← one_hot y_val;
  Some (X_val, y_val, y_val_hot, labels_list, g).
End Pipeline.

(** ** Frames of any number of lags *)

Section SeriesWindows.
Context {V : Type}.

(** The column labels [organize_series] builds. *)
Definition frame_names (n_vars n_in n_out : nat) : list string :=
  (reverse (seq 1 n_in) ≫= λ i : nat,
     (λ j : nat, "var" ++ dec (j + 1) ++ "(t-" ++ dec i ++ ")")%string
       <$> seq 0 n_vars)
  ++ (seq 0 n_out ≫= λ i : nat,
        if decide (i = 0%nat) then
          (λ j : nat, "var" ++ dec (j + 1) ++ "(t)")%string <$> seq 0 n_vars
        else
          (λ j : nat, "var" ++ dec (j + 1) ++ "(t+" ++ dec i ++ ")")%string
            <$> seq 0 n_vars).

(** The row of [df] at position [z], and a row of NaN when there is no
    such position. *)
Definition shifted_row (df : @frame V) (z : Z) : list cell :=
  if decide (0 ≤ z < Z.of_nat (length (rows df))) then
    default [] (rows df !! Z.to_nat z)
  else replicate (width df) None.

(** The rows of times [t - n_in], ..., [t - 1], [t], ..., [t + n_out - 1]
    side by side, with NaN for the times outside the frame. *)
Definition lagged_row (df : @frame V) (n_in n_out t : nat) : list cell :=
  concat (((λ i : nat, shifted_row df (Z.of_nat t - Z.of_nat i))
             <$> reverse (seq 1 n_in))
          ++ ((λ i : nat, shifted_row df (Z.of_nat t + Z.of_nat i))
                <$> seq 0 n_out)).

(** [w] consecutive rows from row [i] on, side by side. *)
Definition lag_window (R : list (list (@cell V))) (w i : nat) : list cell :=
  concat (take w (drop i R)).
End SeriesWindows.

(** ** Splitting the framed series *)

Section SeriesSplit.
Context {V : Type}.

(** [m[:, -1]] on a matrix with [w] columns; it raises when there is no
    column. *)
Definition last_column (w : nat) (m : list (list (@cell V)))
  : option (list cell) :=
  i ← np_index w (-1); mapM (λ r : list cell, r !! i) m.

(** [m[:, :-1]]. *)
Definition drop_last_column (m : list (list (@cell V))) : list (list cell) :=
  (λ r : list cell, slice_to (-1) r) <$> m.

(** [m.reshape((m.shape[0], 1, m.shape[1]))]. *)
Definition reshape_steps (m : list (list (@cell V)))
  : list (list (list cell)) :=
  (λ r : list cell, [r]) <$> m.

(** The cell that splits [reframed.values] into what it calls [test], the
    first [n_train_hours] rows, and [train], the rows after them, and
    each into inputs and target; [n_train_hours] is [365 * 24] there. *)
Definition split_series (n_train_hours : Z) (reframed : @named_frame V)
  : option (list (list (list cell)) * list cell
            * list (list (list cell)) * list cell) :=
  let values := rows (body reframed) in
  let w := width (body reframed) in
  let test := slice_to n_train_hours values in
  let train := slice_from n_train_hours values in
  let X_train := drop_last_column train in
  y_train ← last_column w train;
  let X_test := drop_last_column test in
  y_test ← last_column w test;
  let X_train := reshape_steps X_train in
  let X_test := reshape_steps X_test in
  Some (X_train, y_train, X_test, y_test).
End SeriesSplit.

(** ** Decoding a review *)

(** [dict(pairs).get(k, d)]: of the pairs with the key [k] the last one
    counts, and [d] is returned when there is none. *)
Definition dict_get {A} (pairs : list (Z * A)) (k : Z) (d : A) : A :=
  default d
    (foldl (λ (found : option A) (p : Z * A),
              if decide (p.1 = k) then Some p.2 else found)
           None pairs).

(** [sep.join(l)]. *)
Definition str_join (sep : string) (l : list string) : string :=
  match l with
  | [] => ""
  | s :: l => foldl (λ acc s : string, acc ++ sep ++ s)%string s l
  end.

(** The words of a review: [word_index] is given by its items, a word
    with its rank; the indices of a review are the ranks moved up by 3. *)
Definition decode_words (word_index : list (string * Z)) (review : list Z)
  : list string :=
  let reverse_word_index :=
    (λ '(key, value), (value, key)) <$> word_index in
  (λ i : Z, dict_get reverse_word_index (i - 3) "?"%string) <$> review.

Definition decode_review (word_index : list (string * Z)) (review : list Z)
  : string :=
  str_join " " (decode_words word_index review).

(** ** Showing some examples *)

(** [l[v]] on a list or an axis of an array. *)
Definition list_index {A} (l : list A) (v : Z) : option A :=
  i ← np_index (length l) v; l !! i.

Section PlotSome.
(** [example] is an entry of [X], an image array. *)
Context {example rng : Type}.
(** [np.random.randint(low, high, size)] once [low < high] has been
    checked. *)
Variable np_random_randint : rng → Z → Z → nat → list Z * rng.

(** The calls [plot_some] makes into matplotlib, without the styling
    arguments. *)
Inductive some_call :=
  | SomeFigure
  | SomeSubplot (nrows ncols index : nat)
  | SomeImshow (x : example)
  | SomeTitle (s : string)
  | SomeAxisOff
  | SomeTightLayout
  | SomeShow.

Definition randint (g : rng) (low high : Z) (size : nat)
  : option (list Z * rng) :=
  if decide (low < high) then Some (np_random_randint g low high size)
  else None.

(** The body of the loop of [plot_some]. *)
Definition plot_some_panel (X : list example) (y : list Z)
    (y_hat : option (list Z)) (labels_list : list string)
    (calls : list some_call) (i : nat) (index : Z)
  : option (list some_call) :=
  calls ← (if decide (1 ≤ i + 1 ≤ 2 * 5)%nat
           then Some (calls ++ [SomeSubplot 2 5 (i + 1)]) else None);
  x ← list_index X index;
  let calls := calls ++ [SomeImshow x] in
  label ← list_index y index;
  name ← list_index labels_list label;
  predicted ← match y_hat with
               | None => Some "N/A"%string
               | Some y_hat =>
                   label ← list_index y_hat index;
                   list_index labels_list label
               end;
  Some (calls ++ [SomeTitle ("Y: " ++ name ++ "    Y_hat: " ++ predicted);
                  SomeAxisOff]).

(** [plot_some(X, y, y_hat, labels_list)] called with a list of names for
    [labels_list], as the notebook calls it; without one the labels
    themselves, NumPy floats, are formatted into the titles, which is not
    part of the embedding. *)
Definition plot_some (X : list example) (y : list Z)
    (y_hat : option (list Z)) (labels_list : list string) (g : rng)
  : option (list some_call * rng) :=
  '(indices, g) ← randint g 0 (Z.of_nat (length X)) 10;
  let calls := [SomeFigure] in
  calls ← for_enumerate (plot_some_panel X y y_hat labels_list) 0 indices calls;
  Some (calls ++ [SomeTightLayout; SomeShow], g).

(** What a list of calls selects, shows and writes, in order. *)
Definition some_subplots (calls : list some_call) : list (nat * nat * nat) :=
  omap (λ c, match c with
             | SomeSubplot nrows ncols index => Some (nrows, ncols, index)
             | _ => None
             end)
       calls.

Definition some_shown (calls : list some_call) : list example :=
  omap (λ c, match c with SomeImshow x => Some x | _ => None end) calls.

Definition some_titles (calls : list some_call) : list string :=
  omap (λ c, match c with SomeTitle s => Some s | _ => None end) calls.
End PlotSome.

(** * Properties *)

(** The Identity kernel gives the image back. *)
Example convolve_identity :
  convolve2D (Img2 {| rows2 := 2; cols2 := 2; data2 := [[1; 2]; [3; 4]] |})
             (kernel3x3 [[0; 0; 0]; [0; 1; 0]; [0; 0; 0]])
  = Some (Img2 {| rows2 := 2; cols2 := 2; data2 := [[1; 2]; [3; 4]] |}).
Proof. vm_compute. reflexivity. Qed.

(** ** Lists padded on both sides *)

Section ListFacts.
Context {A : Type}.
Implicit Types (l : list A) (z : A).

Lemma lookup_pad z h l i :
  (replicate h z ++ l ++ replicate h z) !! i =
    if decide (i < h)%nat then Some z
    else if decide (i < h + length l)%nat then l !! (i - h)%nat
    else if decide (i < h + length l + h)%nat then Some z
    else None.
Proof.
  case_decide as Hi.
  { rewrite lookup_app_l by (rewrite length_replicate; lia).
    by apply lookup_replicate_2. }
  rewrite lookup_app_r, length_replicate by (rewrite length_replicate; lia).
  case_decide as Hl.
  { by rewrite lookup_app_l by lia. }
  rewrite lookup_app_r by lia.
  case_decide as Hr.
  - apply lookup_replicate_2. lia.
  - apply lookup_replicate_None. lia.
Qed.

Lemma length_pad z h l :
  length (replicate h z ++ l ++ replicate h z) = (h + length l + h)%nat.
Proof. rewrite !length_app, !length_replicate. lia. Qed.

Lemma concat_singletons {B} (f : B → A) (ks : list B) :
  concat ((λ x, [f x]) <$> ks) = f <$> ks.
Proof. induction ks as [|x ks IH]; csimpl; [done | by rewrite IH]. Qed.

Lemma mapM_total {B} (f : B → option A) (g : B → A) (ks : list B) :
  (∀ x, x ∈ ks → f x = Some (g x)) → mapM f ks = Some (g <$> ks).
Proof.
  intros Hf. apply mapM_Some. induction ks as [|x ks IH]; simpl.
  - constructor.
  - constructor.
    + apply Hf. left.
    + apply IH. intros y Hy. apply Hf. by right.
Qed.

Lemma zip_with_tabulate {B C} `{!Inhabited A, !Inhabited B}
    (f : A → B → C) l (k : list B) n :
  length l = n → length k = n →
  zip_with f l k = (λ a : nat, f (l !!! a) (k !!! a)) <$> seq 0 n.
Proof.
  intros Hl Hk. apply list_eq. intros i.
  rewrite lookup_zip_with, list_lookup_fmap.
  destruct (decide (i < n)%nat) as [Hi|Hi].
  - rewrite lookup_seq_lt by done. simpl.
    rewrite (list_lookup_lookup_total_lt l i) by lia.
    rewrite (list_lookup_lookup_total_lt k i) by lia. done.
  - rewrite lookup_seq_ge by lia.
    rewrite (lookup_ge_None_2 l i) by lia. done.
Qed.
End ListFacts.

(** ** Padding *)

Lemma lookup_replicate_lt {A} (x : A) n i :
  replicate n x !! i = if decide (i < n)%nat then Some x else None.
Proof.
  case_decide.
  - by apply lookup_replicate_2.
  - apply lookup_replicate_None. lia.
Qed.

Lemma pad_amount (k : nat) :
  (0 < k)%nat → (Z.of_nat k - 1) / 2 = Z.of_nat ((k - 1) / 2).
Proof.
  intros Hk. rewrite Nat2Z.inj_div, Nat2Z.inj_sub by lia. done.
Qed.

Lemma wf2_constant_pad a h w : wf2 a → wf2 (constant_pad2 a h w).
Proof.
  intros [Hlen Hall]. split; simpl.
  - rewrite length_pad, length_fmap. lia.
  - rewrite !Forall_app, Forall_fmap. split_and!.
    + apply Forall_replicate. by rewrite length_replicate.
    + eapply Forall_impl; [exact Hall|]. intros r Hr. simpl in *.
      rewrite length_pad. lia.
    + apply Forall_replicate. by rewrite length_replicate.
Qed.

Lemma wf3_constant_pad a h w : wf3 a → wf3 (constant_pad3 a h w).
Proof.
  intros [Hlen Hall]. split; simpl.
  - rewrite length_pad, length_fmap. lia.
  - assert (Hz : Forall (λ p : list Z, length p = chans3 a)
                   (replicate w (replicate (chans3 a) 0))).
    { apply Forall_replicate. by rewrite length_replicate. }
    rewrite !Forall_app, Forall_fmap. split_and!.
    + apply Forall_replicate. rewrite length_replicate. split; [done|].
      apply Forall_replicate. by rewrite length_replicate.
    + eapply Forall_impl; [exact Hall|]. intros r [Hr Hp]. simpl in *.
      rewrite length_pad. split; [lia|].
      rewrite !Forall_app. by split_and!.
    + apply Forall_replicate. rewrite length_replicate. split; [done|].
      apply Forall_replicate. by rewrite length_replicate.
Qed.

Lemma get2_constant_pad a h w i j :
  wf2 a →
  get2 (constant_pad2 a h w) i j =
    if decide (h ≤ i < h + rows2 a ∧ w ≤ j < w + cols2 a)%nat
    then get2 a (i - h) (j - w)
    else if decide (i < h + rows2 a + h ∧ j < w + cols2 a + w)%nat
         then Some 0 else None.
Proof.
  intros [Hlen Hall]. unfold get2, constant_pad2. simpl.
  rewrite lookup_pad, length_fmap, Hlen.
  destruct (decide (i < h)%nat) as [Hi|Hi]; simpl.
  { rewrite lookup_replicate_lt. repeat case_decide; (done || lia). }
  destruct (decide (i < h + rows2 a)%nat) as [Hi'|Hi']; simpl.
  - rewrite list_lookup_fmap.
    destruct (lookup_lt_is_Some_2 (data2 a) (i - h)%nat) as [r Hr]; [lia|].
    rewrite Hr. simpl.
    assert (length r = cols2 a) as Hc by (eapply Forall_lookup_1 in Hall; eauto).
    rewrite lookup_pad, Hc.
    repeat case_decide; (done || lia).
  - destruct (decide (i < h + rows2 a + h)%nat); simpl.
    + rewrite lookup_replicate_lt. repeat case_decide; (done || lia).
    + repeat case_decide; (done || lia).
Qed.

Lemma get3_constant_pad a h w i j k :
  wf3 a →
  get3 (constant_pad3 a h w) i j k =
    if decide (h ≤ i < h + rows3 a ∧ w ≤ j < w + cols3 a)%nat
    then get3 a (i - h) (j - w) k
    else if decide (i < h + rows3 a + h ∧ j < w + cols3 a + w ∧ k < chans3 a)%nat
         then Some 0 else None.
Proof.
  intros [Hlen Hall]. unfold get3, constant_pad3. simpl.
  rewrite lookup_pad, length_fmap, Hlen.
  destruct (decide (i < h)%nat) as [Hi|Hi]; simpl.
  { rewrite lookup_replicate_lt.
    destruct (decide (j < w + cols3 a + w)%nat); simpl;
      [rewrite lookup_replicate_lt|]; repeat case_decide; (done || lia). }
  destruct (decide (i < h + rows3 a)%nat) as [Hi'|Hi']; simpl.
  - rewrite list_lookup_fmap.
    destruct (lookup_lt_is_Some_2 (data3 a) (i - h)%nat) as [r Hr]; [lia|].
    rewrite Hr. simpl.
    assert (length r = cols3 a) as Hc.
    { eapply Forall_lookup_1 in Hall; [|exact Hr]. by destruct Hall. }
    rewrite lookup_pad, Hc.
    destruct (decide (j < w)%nat); simpl;
      [rewrite lookup_replicate_lt; repeat case_decide; (done || lia)|].
    destruct (decide (j < w + cols3 a)%nat); simpl;
      [repeat case_decide; (done || lia)|].
    destruct (decide (j < w + cols3 a + w)%nat); simpl;
      [rewrite lookup_replicate_lt|]; repeat case_decide; (done || lia).
  - destruct (decide (i < h + rows3 a + h)%nat); simpl.
    + rewrite lookup_replicate_lt.
      destruct (decide (j < w + cols3 a + w)%nat); simpl;
        [rewrite lookup_replicate_lt|]; repeat case_decide; (done || lia).
    + repeat case_decide; (done || lia).
Qed.

Lemma pad_img_unfold img kernel :
  (0 < rows2 kernel)%nat → (0 < cols2 kernel)%nat →
  pad_img img kernel =
    Some (match img with
          | Img2 a => Img2 (constant_pad2 a ((rows2 kernel - 1) / 2)
                                            ((cols2 kernel - 1) / 2))
          | Img3 a => Img3 (constant_pad3 a ((rows2 kernel - 1) / 2)
                                            ((cols2 kernel - 1) / 2))
          end).
Proof.
  intros Hr Hc. unfold pad_img, np_pad2, np_pad3, pad_height, pad_width.
  rewrite !pad_amount by done.
  destruct img; (case_decide; [lia|]); simpl; by rewrite !Nat2Z.id.
Qed.

(** A kernel without rows or without columns makes the pad width
    [(0 - 1) // 2 = -1], which [np.pad] rejects. *)
Lemma pad_img_raises img kernel :
  (rows2 kernel = 0 ∨ cols2 kernel = 0)%nat → pad_img img kernel = None.
Proof.
  intros Hk. unfold pad_img, np_pad2, np_pad3, pad_height, pad_width.
  destruct img; rewrite decide_True; try done;
    destruct Hk as [-> | ->]; [by left | by right | by left | by right].
Qed.

(** C2. On a kernel with at least one row and one column, [pad_img] returns
    an image with the same number of axes and channels that has
    [(kernel height - 1) / 2] more rows above and below and
    [(kernel width - 1) / 2] more columns left and right (integer
    division); the added entries are zero and every entry of the input
    sits unchanged at its position shifted by the padding. *)
Theorem pad_img_spec (img : image) (kernel : ndarray2) :
  wf_image img → (0 < rows2 kernel)%nat → (0 < cols2 kernel)%nat →
  ∃ p ph pw,
    pad_img img kernel = Some p ∧
    pad_height kernel = Z.of_nat ph ∧ ph = ((rows2 kernel - 1) / 2)%nat ∧
    pad_width kernel = Z.of_nat pw ∧ pw = ((cols2 kernel - 1) / 2)%nat ∧
    wf_image p ∧ ndim p = ndim img ∧ img_chans p = img_chans img ∧
    img_rows p = (ph + img_rows img + ph)%nat ∧
    img_cols p = (pw + img_cols img + pw)%nat ∧
    ∀ i j k,
      img_at p i j k =
        if decide (ph ≤ i < ph + img_rows img ∧ pw ≤ j < pw + img_cols img)%nat
        then img_at img (i - ph) (j - pw) k
        else if decide ((i < img_rows p)%nat ∧ (j < img_cols p)%nat ∧ chan_in img k)
             then Some 0 else None.
Proof.
  intros Hwf Hr Hc.
  eexists _, ((rows2 kernel - 1) / 2)%nat, ((cols2 kernel - 1) / 2)%nat.
  split; [by apply pad_img_unfold|].
  split; [by apply pad_amount|]. split; [done|].
  split; [by apply pad_amount|]. split; [done|].
  destruct img as [a|a]; simpl in *.
  - split; [by apply wf2_constant_pad|]. do 4 (split; [done|]).
    intros i j k. destruct (decide (k = 0%nat)) as [->|Hk].
    + rewrite get2_constant_pad by done. repeat case_decide; (done || tauto).
    + repeat case_decide; (done || tauto).
  - split; [by apply wf3_constant_pad|]. do 4 (split; [done|]).
    intros i j k. rewrite get3_constant_pad by done.
    repeat case_decide; (done || tauto).
Qed.

Lemma pad_img_spec_witness :
  ∃ p, pad_img (Img2 {| rows2 := 1; cols2 := 2; data2 := [[7; 9]] |})
               (kernel3x3 [[0; 0; 0]; [0; 1; 0]; [0; 0; 0]]) = Some p ∧
       img_rows p = 3%nat ∧ img_cols p = 4%nat ∧
       img_at p 1 1 0 = Some 7 ∧ img_at p 1 2 0 = Some 9 ∧
       img_at p 0 1 0 = Some 0.
Proof.
  destruct (pad_img_spec
              (Img2 {| rows2 := 1; cols2 := 2; data2 := [[7; 9]] |})
              (kernel3x3 [[0; 0; 0]; [0; 1; 0]; [0; 0; 0]]))
    as (p & ph & pw & Hp & _ & -> & _ & -> & _ & _ & _ & Hrows & Hcols & Hat).
  - split; [reflexivity|]. repeat constructor.
  - simpl. lia.
  - simpl. lia.
  - exists p. split; [exact Hp|]. split; [exact Hrows|]. split; [exact Hcols|].
    rewrite !Hat, Hrows, Hcols. repeat split; reflexivity.
Defined.

(** ** 64-bit sums *)

Module Int64Facts.
Import Int64.

Lemma wrap64_small z : - 2 ^ 63 ≤ z < 2 ^ 63 → wrap64 z = z.
Proof. intros Hz. unfold wrap64. rewrite Z.mod_small; lia. Qed.

Lemma wrap64_range z : - 2 ^ 63 ≤ wrap64 z < 2 ^ 63.
Proof.
  unfold wrap64. pose proof (Z.mod_pos_bound (z + 2 ^ 63) (2 ^ 64)). lia.
Qed.

Lemma wrap64_add_l a b : wrap64 (wrap64 a + b) = wrap64 (a + b).
Proof.
  unfold wrap64. f_equal.
  replace ((a + 2 ^ 63) mod 2 ^ 64 - 2 ^ 63 + b + 2 ^ 63)
    with ((a + 2 ^ 63) mod 2 ^ 64 + b) by lia.
  rewrite Zplus_mod_idemp_l. f_equal. lia.
Qed.

Lemma wrap64_add_r a b : wrap64 (a + wrap64 b) = wrap64 (a + b).
Proof. rewrite (Z.add_comm a), wrap64_add_l. f_equal. lia. Qed.

Lemma foldr_add l : foldr add 0 l = wrap64 (Zsum l).
Proof.
  induction l as [|x l IH]; simpl; [done|].
  unfold add at 1. by rewrite IH, wrap64_add_r.
Qed.

Lemma wrap64_Zsum_ext {A} (f g : A → Z) (l : list A) :
  (∀ x, x ∈ l → wrap64 (f x) = wrap64 (g x)) →
  wrap64 (Zsum (f <$> l)) = wrap64 (Zsum (g <$> l)).
Proof.
  induction l as [|x l IH]; intros Hfg; csimpl; [done|].
  rewrite <- wrap64_add_l, <- wrap64_add_r.
  rewrite Hfg by left. rewrite IH by (intros y Hy; apply Hfg; by right).
  by rewrite wrap64_add_l, wrap64_add_r.
Qed.
End Int64Facts.

Lemma Zsum_app l1 l2 : Zsum (l1 ++ l2) = Zsum l1 + Zsum l2.
Proof. induction l1 as [|x l1 IH]; simpl; [done|]. rewrite IH. lia. Qed.

Lemma Zsum_concat (ls : list (list Z)) : Zsum (concat ls) = Zsum (Zsum <$> ls).
Proof.
  induction ls as [|l ls IH]; csimpl; [done|]. by rewrite Zsum_app, IH.
Qed.

(** ** The window of the convolution *)

Section Window.
Variables (img : ndarray3) (kernel : ndarray2).
Hypothesis Himg : wf3 img.
Hypothesis Hker : wf2 kernel.

Local Abbreviation kh := (rows2 kernel).
Local Abbreviation kw := (cols2 kernel).

Lemma window_rows i j k :
  (i + kh ≤ rows3 img)%nat → length (window img kh kw i j k) = kh.
Proof.
  intros Hi. destruct Himg as [Hlen _]. unfold window.
  rewrite length_fmap, length_take, length_drop. lia.
Qed.

Lemma window_row i j k a :
  (i + kh ≤ rows3 img)%nat → (a < kh)%nat →
  ∃ r, data3 img !! (i + a)%nat = Some r ∧ length r = cols3 img ∧
       window img kh kw i j k !! a
       = Some ((λ p : list Z, p !!! k) <$> take kw (drop j r)).
Proof.
  intros Hi Ha. destruct Himg as [Hlen Hall].
  destruct (lookup_lt_is_Some_2 (data3 img) (i + a)%nat) as [r Hr]; [lia|].
  exists r. split; [done|]. split.
  - eapply Forall_lookup_1 in Hall; [|exact Hr]. by destruct Hall.
  - unfold window.
    by rewrite list_lookup_fmap, lookup_take_lt, lookup_drop, Hr by lia.
Qed.

Lemma window_at i j k a b :
  (i + kh ≤ rows3 img)%nat → (j + kw ≤ cols3 img)%nat →
  (a < kh)%nat → (b < kw)%nat →
  (window img kh kw i j k !!! a) !!! b = at3 img (i + a) (j + b) k.
Proof.
  intros Hi Hj Ha Hb.
  destruct (window_row i j k a Hi Ha) as (r & Hr & Hc & Hw).
  destruct (lookup_lt_is_Some_2 r (j + b)%nat) as [p Hp]; [lia|].
  unfold at3.
  rewrite (list_lookup_total_correct _ _ _ Hw).
  rewrite (list_lookup_total_correct _ _ _ Hr).
  rewrite (list_lookup_total_correct _ _ _ Hp).
  apply list_lookup_total_correct.
  by rewrite list_lookup_fmap, lookup_take_lt, lookup_drop, Hp by lia.
Qed.

Lemma window_cols i j k a :
  (i + kh ≤ rows3 img)%nat → (j + kw ≤ cols3 img)%nat → (a < kh)%nat →
  length (window img kh kw i j k !!! a) = kw.
Proof.
  intros Hi Hj Ha.
  destruct (window_row i j k a Hi Ha) as (r & Hr & Hc & Hw).
  rewrite (list_lookup_total_correct _ _ _ Hw).
  rewrite length_fmap, length_take, length_drop. lia.
Qed.

(** The entry the innermost loop computes is the product-sum of the
    window, taken in 64-bit arithmetic. *)
Lemma conv_channel_sum i j k :
  (i + kh ≤ rows3 img)%nat → (j + kw ≤ cols3 img)%nat →
  conv_channel img kernel i j k
  = [Int64.wrap64 (product_sum img kernel i j k)].
Proof.
  intros Hi Hj. destruct Hker as [Hklen Hkall].
  unfold conv_channel, np_sum, np_multiply, product_sum. f_equal.
  rewrite Int64Facts.foldr_add, Zsum_concat.
  rewrite (zip_with_tabulate _ _ _ kh)
    by (by apply window_rows || done).
  rewrite <- list_fmap_compose.
  apply Int64Facts.wrap64_Zsum_ext. intros a [_ Ha]%elem_of_seq. simpl in Ha.
  unfold compose.
  assert (length (data2 kernel !!! a) = kw) as Hkc.
  { by eapply (Forall_lookup_total_1 _ _ a) in Hkall; [|lia]. }
  rewrite (zip_with_tabulate _ _ _ kw) by (by apply window_cols || done).
  transitivity
    (Int64.wrap64
       (Zsum ((λ b : nat, at3 img (i + a) (j + b) k * at2 kernel a b)
                <$> seq 0 kw))); [|done].
  rewrite (list_fmap_ext _
    (λ b : nat, Int64.wrap64 (at3 img (i + a) (j + b) k * at2 kernel a b))
    (seq 0 kw)).
  - clear. induction (seq 0 kw) as [|b l IH]; csimpl; [done|].
    rewrite Int64Facts.wrap64_add_l.
    rewrite <- Int64Facts.wrap64_add_r, IH, Int64Facts.wrap64_add_r. done.
  - intros n b [-> Hb]%lookup_seq. simpl.
    by rewrite window_at by lia.
Qed.
End Window.

(** ** The loops of [convolve2D] *)

Lemma np_concatenate_singletons {A B} (f : B → A) (ks : list B) :
  ks ≠ [] → np_concatenate ((λ x, [f x]) <$> ks) = Some (f <$> ks).
Proof.
  intros Hks. unfold np_concatenate. rewrite concat_singletons.
  by destruct ks.
Qed.

Lemma seq_nonempty (n : nat) : (0 < n)%nat → seq 0 n ≠ [].
Proof. destruct n; [lia | done]. Qed.

Lemma tabulate3_lookup {A} (f : nat → nat → nat → A) h w c i j k :
  (i < h)%nat → (j < w)%nat → (k < c)%nat →
  (r ← tabulate3 f h w c !! i; p ← r !! j; p !! k) = Some (f i j k).
Proof.
  intros Hi Hj Hk. unfold tabulate3.
  rewrite list_lookup_fmap, lookup_seq_lt by done. simpl.
  rewrite list_lookup_fmap, lookup_seq_lt by done. simpl.
  by rewrite list_lookup_fmap, lookup_seq_lt by done.
Qed.

Lemma tabulate3_fmap {A B} (g : A → B) (f : nat → nat → nat → A) h w c :
  (λ r : list (list A), (λ p : list A, g <$> p) <$> r) <$> tabulate3 f h w c
  = tabulate3 (λ i j k, g (f i j k)) h w c.
Proof.
  unfold tabulate3. rewrite <- list_fmap_compose.
  apply list_fmap_ext. intros _ i _. simpl.
  rewrite <- list_fmap_compose. apply list_fmap_ext. intros _ j _. simpl.
  by rewrite <- list_fmap_compose.
Qed.

Lemma wf3_tabulate (f : nat → nat → nat → Z) h w c :
  wf3 {| rows3 := h; cols3 := w; chans3 := c; data3 := tabulate3 f h w c |}.
Proof.
  split; simpl.
  - unfold tabulate3. by rewrite length_fmap, length_seq.
  - unfold tabulate3. apply Forall_fmap, Forall_forall. intros i _. simpl.
    rewrite length_fmap, length_seq. split; [done|].
    apply Forall_fmap, Forall_forall. intros j _. simpl.
    by rewrite length_fmap, length_seq.
Qed.

Section Loops.
Variables (img : ndarray3) (kernel : ndarray2).
Hypothesis Himg : wf3 img.
Hypothesis Hker : wf2 kernel.
Hypothesis Hchans : (0 < chans3 img)%nat.

Local Abbreviation sum :=
  (λ i j k : nat, Int64.wrap64 (product_sum img kernel i j k)).

Lemma conv_pixel_eq i j :
  (i + rows2 kernel ≤ rows3 img)%nat → (j + cols2 kernel ≤ cols3 img)%nat →
  conv_pixel img kernel i j = Some [sum i j <$> seq 0 (chans3 img)].
Proof.
  intros Hi Hj. unfold conv_pixel.
  rewrite (list_fmap_ext _ (λ k, [sum i j k]) (seq 0 (chans3 img)))
    by (intros; by apply conv_channel_sum).
  by rewrite np_concatenate_singletons by by apply seq_nonempty.
Qed.

Lemma conv_row_eq out_cols i :
  (0 < out_cols)%nat →
  (i + rows2 kernel ≤ rows3 img)%nat →
  (out_cols + cols2 kernel ≤ cols3 img + 1)%nat →
  conv_row img kernel out_cols i
  = Some [(λ j, sum i j <$> seq 0 (chans3 img)) <$> seq 0 out_cols].
Proof.
  intros Hoc Hi Hj. unfold conv_row.
  rewrite (mapM_total _ (λ j, [sum i j <$> seq 0 (chans3 img)])).
  - simpl. by rewrite np_concatenate_singletons by by apply seq_nonempty.
  - intros j [_ Hjlt]%elem_of_seq. apply conv_pixel_eq; [done | lia].
Qed.

Lemma conv_rows_eq out_rows out_cols :
  (0 < out_cols)%nat →
  (out_rows + rows2 kernel ≤ rows3 img + 1)%nat →
  (out_cols + cols2 kernel ≤ cols3 img + 1)%nat →
  mapM (λ i : nat, conv_row img kernel out_cols i) (seq 0 out_rows)
  = Some ((λ i, [(λ j, sum i j <$> seq 0 (chans3 img)) <$> seq 0 out_cols])
            <$> seq 0 out_rows).
Proof.
  intros Hoc Hi Hj. apply mapM_total.
  intros i [_ Hilt]%elem_of_seq. apply conv_row_eq; [done | lia | done].
Qed.
End Loops.

(** ** [convolve2D] *)

Lemma wf3_expand_dims a : wf2 a → wf3 (expand_dims a).
Proof.
  intros [Hlen Hall]. split; simpl.
  - by rewrite length_fmap.
  - apply Forall_fmap. eapply Forall_impl; [exact Hall|].
    intros r Hr. simpl in *. rewrite length_fmap. split; [done|].
    apply Forall_fmap, Forall_forall. done.
Qed.

Lemma wf3_to3d img : wf_image img → wf3 (to3d img).
Proof. destruct img; simpl; [apply wf3_expand_dims | done]. Qed.

Lemma chans3_to3d img : chan_in img 0 → (0 < chans3 (to3d img))%nat.
Proof. destruct img; simpl; lia. Qed.

Lemma out_extent_pos padded k :
  (0 < out_extent padded k)%nat → (out_extent padded k + k = padded + 1)%nat.
Proof. unfold out_extent. lia. Qed.

Lemma convolve2D_closed img kernel :
  wf_image img → wf2 kernel →
  (0 < rows2 kernel)%nat → (0 < cols2 kernel)%nat → chan_in img 0 →
  let padded := constant_pad3 (to3d img) ((rows2 kernel - 1) / 2)
                                          ((cols2 kernel - 1) / 2) in
  let oh := out_extent (rows3 padded) (rows2 kernel) in
  let ow := out_extent (cols3 padded) (cols2 kernel) in
  let res := {| rows3 := oh; cols3 := ow; chans3 := chans3 padded;
                data3 := tabulate3 (conv_value padded kernel)
                                   oh ow (chans3 padded) |} in
  (0 < oh)%nat → (0 < ow)%nat →
  convolve2D img kernel
  = Some (match img with Img2 _ => Img2 (channel0 res) | Img3 _ => Img3 res end).
Proof.
  intros Hwf Hker Hkh Hkw Hch padded oh ow res Hoh How.
  assert (wf3 padded) as Hp by by apply wf3_constant_pad, wf3_to3d.
  assert (0 < chans3 padded)%nat as Hc by by apply chans3_to3d.
  pose proof (out_extent_pos _ _ Hoh) as Hoh'.
  pose proof (out_extent_pos _ _ How) as How'.
  assert (pad_img (Img3 (to3d img)) kernel = Some (Img3 padded)) as Hpad
    by by apply pad_img_unfold.
  unfold convolve2D.
  replace (match img with Img2 a => Img3 (expand_dims a) | Img3 _ => img end)
    with (Img3 (to3d img)) by by destruct img.
  clearbody padded. subst res oh ow. rewrite Hpad. simpl.
  rewrite (conv_rows_eq padded kernel Hp Hker Hc) by (done || lia).
  simpl. rewrite np_concatenate_singletons by by apply seq_nonempty.
  simpl.
  pose proof (tabulate3_fmap clamp_cast
    (λ i j k, Int64.wrap64 (product_sum padded kernel i j k))
    (out_extent (rows3 padded) (rows2 kernel))
    (out_extent (cols3 padded) (cols2 kernel)) (chans3 padded)) as Htab.
  unfold tabulate3 in Htab at 1. rewrite Htab. by destruct img.
Qed.

Lemma get2_channel0 a i j v :
  get3 a i j 0 = Some v → get2 (channel0 a) i j = Some v.
Proof.
  unfold get3, get2, channel0. simpl. rewrite list_lookup_fmap.
  destruct (data3 a !! i) as [r|]; simpl; [|done].
  rewrite list_lookup_fmap.
  destruct (r !! j) as [p|]; simpl; [|done].
  intros Hp. f_equal. by apply list_lookup_total_correct.
Qed.

Lemma wf2_channel0 a : wf3 a → wf2 (channel0 a).
Proof.
  intros [Hlen Hall]. split; simpl.
  - by rewrite length_fmap.
  - apply Forall_fmap. eapply Forall_impl; [exact Hall|].
    intros r [Hr _]. simpl. by rewrite length_fmap.
Qed.

(** What [convolve2D] returns when the kernel fits into the padded image:
    the shape of the result and the value at each of its positions. *)
Lemma convolve2D_values img kernel :
  wf_image img → wf2 kernel →
  (0 < rows2 kernel)%nat → (0 < cols2 kernel)%nat → chan_in img 0 →
  (rows2 kernel ≤ img_rows img + 2 * ((rows2 kernel - 1) / 2))%nat →
  (cols2 kernel ≤ img_cols img + 2 * ((cols2 kernel - 1) / 2))%nat →
  ∃ padded res,
    pad_img (Img3 (to3d img)) kernel = Some (Img3 padded) ∧
    rows3 padded = (img_rows img + 2 * ((rows2 kernel - 1) / 2))%nat ∧
    cols3 padded = (img_cols img + 2 * ((cols2 kernel - 1) / 2))%nat ∧
    convolve2D img kernel = Some res ∧
    wf_image res ∧ ndim res = ndim img ∧ img_chans res = img_chans img ∧
    img_rows res = (rows3 padded + 1 - rows2 kernel)%nat ∧
    img_cols res = (cols3 padded + 1 - cols2 kernel)%nat ∧
    ∀ i j k, (i < img_rows res)%nat → (j < img_cols res)%nat → chan_in img k →
      img_at res i j k = Some (conv_value padded kernel i j k).
Proof.
  intros Hwf Hker Hkh Hkw Hch Hfh Hfw.
  set (padded := constant_pad3 (to3d img) ((rows2 kernel - 1) / 2)
                                           ((cols2 kernel - 1) / 2)).
  assert (rows3 padded = (img_rows img + 2 * ((rows2 kernel - 1) / 2))%nat)
    as Hrows by (destruct img; simpl; lia).
  assert (cols3 padded = (img_cols img + 2 * ((cols2 kernel - 1) / 2))%nat)
    as Hcols by (destruct img; simpl; lia).
  assert (out_extent (rows3 padded) (rows2 kernel)
          = (rows3 padded + 1 - rows2 kernel)%nat) as Hoh
    by (unfold out_extent; lia).
  assert (out_extent (cols3 padded) (cols2 kernel)
          = (cols3 padded + 1 - cols2 kernel)%nat) as How
    by (unfold out_extent; lia).
  pose proof (convolve2D_closed img kernel Hwf Hker Hkh Hkw Hch) as Hconv.
  cbv zeta in Hconv. fold padded in Hconv.
  rewrite Hoh, How in Hconv.
  eexists padded, _.
  split; [by apply pad_img_unfold|].
  split; [done|]. split; [done|].
  split; [apply Hconv; lia|].
  pose proof (wf3_tabulate (conv_value padded kernel)
                (rows3 padded + 1 - rows2 kernel)
                (cols3 padded + 1 - cols2 kernel) (chans3 padded)) as Hres.
  destruct img as [a|a]; simpl.
  - split; [by apply wf2_channel0|]. do 4 (split; [done|]).
    intros i j k Hi Hj ->. rewrite decide_True by done.
    apply get2_channel0. unfold get3. simpl.
    apply tabulate3_lookup; simpl; lia.
  - split; [done|]. do 4 (split; [done|]).
    intros i j k Hi Hj Hk. unfold get3. simpl.
    by apply tabulate3_lookup.
Qed.

(** ** When [convolve2D] raises *)

Lemma mapM_all_None {A B} (f : A → option B) (l : list A) :
  l ≠ [] → (∀ x, x ∈ l → f x = None) → mapM f l = None.
Proof.
  intros Hne Hf. apply mapM_None_2.
  destruct l as [|x l]; [done|]. left. apply Hf. left.
Qed.

(** Outside the hypotheses of [convolve2D_values] the call raises: a kernel
    without rows or columns in [np.pad], everything else in one of the
    three [np.concatenate]. *)
Lemma convolve2D_raises img kernel :
  ¬ ((0 < rows2 kernel)%nat ∧ (0 < cols2 kernel)%nat ∧ chan_in img 0 ∧
     (rows2 kernel ≤ img_rows img + 2 * ((rows2 kernel - 1) / 2))%nat ∧
     (cols2 kernel ≤ img_cols img + 2 * ((cols2 kernel - 1) / 2))%nat) →
  convolve2D img kernel = None.
Proof.
  intros Hnot. unfold convolve2D.
  replace (match img with Img2 a => Img3 (expand_dims a) | Img3 _ => img end)
    with (Img3 (to3d img)) by by destruct img.
  destruct (decide (0 < rows2 kernel ∧ 0 < cols2 kernel)%nat) as [[Hkh Hkw]|Hk].
  2: { unfold pad_img, np_pad3, pad_height, pad_width.
       rewrite decide_True; [done|].
       assert (rows2 kernel = 0 ∨ cols2 kernel = 0)%nat as [->| ->] by lia.
       - left. reflexivity.
       - right. reflexivity. }
  set (padded := constant_pad3 (to3d img) ((rows2 kernel - 1) / 2)
                                           ((cols2 kernel - 1) / 2)).
  assert (pad_img (Img3 (to3d img)) kernel = Some (Img3 padded)) as Hpad
    by by apply pad_img_unfold.
  assert (rows3 padded = (img_rows img + 2 * ((rows2 kernel - 1) / 2))%nat)
    as Hrows by (destruct img; simpl; lia).
  assert (cols3 padded = (img_cols img + 2 * ((cols2 kernel - 1) / 2))%nat)
    as Hcols by (destruct img; simpl; lia).
  assert (chans3 padded = chans3 (to3d img)) as Hchans by done.
  clearbody padded. rewrite Hpad. simpl.
  destruct (decide (0 < out_extent (rows3 padded) (rows2 kernel))%nat)
    as [Hor|Hor].
  2: { replace (out_extent (rows3 padded) (rows2 kernel)) with 0%nat by lia.
       done. }
  rewrite mapM_all_None; [done | by apply seq_nonempty |].
  intros i _. unfold conv_row.
  destruct (decide (0 < out_extent (cols3 padded) (cols2 kernel))%nat)
    as [Hoc|Hoc].
  2: { replace (out_extent (cols3 padded) (cols2 kernel)) with 0%nat by lia.
       done. }
  rewrite mapM_all_None; [done | by apply seq_nonempty |].
  intros j _. unfold conv_pixel.
  assert (chans3 padded = 0%nat) as ->; [|done].
  rewrite Hchans. unfold out_extent in Hor, Hoc.
  destruct img as [a|a]; simpl in *; lia.
Qed.



(** C9. With a kernel of odd height and odd width, [convolve2D] returns,
    for an image with at least one row, one column and one channel, an
    image with the number of axes, the height, the width and (for a 3-D
    image) the channel count of its input. *)
Theorem convolve2D_same_shape (img : image) (kernel : ndarray2) :
  wf_image img → wf2 kernel →
  Nat.odd (rows2 kernel) = true → Nat.odd (cols2 kernel) = true →
  (0 < img_rows img)%nat → (0 < img_cols img)%nat → chan_in img 0 →
  ∃ res,
    convolve2D img kernel = Some res ∧ wf_image res ∧
    ndim res = ndim img ∧
    img_rows res = img_rows img ∧ img_cols res = img_cols img ∧
    img_chans res = img_chans img.
Proof.
  intros Hwf Hker Hoh How Hr Hc Hch.
  apply Nat.odd_spec in Hoh as [m Hm]. apply Nat.odd_spec in How as [n Hn].
  assert ((rows2 kernel - 1) / 2 = m)%nat as Hph.
  { rewrite Hm. replace (2 * m + 1 - 1)%nat with (m * 2)%nat by lia.
    by apply Nat.div_mul. }
  assert ((cols2 kernel - 1) / 2 = n)%nat as Hpw.
  { rewrite Hn. replace (2 * n + 1 - 1)%nat with (n * 2)%nat by lia.
    by apply Nat.div_mul. }
  destruct (convolve2D_values img kernel)
    as (padded & res & _ & Hpr & Hpc & Hconv & Hwfr & Hnd & Hchs & Hrr & Hrc & _);
    try (done || lia).
  exists res. split_and!; try done; lia.
Qed.

Lemma convolve2D_same_shape_witness :
  ∃ res,
    convolve2D (Img3 {| rows3 := 1; cols3 := 2; chans3 := 3;
                        data3 := [[[1; 2; 3]; [4; 5; 6]]] |})
               (kernel3x3 [[0; 0; 0]; [0; 1; 0]; [0; 0; 0]]) = Some res ∧
    img_rows res = 1%nat ∧ img_cols res = 2%nat ∧ img_chans res = Some 3%nat.
Proof.
  destruct (convolve2D_same_shape
              (Img3 {| rows3 := 1; cols3 := 2; chans3 := 3;
                       data3 := [[[1; 2; 3]; [4; 5; 6]]] |})
              (kernel3x3 [[0; 0; 0]; [0; 1; 0]; [0; 0; 0]]))
    as (res & Hconv & _ & _ & Hr & Hc & Hch).
  - split; [reflexivity|]. repeat constructor.
  - split; [reflexivity|]. repeat constructor.
  - reflexivity.
  - reflexivity.
  - simpl. lia.
  - simpl. lia.
  - simpl. lia.
  - by exists res.
Defined.

Lemma clamp_cast_mod v : clamp_cast v = Z.max 0 v mod 256.
Proof.
  unfold clamp_cast, Int64.astype_uint8, np_maximum0. by rewrite Z.max_comm.
Qed.

(** C10. The cast to 8 bits in [convolve2D] reduces modulo 256 and does
    not saturate: the value stored at an output position is
    [max 0 s mod 256] for the int64 product-sum [s] of its window, and the
    Sharpen kernel of [get_kernels] on a one-pixel image of value 60 has the
    clamped product-sum 300, above 255, and the stored value 44. *)
Theorem uint8_cast_wraps :
  (∀ (img : image) (kernel : ndarray2),
     wf_image img → wf2 kernel →
     (0 < rows2 kernel)%nat → (0 < cols2 kernel)%nat → chan_in img 0 →
     (rows2 kernel ≤ img_rows img + 2 * ((rows2 kernel - 1) / 2))%nat →
     (cols2 kernel ≤ img_cols img + 2 * ((cols2 kernel - 1) / 2))%nat →
     ∃ padded res,
       pad_img (Img3 (to3d img)) kernel = Some (Img3 padded) ∧
       convolve2D img kernel = Some res ∧
       ∀ i j k, (i < img_rows res)%nat → (j < img_cols res)%nat →
         chan_in img k →
         ∃ v, img_at res i j k = Some v ∧ 0 ≤ v < 256 ∧
              v = Z.max 0 (Int64.wrap64 (product_sum padded kernel i j k))
                    mod 256) ∧
  (∃ (img : image) (kernel padded : ndarray2) (padded3 : ndarray3) (res : image),
     ("Sharpen"%string, kernel) ∈ get_kernels ∧
     pad_img img kernel = Some (Img2 padded) ∧
     pad_img (Img3 (to3d img)) kernel = Some (Img3 padded3) ∧
     convolve2D img kernel = Some res ∧
     Int64.wrap64 (product_sum padded3 kernel 0 0 0) = 300 ∧
     255 < Z.max 0 (Int64.wrap64 (product_sum padded3 kernel 0 0 0)) ∧
     img_at res 0 0 0 = Some 44 ∧ 44 ≠ 255).
Proof.
  split.
  - intros img kernel Hwf Hker Hkh Hkw Hch Hfh Hfw.
    destruct (convolve2D_values img kernel Hwf Hker Hkh Hkw Hch Hfh Hfw)
      as (padded & res & Hpad & _ & _ & Hconv & _ & _ & _ & _ & _ & Hval).
    exists padded, res. split; [done|]. split; [done|].
    intros i j k Hi Hj Hk. eexists. split; [by apply Hval|].
    unfold conv_value. rewrite clamp_cast_mod. split; [|done].
    apply Z.mod_pos_bound. lia.
  - exists (Img2 {| rows2 := 1; cols2 := 1; data2 := [[60]] |}).
    exists (kernel3x3 [[0; -1; 0]; [-1; 5; -1]; [0; -1; 0]]).
    exists (constant_pad2 {| rows2 := 1; cols2 := 1; data2 := [[60]] |} 1 1).
    exists (constant_pad3 (expand_dims {| rows2 := 1; cols2 := 1;
                                          data2 := [[60]] |}) 1 1).
    exists (Img2 {| rows2 := 1; cols2 := 1; data2 := [[44]] |}).
    split_and!.
    1: { unfold get_kernels. do 4 right. left. }
    all: try (vm_compute; reflexivity).
    all: lia.
Qed.

Lemma uint8_cast_wraps_witness :
  ∃ res v,
    convolve2D (Img2 {| rows2 := 1; cols2 := 1; data2 := [[60]] |})
               (kernel3x3 [[0; -1; 0]; [-1; 5; -1]; [0; -1; 0]]) = Some res ∧
    img_at res 0 0 0 = Some v ∧ 0 ≤ v < 256.
Proof.
  destruct (proj1 uint8_cast_wraps
              (Img2 {| rows2 := 1; cols2 := 1; data2 := [[60]] |})
              (kernel3x3 [[0; -1; 0]; [-1; 5; -1]; [0; -1; 0]]))
    as (padded & res & Hpad & Hconv & Hval).
  - split; [reflexivity|]. repeat constructor.
  - split; [reflexivity|]. repeat constructor.
  - simpl. lia.
  - simpl. lia.
  - reflexivity.
  - simpl. lia.
  - simpl. lia.
  - assert (img_rows res = 1%nat ∧ img_cols res = 1%nat) as [Hr Hc].
    { vm_compute in Hconv. injection Hconv as <-. by split. }
    destruct (Hval 0%nat 0%nat 0%nat) as (v & Hv & Hrange & _);
      [lia | lia | reflexivity|].
    by exists res, v.
Defined.

(** ** 8-bit images: the 64-bit sums do not wrap *)

Lemma Zsum_abs_le {A} (f g : A → Z) (l : list A) :
  (∀ x, x ∈ l → Z.abs (f x) ≤ g x) →
  Z.abs (Zsum (f <$> l)) ≤ Zsum (g <$> l).
Proof.
  induction l as [|x l IH]; intros Hfg; csimpl; [lia|].
  pose proof (Hfg x ltac:(left)) as Hx.
  pose proof (IH (λ y Hy, Hfg y ltac:(by right))) as Hl.
  lia.
Qed.

Lemma Zsum_scale {A} (c : Z) (g : A → Z) (l : list A) :
  Zsum ((λ x, c * g x) <$> l) = c * Zsum (g <$> l).
Proof. induction l as [|x l IH]; csimpl; [lia|]. rewrite IH. lia. Qed.

Lemma at3_uint8 a i j k : uint8_image a → 0 ≤ at3 a i j k ≤ 255.
Proof.
  intros Ha. unfold at3. rewrite !list_lookup_total_alt.
  destruct (data3 a !! i) as [r|] eqn:Hr; simpl; [|done].
  eapply Forall_lookup_1 in Ha; [|exact Hr].
  destruct (r !! j) as [p|] eqn:Hp; simpl; [|done].
  eapply Forall_lookup_1 in Ha; [|exact Hp].
  destruct (p !! k) as [v|] eqn:Hv; simpl; [|done].
  by eapply Forall_lookup_1 in Ha; [|exact Hv].
Qed.

Lemma uint8_expand_dims a :
  Forall (Forall (λ v, 0 ≤ v ≤ 255)) (data2 a) → uint8_image (expand_dims a).
Proof.
  intros Ha. unfold uint8_image. simpl. apply Forall_fmap.
  eapply Forall_impl; [exact Ha|]. intros r Hr. simpl.
  apply Forall_fmap. eapply Forall_impl; [exact Hr|]. intros v Hv. simpl.
  by apply Forall_singleton.
Qed.

Lemma uint8_constant_pad a h w :
  uint8_image a → uint8_image (constant_pad3 a h w).
Proof.
  intros Ha. unfold uint8_image, constant_pad3. simpl.
  assert (Forall (λ v, 0 ≤ v ≤ 255) (replicate (chans3 a) 0)) as Hz
    by (apply Forall_replicate; lia).
  rewrite !Forall_app, Forall_fmap. split_and!.
  - by do 2 apply Forall_replicate.
  - eapply Forall_impl; [exact Ha|]. intros r Hr. simpl.
    rewrite !Forall_app. split_and!; [|done|]; by apply Forall_replicate.
  - by do 2 apply Forall_replicate.
Qed.

Lemma product_sum_bound img kernel i j k :
  uint8_image img →
  Z.abs (product_sum img kernel i j k) ≤ 255 * kernel_weight kernel.
Proof.
  intros Himg. unfold product_sum, kernel_weight.
  rewrite <- Zsum_scale. apply Zsum_abs_le. intros a _.
  rewrite <- Zsum_scale. apply Zsum_abs_le. intros b _.
  pose proof (at3_uint8 img (i + a) (j + b) k Himg).
  rewrite Z.abs_mul. nia.
Qed.

(** On an 8-bit image and a kernel of moderate weight the output entry is
    the clamped product-sum over the integers, cast to 8 bits. *)
Lemma convolve2D_uint8 img kernel :
  wf_image img → wf2 kernel →
  (0 < rows2 kernel)%nat → (0 < cols2 kernel)%nat → chan_in img 0 →
  (rows2 kernel ≤ img_rows img + 2 * ((rows2 kernel - 1) / 2))%nat →
  (cols2 kernel ≤ img_cols img + 2 * ((cols2 kernel - 1) / 2))%nat →
  uint8_image (to3d img) → 255 * kernel_weight kernel < 2 ^ 63 →
  ∃ padded res,
    pad_img (Img3 (to3d img)) kernel = Some (Img3 padded) ∧
    convolve2D img kernel = Some res ∧
    ∀ i j k, (i < img_rows res)%nat → (j < img_cols res)%nat → chan_in img k →
      img_at res i j k = Some (Z.max 0 (product_sum padded kernel i j k) mod 256).
Proof.
  intros Hwf Hker Hkh Hkw Hch Hfh Hfw Hpx Hweight.
  destruct (convolve2D_values img kernel Hwf Hker Hkh Hkw Hch Hfh Hfw)
    as (padded & res & Hpad & _ & _ & Hconv & _ & _ & _ & _ & _ & Hval).
  exists padded, res. split; [done|]. split; [done|].
  intros i j k Hi Hj Hk. rewrite Hval by done. f_equal.
  unfold conv_value. rewrite clamp_cast_mod.
  rewrite Int64Facts.wrap64_small; [done|].
  assert (uint8_image padded) as Hpadded.
  { rewrite pad_img_unfold in Hpad by done. injection Hpad as <-.
    by apply uint8_constant_pad. }
  pose proof (product_sum_bound padded kernel i j k Hpadded). lia.
Qed.

(** ** One-hot encoding *)

Lemma np_max_spec (y : list Z) (m : Z) :
  np_max y = Some m → m ∈ y ∧ Forall (λ v, v ≤ m) y.
Proof.
  destruct y as [|v y]; simpl; [done|]. intros [= <-].
  induction y as [|w y IH]; simpl.
  - split; [left | by repeat constructor].
  - destruct IH as [Hin Hle].
    apply Forall_cons in Hle as [Hv Hle].
    destruct (Z.max_spec w (foldr Z.max v y)) as [[Hlt ->]|[Hge ->]].
    + split.
      * apply elem_of_cons in Hin as [Heq|Hin]; [rewrite Heq; left|].
        by do 2 right.
      * repeat constructor; [done | lia | done].
    + split; [right; left|].
      repeat constructor; [lia | lia |].
      eapply Forall_impl; [exact Hle|]. simpl. intros. lia.
Qed.

Lemma one_hot_row_sum (c s n : nat) :
  Zsum ((λ j : nat, if decide (c = j) then 1 else 0) <$> seq s n)
  = if decide (s ≤ c < s + n)%nat then 1 else 0.
Proof.
  revert s. induction n as [|n IH]; intros s; csimpl.
  - case_decide; [lia | done].
  - rewrite IH. repeat case_decide; lia.
Qed.

(** C4. For a non-empty vector [y] of non-negative labels with maximum [m],
    [one_hot] returns a matrix with one row per label and [m + 1] columns
    whose row [i] is 1 in column [y[i]] and 0 in every other column, so
    that the row sums to 1. *)
Theorem one_hot_spec (y : list Z) :
  y ≠ [] → Forall (λ v, 0 ≤ v) y →
  ∃ m M,
    np_max y = Some m ∧ m ∈ y ∧ Forall (λ v, v ≤ m) y ∧
    one_hot y = Some M ∧ length M = length y ∧
    ∀ i v, y !! i = Some v →
      ∃ row, M !! i = Some row ∧ length row = Z.to_nat (m + 1) ∧
        (∀ j, (j < Z.to_nat (m + 1))%nat →
              row !! j = Some (if decide (Z.of_nat j = v) then 1 else 0)) ∧
        Zsum row = 1.
Proof.
  intros Hne Hpos.
  destruct (np_max y) as [m|] eqn:Hmax; [|by destruct y].
  destruct (np_max_spec y m Hmax) as [Hin Hle].
  assert (0 ≤ m) as Hm by (by eapply Forall_forall in Hpos; [|exact Hin]).
  set (n := Z.to_nat (m + 1)).
  set (row := λ v : Z, (λ j : nat, if decide (Z.to_nat v = j) then 1 else 0)
                         <$> seq 0 n).
  assert (one_hot y = Some (row <$> y)) as Hhot.
  { unfold one_hot. rewrite Hmax. simpl. unfold np_eye.
    rewrite decide_False by lia. simpl. fold n.
    apply mapM_total. intros v Hv.
    assert (0 ≤ v ≤ m) as Hvm.
    { split; [eapply Forall_forall in Hpos | eapply Forall_forall in Hle];
        eauto. }
    rewrite length_fmap, length_seq. unfold np_index.
    rewrite decide_True by lia. simpl.
    rewrite list_lookup_fmap, lookup_seq_lt by lia. done. }
  exists m, (row <$> y). split_and!; try done.
  - by rewrite length_fmap.
  - intros i v Hv. exists (row v).
    assert (0 ≤ v ≤ m) as Hvm.
    { apply list_elem_of_lookup_2 in Hv.
      split; [eapply Forall_forall in Hpos | eapply Forall_forall in Hle];
        eauto. }
    split_and!.
    + by rewrite list_lookup_fmap, Hv.
    + unfold row. by rewrite length_fmap, length_seq.
    + intros j Hj. unfold row.
      rewrite list_lookup_fmap, lookup_seq_lt by done. simpl.
      repeat case_decide; (done || lia).
    + unfold row. rewrite one_hot_row_sum. rewrite decide_True; [done|lia].
Qed.

Lemma one_hot_spec_witness :
  ∃ M, one_hot [2; 0; 1] = Some M ∧ length M = 3%nat ∧
       ∃ row, M !! 0%nat = Some row ∧ length row = 3%nat ∧ Zsum row = 1.
Proof.
  destruct (one_hot_spec [2; 0; 1]) as (m & M & Hmax & _ & _ & Hhot & Hlen & Hrow).
  - discriminate.
  - repeat constructor; lia.
  - injection Hmax as <-.
    destruct (Hrow 0%nat 2 eq_refl) as (row & Hr & Hl & _ & Hs).
    exists M. split; [exact Hhot|]. split; [exact Hlen|]. by exists row.
Defined.

(** ** Train and test split *)

Lemma split_index_floor (n : nat) (val_split : Q) :
  (0 <= val_split)%Q → (val_split <= 1)%Q →
  let q := (inject_Z (Z.of_nat n) * (1 - val_split))%Q in
  int_of_Q q = Qfloor q ∧ 0 ≤ Qfloor q ≤ Z.of_nat n.
Proof.
  intros H0 H1 q.
  assert (0 <= inject_Z (Z.of_nat n))%Q as Hn.
  { change 0%Q with (inject_Z 0). rewrite <- Zle_Qle. lia. }
  assert (0 <= 1 - val_split)%Q as Hv.
  { by apply (proj1 (Qle_minus_iff val_split 1)). }
  assert (0 <= q)%Q as Hq by by apply Qmult_le_0_compat.
  assert (q <= inject_Z (Z.of_nat n))%Q as Hqn.
  { apply Qle_trans with ((1 - val_split) * inject_Z (Z.of_nat n))%Q.
    { unfold q. rewrite Qmult_comm. apply Qle_refl. }
    apply Qle_trans with (1 * inject_Z (Z.of_nat n))%Q.
    - apply Qmult_le_compat_r; [|done].
      apply Qle_minus_iff.
      setoid_replace (1 + - (1 - val_split))%Q with val_split
        using relation Qeq by ring.
      done.
    - rewrite Qmult_1_l. apply Qle_refl. }
  split.
  - unfold int_of_Q. apply Qle_bool_iff in Hq. fold q. by rewrite Hq.
  - split.
    + change 0 with (Qfloor 0). by apply Qfloor_resp_le.
    + rewrite <- (Qfloor_Z (Z.of_nat n)). by apply Qfloor_resp_le.
Qed.



(** ** Shuffling *)

Section TakeIndices.
Context {A : Type}.
Implicit Types (l : list A) (p : list nat).

Lemma mapM_omap {B} (f : B → option A) (ks : list B) l :
  mapM f ks = Some l → omap f ks = l.
Proof.
  intros H%mapM_Some_1. induction H as [|x a ks l Hx _ IH]; csimpl; [done|].
  by rewrite Hx, IH.
Qed.

Lemma omap_lookup_seq l1 l2 :
  omap (λ i : nat, (l1 ++ l2) !! i) (seq (length l1) (length l2)) = l2.
Proof.
  revert l1. induction l2 as [|x l2 IH]; intros l1; csimpl; [done|].
  rewrite list_lookup_middle by done. f_equal.
  specialize (IH (l1 ++ [x])).
  rewrite length_app, <- app_assoc in IH. simpl in IH.
  by rewrite Nat.add_1_r in IH.
Qed.

Lemma take_indices_Permutation l p l' :
  p ≡ₚ seq 0 (length l) → take_indices l p = Some l' → l' ≡ₚ l.
Proof.
  intros Hp Hl'. apply mapM_omap in Hl'. rewrite <- Hl', Hp.
  pose proof (omap_lookup_seq [] l) as Hseq. simpl in Hseq.
  by rewrite Hseq.
Qed.

Lemma take_indices_is_Some l p :
  p ≡ₚ seq 0 (length l) → is_Some (take_indices l p).
Proof.
  intros Hp. apply mapM_is_Some_2, Forall_forall. intros j Hj. simpl.
  apply lookup_lt_is_Some_2. rewrite Hp in Hj.
  apply elem_of_seq in Hj. lia.
Qed.

Lemma take_indices_lookup l p l' i j :
  take_indices l p = Some l' → p !! i = Some j → l' !! i = l !! j.
Proof.
  intros H%mapM_Some_1 Hj.
  destruct (Forall2_lookup_l _ _ _ _ _ H Hj) as (x & Hx & Hlx). congruence.
Qed.

Lemma take_indices_length l p l' :
  take_indices l p = Some l' → length l' = length p.
Proof. intros H%mapM_Some_1. symmetry. by eapply Forall2_length. Qed.
End TakeIndices.

Lemma take_indices_zip {A B} (X : list A) (y : list B) p X' y' :
  take_indices X p = Some X' → take_indices y p = Some y' →
  take_indices (zip X y) p = Some (zip X' y').
Proof.
  intros HX%mapM_Some_1 Hy%mapM_Some_1. apply mapM_Some_2.
  revert y' Hy.
  induction HX as [|j a p X' Ha _ IH]; intros y' Hy;
    inversion Hy as [|? b ? y'' Hb Hy'']; subst; simpl; constructor.
  - by apply lookup_zip_Some.
  - by apply IH.
Qed.

(** C6. When [np.random.shuffle] permutes the array it is given, [shuffle]
    applies one permutation [p] of the positions to [X] and to [y]: entry
    [i] of either result is entry [p[i]] of the input, the lengths stay and
    the results hold the example and label pairs of the input, each as
    often as the input does. *)
Theorem shuffle_spec {rng A B}
    (np_random_shuffle : rng → list nat → list nat * rng)
    (X : list A) (y : list B) (g : rng) :
  (∀ g l, (np_random_shuffle g l).1 ≡ₚ l) →
  length X = length y →
  ∃ X' y' g' p,
    np_random_shuffle g (seq 0 (length X)) = (p, g') ∧
    p ≡ₚ seq 0 (length X) ∧
    shuffle np_random_shuffle X y g = Some (X', y', g') ∧
    length X' = length X ∧ length y' = length y ∧
    (∀ i j, p !! i = Some j → X' !! i = X !! j ∧ y' !! i = y !! j) ∧
    zip X' y' ≡ₚ zip X y.
Proof.
  intros Hperm Hlen. unfold shuffle.
  specialize (Hperm g (seq 0 (length X))).
  destruct (np_random_shuffle g (seq 0 (length X))) as [p g'] eqn:Hrng.
  simpl in Hperm.
  destruct (take_indices_is_Some X p Hperm) as [X' HX'].
  destruct (take_indices_is_Some y p) as [y' Hy']; [by rewrite <- Hlen|].
  exists X', y', g', p. rewrite HX', Hy'. simpl.
  split_and!; try done.
  - rewrite (take_indices_length _ _ _ HX'), Hperm. by rewrite length_seq.
  - rewrite (take_indices_length _ _ _ Hy'), Hperm. by rewrite length_seq.
  - intros i j Hj. split; by eapply take_indices_lookup.
  - apply (take_indices_Permutation _ p).
    + rewrite length_zip, <- Hlen, Nat.min_id. done.
    + by apply take_indices_zip.
Qed.

Lemma shuffle_spec_witness :
  ∃ X' y' g',
    shuffle (λ (g : nat) (l : list nat), (reverse l, S g))
            ["a"; "b"; "c"]%string [1; 2; 3] 0%nat = Some (X', y', g') ∧
    zip X' y' ≡ₚ zip ["a"; "b"; "c"]%string [1; 2; 3].
Proof.
  destruct (shuffle_spec (λ (g : nat) (l : list nat), (reverse l, S g))
              ["a"; "b"; "c"]%string [1; 2; 3] 0%nat)
    as (X' & y' & g' & p & _ & _ & Hs & _ & _ & _ & Hzip).
  - intros g l. simpl. apply reverse_Permutation.
  - reflexivity.
  - by exists X', y', g'.
Defined.

(** ** Bag-of-words vectors *)

Lemma foldl_insert_lookup (idx : list nat) (row : list Z) (j : nat) :
  foldl (λ (r : list Z) (i : nat), <[i := 1]> r) row idx !! j
  = if decide (j ∈ idx ∧ (j < length row)%nat) then Some 1 else row !! j.
Proof.
  revert row. induction idx as [|i idx IH]; intros row.
  - destruct (decide _) as [[H%elem_of_nil _]|]; done.
  - simpl. rewrite IH, length_insert, list_lookup_insert.
    destruct (decide (j ∈ idx ∧ (j < length row)%nat)) as [[Hin Hlt]|Hn].
    + rewrite decide_True; [done|]. split; [by right | done].
    + destruct (decide (i = j ∧ (i < length row)%nat)) as [[-> Hlt]|Hn'].
      * rewrite decide_True; [done|]. split; [left | done].
      * rewrite decide_False; [done|]. intros [Hin Hlt].
        apply elem_of_cons in Hin as [->|Hin]; tauto.
Qed.

Lemma set_ones_zeros (dimension : nat) (s : list Z) :
  Forall (λ w, 0 ≤ w < Z.of_nat dimension) s →
  set_ones (replicate dimension 0) s = Some (bag_row dimension s).
Proof.
  intros Hs. unfold set_ones. rewrite length_replicate.
  rewrite (mapM_total _ Z.to_nat).
  2: { intros w Hw. eapply Forall_forall in Hs; [|exact Hw].
       unfold np_index. by rewrite decide_True. }
  simpl. f_equal. apply list_eq. intros j.
  rewrite foldl_insert_lookup, length_replicate, lookup_replicate_lt.
  unfold bag_row. rewrite list_lookup_fmap.
  destruct (decide (j < dimension)%nat) as [Hj|Hj].
  - rewrite lookup_seq_lt by done. simpl.
    destruct (decide (Z.of_nat j ∈ s)) as [Hin|Hin].
    + rewrite decide_True; [done|]. split; [|done].
      apply list_elem_of_fmap. exists (Z.of_nat j). split; [lia | done].
    + rewrite decide_False; [done|]. intros [Hin' _]. apply Hin.
      apply list_elem_of_fmap in Hin' as (w & -> & Hw).
      eapply Forall_forall in Hs; [|exact Hw].
      by rewrite Z2Nat.id by lia.
  - rewrite lookup_seq_ge by lia. rewrite decide_False by tauto. done.
Qed.

Lemma vectorize_loop (dimension : nat) (sequences : list (list Z))
    (filled : list (list Z)) :
  Forall (Forall (λ w, 0 ≤ w < Z.of_nat dimension)) sequences →
  for_enumerate
    (λ (results : list (list Z)) (i : nat) (sequence : list Z),
       row ← results !! i;
       row ← set_ones row sequence;
       Some (<[i := row]> results))
    (length filled) sequences
    (filled ++ replicate (length sequences) (replicate dimension 0))
  = Some (filled ++ (bag_row dimension <$> sequences)).
Proof.
  revert filled. induction sequences as [|s sequences IH]; intros filled Hall.
  - done.
  - apply Forall_cons in Hall as [Hs Hall]. csimpl.
    rewrite list_lookup_middle by done. simpl.
    rewrite set_ones_zeros by done. simpl.
    rewrite insert_app_r_alt, Nat.sub_diag by lia. simpl.
    specialize (IH (filled ++ [bag_row dimension s]) Hall).
    rewrite length_app, <- !app_assoc in IH. simpl in IH.
    by rewrite Nat.add_1_r in IH.
Qed.

(** C7. For sequences of word indices that lie in [0, dimension),
    [vectorize_sequences] returns a matrix with one row per sequence and
    [dimension] columns whose entry [(i, j)] is 1 when [j] occurs in
    sequence [i] and 0 otherwise. *)
Theorem vectorize_sequences_spec (sequences : list (list Z)) (dimension : nat) :
  Forall (Forall (λ w, 0 ≤ w < Z.of_nat dimension)) sequences →
  ∃ M,
    vectorize_sequences sequences dimension = Some M ∧
    length M = length sequences ∧
    ∀ i s, sequences !! i = Some s →
      ∃ row, M !! i = Some row ∧ length row = dimension ∧
        ∀ j, (j < dimension)%nat →
          row !! j = Some (if decide (Z.of_nat j ∈ s) then 1 else 0).
Proof.
  intros Hall. exists (bag_row dimension <$> sequences). split_and!.
  - apply (vectorize_loop dimension sequences [] Hall).
  - by rewrite length_fmap.
  - intros i s Hs. exists (bag_row dimension s). split_and!.
    + by rewrite list_lookup_fmap, Hs.
    + unfold bag_row. by rewrite length_fmap, length_seq.
    + intros j Hj. unfold bag_row.
      by rewrite list_lookup_fmap, lookup_seq_lt by done.
Qed.

Lemma vectorize_sequences_spec_witness :
  ∃ M, vectorize_sequences [[1; 3; 3]; [0]; []] 4 = Some M ∧
       M !! 0%nat = Some [0; 1; 0; 1].
Proof.
  destruct (vectorize_sequences_spec [[1; 3; 3]; [0]; []] 4)
    as (M & HM & _ & Hrow).
  - repeat constructor; lia.
  - exists M. split; [exact HM|].
    destruct (Hrow 0%nat [1; 3; 3] eq_refl) as (row & Hr & Hlen & Hj).
    rewrite Hr. f_equal. apply list_eq. intros j.
    destruct (decide (j < 4)%nat) as [Hlt|Hge].
    + rewrite Hj by done.
      do 4 (destruct j as [|j]; [reflexivity|]). lia.
    + rewrite !lookup_ge_None_2; [done | simpl; lia | lia].
Defined.

(** ** The dataset loader *)

Lemma for_enumerate_cons {St A} (body : St → nat → A → option St)
    start x l st :
  for_enumerate body start (x :: l) st
  = body st start x ≫= for_enumerate body (S start) l.
Proof. done. Qed.

Section LoaderFacts.
Context {picture ndimage : Type}.
Variable load : picture → list nat → ndimage.
Variable size : list nat.

Lemma load_pictures_loop (es : list (string * @node picture)) pics start imgs :
  mapM (λ e : string * node, image_open e.2) es = Some pics →
  for_enumerate
    (λ imgs (_ : nat) (img_name : string * node),
       img ← image_open img_name.2;
       Some (imgs ++ [load img size]))
    start es imgs
  = Some (imgs ++ ((λ p, load p size) <$> pics)).
Proof.
  intros H%mapM_Some_1. revert start imgs.
  induction H as [|e p es pics He _ IH]; intros start imgs; csimpl.
  - by rewrite app_nil_r.
  - rewrite He. csimpl. rewrite IH. by rewrite <- app_assoc.
Qed.

Lemma load_class_eq (c : string * @node picture) pics i imgs labels names :
  pictures_of c.2 = Some pics →
  load_class load size (imgs, labels, names) i c
  = Some (imgs ++ ((λ p, load p size) <$> pics),
          labels ++ [replicate (length pics) (Z.of_nat i)],
          names ++ [c.1]).
Proof.
  unfold pictures_of, load_class. intros Hp.
  destruct (listdir c.2) as [es|]; simpl in *; [|done].
  unfold for_each. rewrite (load_pictures_loop es pics) by done. simpl.
  apply mapM_Some_1, Forall2_length in Hp. rewrite Hp.
  by rewrite Z.mul_1_l.
Qed.

Lemma zip_class_block pics (i : nat) :
  zip ((λ p, load p size) <$> pics) (replicate (length pics) (Z.of_nat i))
  = (λ p : picture, (load p size, Z.of_nat i)) <$> pics.
Proof. induction pics as [|p pics IH]; csimpl; [done | by rewrite IH]. Qed.

Lemma load_classes_loop (classes : list (string * @node picture))
    start imgs labels names :
  Forall (λ c, is_Some (pictures_of c.2)) classes →
  ∃ I L,
    for_enumerate (load_class load size) start classes (imgs, labels, names)
    = Some (imgs ++ I, labels ++ L, names ++ classes.*1) ∧
    length L = length classes ∧
    length (concat L) = length I ∧
    zip I (concat L)
    = concat (imap (λ i c, class_examples load size (start + i) c) classes) ∧
    Forall (λ l, Z.of_nat start ≤ l < Z.of_nat (start + length classes))
           (concat L).
Proof.
  intros Hall. revert start imgs labels names.
  induction Hall as [|c classes [pics Hc] _ IH]; intros start imgs labels names.
  - exists [], []. simpl. rewrite !app_nil_r. by split_and!.
  - destruct (IH (S start) (imgs ++ ((λ p, load p size) <$> pics))
                 (labels ++ [replicate (length pics) (Z.of_nat start)])
                 (names ++ [c.1]))
      as (I & L & Hloop & HlenL & Hlen & Hzip & Hrange).
    exists (((λ p, load p size) <$> pics) ++ I),
           (replicate (length pics) (Z.of_nat start) :: L).
    split_and!.
    + rewrite for_enumerate_cons, (load_class_eq c pics) by done.
      simpl. rewrite Hloop. by rewrite <- !app_assoc.
    + simpl. by rewrite HlenL.
    + simpl. rewrite !length_app, length_replicate, length_fmap. lia.
    + simpl. rewrite zip_with_app
        by (by rewrite length_fmap, length_replicate).
      fold (zip I (concat L)). rewrite Hzip.
      unfold class_examples at 2. rewrite Hc. simpl.
      rewrite Nat.add_0_r.
      fold (zip ((λ p, load p size) <$> pics)
                (replicate (length pics) (Z.of_nat start))).
      rewrite zip_class_block. f_equal. f_equal.
      apply imap_ext. intros i x _. simpl. f_equal. lia.
    + simpl. apply Forall_app. split.
      * apply Forall_replicate. lia.
      * eapply Forall_impl; [exact Hrange|]. simpl. intros. lia.
Qed.

End LoaderFacts.


(** ** Framing a series *)

Lemma filter_all {A} (P : A → Prop) `{!∀ x, Decision (P x)} (l : list A) :
  Forall P l → filter P l = l.
Proof.
  induction 1 as [|x l Hx _ IH]; [done|].
  by rewrite filter_cons_True, IH.
Qed.

Section SeriesFacts.
Context {V : Type}.
Implicit Types (data : @series_input V).

Lemma input_shape data :
  wf_input data → input_rows data ≠ [] →
  width (DataFrame data) = input_cols data ∧
  index (DataFrame data) = seq 0 (length (input_rows data)) ∧
  Forall (λ r, length r = input_cols data) (input_rows data).
Proof.
  unfold input_rows. destruct data as [xs|a]; simpl.
  - intros _ Hne. split_and!.
    + rewrite decide_False; [done|]. by intros ->.
    + by rewrite length_fmap.
    + apply Forall_fmap, Forall_forall. done.
  - intros [Hlen Hall] _. split_and!; [done | by rewrite Hlen | done].
Qed.

Lemma shift_one (df : @frame V) :
  rows df ≠ [] →
  rows (shift df (Z.of_nat 1))
  = replicate (width df) None :: take (length (rows df) - 1) (rows df).
Proof.
  intros Hne. unfold shift. simpl.
  by destruct (rows df).
Qed.

Lemma shift_zero (df : @frame V) :
  rows (shift df (- Z.of_nat 0)) = rows df.
Proof. unfold shift. simpl. by rewrite Nat.sub_0_r, take_ge. Qed.

Lemma organize_series_eq data :
  wf_input data → input_rows data ≠ [] → (0 < input_cols data)%nat →
  Forall complete (input_rows data) →
  organize_series data 1 1 true
  = Some {| names := lag_names (input_cols data);
            body := {| width := input_cols data + input_cols data;
                       index := seq 1 (length (input_rows data) - 1);
                       rows := zip_with app
                                 (take (length (input_rows data) - 1)
                                       (input_rows data))
                                 (drop 1 (input_rows data)) |} |}.
Proof.
  intros Hwf Hne Hv Hcomplete.
  destruct (input_shape data Hwf Hne) as (Hwidth & Hindex & Hcols).
  unfold organize_series.
  change (reverse (seq 1 1)) with [1%nat]. change (seq 0 1) with [0%nat].
  cbn [foldl]. rewrite decide_True by done.
  cbn [pd_concat foldl app mbind option_bind].
  fold (input_cols data). fold (lag_names (input_cols data)).
  unfold set_columns. cbn [width shift].
  rewrite decide_True
    by (unfold lag_names;
        rewrite length_app, !length_fmap, !length_seq; lia).
  cbn [mbind option_bind]. f_equal. unfold dropna. cbn [names body width].
  f_equal. rewrite Hwidth.
  cbn [index rows]. rewrite shift_one, shift_zero by done.
  fold (input_rows data).
  change (index (shift (DataFrame data) (Z.of_nat 1)))
    with (index (DataFrame data)).
  rewrite Hwidth, Hindex.
  destruct (input_rows data) as [|r0 R] eqn:HR; [done|].
  apply Forall_cons in Hcomplete as [Hr0 HR'].
  apply Forall_cons in Hcols as [Hc0 Hcols].
  cbn [length seq zip zip_with drop].
  replace (S (length R) - 1)%nat with (length R) by lia.
  change (drop 0 R) with R.
  rewrite filter_cons_False.
  2: { intros Hno. apply Hno. cbn [snd]. apply Exists_app. left.
       destruct (input_cols data); [lia|]. by left. }
  rewrite filter_all.
  2: { apply Forall_forall. intros [t r] Hin%elem_of_zip_r.
       apply list_elem_of_lookup in Hin as [i Hi].
       apply lookup_zip_with_Some in Hi as (a & b & -> & Ha & Hb).
       intros Hex. apply Exists_app in Hex as [Hex|Hex];
         apply Exists_exists in Hex as (c & Hc & ->).
       - apply lookup_take_Some in Ha as [Ha _].
         apply list_elem_of_lookup_2 in Ha.
         assert (complete a) as Hca.
         { apply (proj1 (Forall_forall _ _) (Forall_cons_2 _ _ _ Hr0 HR') a Ha). }
         by apply (proj1 (Forall_forall _ _) Hca None Hc).
       - apply list_elem_of_lookup_2 in Hb.
         assert (complete b) as Hcb
           by apply (proj1 (Forall_forall _ _) HR' b Hb).
         by apply (proj1 (Forall_forall _ _) Hcb None Hc). }
  assert (length (zip_with app (take (length R) (r0 :: R)) R) = length R)
    as Hlen.
  { rewrite length_zip_with, length_take. simpl. lia. }
  rewrite fst_zip, snd_zip by (rewrite ?length_seq, Hlen; lia).
  done.
Qed.
End SeriesFacts.

(** C8. For a table with [n >= 1] rows and [v >= 1] columns without missing
    values, given as a 2-D array or (for [v = 1]) as a list,
    [organize_series data 1 1 True] returns a frame with [n - 1] rows and
    [2 v] columns named [var1(t-1)], ..., [varv(t-1)], [var1(t)], ...,
    [varv(t)]; its row labelled [t], for [1 <= t < n], holds the values of
    time [t - 1] followed by those of time [t], and no row with a missing
    value is left. *)
Theorem organize_series_spec {V : Type} (data : @series_input V) :
  wf_input data →
  (0 < length (input_rows data))%nat → (0 < input_cols data)%nat →
  Forall complete (input_rows data) →
  ∃ agg,
    organize_series data 1 1 true = Some agg ∧
    names agg = lag_names (input_cols data) ∧
    length (names agg) = (2 * input_cols data)%nat ∧
    width (body agg) = (2 * input_cols data)%nat ∧
    Forall (λ r, length r = (2 * input_cols data)%nat) (rows (body agg)) ∧
    (length (rows (body agg)) + 1 = length (input_rows data))%nat ∧
    index (body agg) = seq 1 (length (input_rows data) - 1) ∧
    (∀ t prev cur,
       input_rows data !! t = Some prev →
       input_rows data !! S t = Some cur →
       index (body agg) !! t = Some (S t) ∧
       rows (body agg) !! t = Some (prev ++ cur)) ∧
    Forall complete (rows (body agg)).
Proof.
  intros Hwf Hn Hv Hcomplete.
  assert (input_rows data ≠ []) as Hne.
  { intros Hnil. rewrite Hnil in Hn. simpl in Hn. lia. }
  destruct (input_shape data Hwf Hne) as (_ & _ & Hcols).
  eexists. split; [by apply organize_series_eq|]. simpl.
  set (R := input_rows data) in *. set (v := input_cols data) in *.
  assert (∀ i r, zip_with app (take (length R - 1) R) (drop 1 R) !! i = Some r →
            ∃ prev cur, R !! i = Some prev ∧ R !! S i = Some cur ∧
                        r = prev ++ cur) as Hrow.
  { intros i r Hi.
    apply lookup_zip_with_Some in Hi as (a & b & -> & Ha & Hb).
    apply lookup_take_Some in Ha as [Ha _]. rewrite lookup_drop in Hb.
    by exists a, b. }
  split_and!.
  - done.
  - unfold lag_names. rewrite length_app, !length_fmap, !length_seq. lia.
  - lia.
  - apply Forall_lookup. intros i r Hi.
    destruct (Hrow i r Hi) as (prev & cur & Hp & Hc & ->).
    rewrite length_app.
    rewrite (Forall_lookup_1 _ _ _ _ Hcols Hp).
    rewrite (Forall_lookup_1 _ _ _ _ Hcols Hc). lia.
  - rewrite length_zip_with, length_take, length_drop. lia.
  - done.
  - intros t prev cur Hp Hc. split.
    + apply lookup_seq. split; [lia|].
      apply lookup_lt_Some in Hc. lia.
    + rewrite lookup_zip_with, lookup_take_lt, lookup_drop, Hp.
      * simpl. by rewrite Hc.
      * apply lookup_lt_Some in Hc. lia.
  - apply Forall_lookup. intros i r Hi.
    destruct (Hrow i r Hi) as (prev & cur & Hp & Hc & ->).
    apply Forall_app. split.
    + apply (Forall_lookup_1 _ _ _ _ Hcomplete Hp).
    + apply (Forall_lookup_1 _ _ _ _ Hcomplete Hc).
Qed.

Lemma organize_series_spec_witness :
  organize_series
    (NdArray {| nrows := 3; ncols := 2;
                cells := [[Some 1; Some 2]; [Some 3; Some 4]; [Some 5; Some 6]] |})
    1 1 true
  = Some {| names := ["var1(t-1)"; "var2(t-1)"; "var1(t)"; "var2(t)"]%string;
            body := {| width := 4; index := [1; 2]%nat;
                       rows := [[Some 1; Some 2; Some 3; Some 4];
                                [Some 3; Some 4; Some 5; Some 6]] |} |}.
Proof.
  destruct (organize_series_spec
              (NdArray {| nrows := 3; ncols := 2;
                          cells := [[Some 1; Some 2]; [Some 3; Some 4];
                                    [Some 5; Some 6]] |}))
    as (agg & Hagg & _).
  - split; [reflexivity|]. repeat constructor.
  - simpl. lia.
  - simpl. lia.
  - repeat constructor; discriminate.
  - rewrite Hagg. vm_compute in Hagg. by injection Hagg as <-.
Defined.


(** ** Inputs outside the preconditions

    What the functions do on the inputs the statements above leave out. *)

(** [np.concatenate] gets no block when the image has no row. *)
Example convolve2D_empty_image :
  convolve2D (Img2 {| rows2 := 0; cols2 := 0; data2 := [] |})
             (kernel3x3 [[0; 0; 0]; [0; 1; 0]; [0; 0; 0]]) = None.
Proof. reflexivity. Qed.

(** A kernel of even height on an image of one row leaves no output row. *)
Example convolve2D_kernel_too_large :
  convolve2D (Img2 {| rows2 := 1; cols2 := 1; data2 := [[60]] |})
             {| rows2 := 2; cols2 := 2; data2 := [[1; 1]; [1; 1]] |} = None.
Proof. reflexivity. Qed.

(** A kernel of even size shrinks the image by one row and one column. *)
Example convolve2D_even_kernel :
  convolve2D (Img2 {| rows2 := 2; cols2 := 3; data2 := [[1; 2; 3]; [4; 5; 6]] |})
             {| rows2 := 2; cols2 := 2; data2 := [[1; 1]; [1; 1]] |}
  = Some (Img2 {| rows2 := 1; cols2 := 2; data2 := [[12; 16]] |}).
Proof. reflexivity. Qed.

(** A kernel without rows asks [np.pad] for a negative width. *)
Example pad_img_empty_kernel :
  pad_img (Img2 {| rows2 := 1; cols2 := 1; data2 := [[60]] |})
          {| rows2 := 0; cols2 := 0; data2 := [] |} = None.
Proof. reflexivity. Qed.

(** [np.max] raises on an empty label vector. *)
Example one_hot_empty : one_hot [] = None.
Proof. reflexivity. Qed.

(** [np.hstack] raises when the directory has no entry. *)
Example get_data_from_dir_empty :
  get_data_from_dir (λ (p : nat) (_ : list nat), p) (Directory []) [100%nat; 100%nat]
  = None.
Proof. reflexivity. Qed.

(** A negative index counts from the end of the row, an index equal to the
    dimension raises. *)
Example vectorize_sequences_negative :
  vectorize_sequences [[-1]] 4 = Some [[0; 0; 0; 1]].
Proof. reflexivity. Qed.

Example vectorize_sequences_out_of_range :
  vectorize_sequences [[4]] 4 = None.
Proof. reflexivity. Qed.

(** For [val_split] above 1 the bound is negative and counts from the end. *)
Example train_test_split_negative_index :
  train_test_split [1; 2; 3; 4] [5; 6; 7; 8] (3 # 2)
  = ([1; 2], [5; 6], [3; 4], [7; 8]).
Proof. reflexivity. Qed.

(** A row that holds NaN before the shift is dropped as well. *)
Example organize_series_nan_input :
  organize_series (PyList [Some 1; None; Some 3; Some 4]) 1 1 true
  = Some {| names := ["var1(t-1)"; "var1(t)"]%string;
            body := {| width := 2; index := [3%nat];
                       rows := [[Some 3; Some 4]] |} |}.
Proof. reflexivity. Qed.

(** An empty list makes a frame without columns, which the two names do
    not fit. *)
Example organize_series_empty_list :
  organize_series (V := Z) (PyList []) 1 1 true = None.
Proof. reflexivity. Qed.


(** * Further properties *)

(** ** When [convolve2D] returns *)

Lemma conv_pixel_defined img kernel i j :
  (0 < chans3 img)%nat → is_Some (conv_pixel img kernel i j).
Proof.
  intros Hc. unfold conv_pixel, conv_channel.
  rewrite np_concatenate_singletons by by apply seq_nonempty. by eexists.
Qed.

Lemma mapM_singletons_defined {A B} (f : A → option (list B)) (l : list A) :
  l ≠ [] → (∀ x, x ∈ l → ∃ y, f x = Some [y]) →
  ∃ ys, mapM f l = Some ((λ y, [y]) <$> ys) ∧ ys ≠ [].
Proof.
  intros Hne Hf.
  assert (∃ ys, mapM f l = Some ((λ y, [y]) <$> ys) ∧ length ys = length l)
    as (ys & Hys & Hlen).
  { clear Hne. induction l as [|x l IH].
    - by exists [].
    - destruct (Hf x) as [y Hy]; [left|].
      destruct IH as (ys & Hys & Hlen); [intros z Hz; apply Hf; by right|].
      exists (y :: ys). split; [|simpl; by rewrite Hlen].
      apply mapM_Some_2. constructor; [exact Hy | by apply mapM_Some_1]. }
  exists ys. split; [done|]. intros ->. by destruct l.
Qed.

Lemma conv_row_defined img kernel out_cols i :
  (0 < chans3 img)%nat → (0 < out_cols)%nat →
  ∃ r, conv_row img kernel out_cols i = Some [r].
Proof.
  intros Hc Hoc. unfold conv_row.
  destruct (mapM_singletons_defined
              (λ j : nat, conv_pixel img kernel i j) (seq 0 out_cols))
    as (ys & -> & Hys); [by apply seq_nonempty | |].
  - intros j _. unfold conv_pixel, conv_channel.
    rewrite np_concatenate_singletons by by apply seq_nonempty. by eexists.
  - simpl. unfold np_concatenate. rewrite concat_singletons, list_fmap_id.
    destruct ys; [done|]. by eexists.
Qed.

(** X1. [convolve2D] returns an image exactly when the kernel has a row and
    a column, the image has a channel, and the kernel is no taller and no
    wider than the padded image; on every other input it raises. *)
Theorem convolve2D_defined (img : image) (kernel : ndarray2) :
  is_Some (convolve2D img kernel) ↔
  (0 < rows2 kernel)%nat ∧ (0 < cols2 kernel)%nat ∧ chan_in img 0 ∧
  (rows2 kernel ≤ img_rows img + 2 * ((rows2 kernel - 1) / 2))%nat ∧
  (cols2 kernel ≤ img_cols img + 2 * ((cols2 kernel - 1) / 2))%nat.
Proof.
  split.
  - intros [res Hres].
    destruct (decide ((0 < rows2 kernel)%nat ∧ (0 < cols2 kernel)%nat ∧
                      chan_in img 0 ∧
                      (rows2 kernel
                       ≤ img_rows img + 2 * ((rows2 kernel - 1) / 2))%nat ∧
                      (cols2 kernel
                       ≤ img_cols img + 2 * ((cols2 kernel - 1) / 2))%nat))
      as [Hyes|Hno]; [done|].
    rewrite (convolve2D_raises img kernel Hno) in Hres. done.
  - intros (Hkh & Hkw & Hch & Hfh & Hfw). unfold convolve2D.
    replace (match img with Img2 a => Img3 (expand_dims a) | Img3 _ => img end)
      with (Img3 (to3d img)) by by destruct img.
    set (padded := constant_pad3 (to3d img) ((rows2 kernel - 1) / 2)
                                             ((cols2 kernel - 1) / 2)).
    assert (pad_img (Img3 (to3d img)) kernel = Some (Img3 padded)) as Hpad
      by by apply pad_img_unfold.
    assert (rows3 padded = (img_rows img + 2 * ((rows2 kernel - 1) / 2))%nat)
      as Hrows by (destruct img; simpl; lia).
    assert (cols3 padded = (img_cols img + 2 * ((cols2 kernel - 1) / 2))%nat)
      as Hcols by (destruct img; simpl; lia).
    assert (0 < chans3 padded)%nat as Hchans by by apply chans3_to3d.
    clearbody padded. rewrite Hpad. simpl.
    destruct (mapM_singletons_defined
                (λ i : nat, conv_row padded kernel
                              (out_extent (cols3 padded) (cols2 kernel)) i)
                (seq 0 (out_extent (rows3 padded) (rows2 kernel))))
      as (ys & -> & Hys).
    + apply seq_nonempty. unfold out_extent. lia.
    + intros i _. apply conv_row_defined; [done|]. unfold out_extent. lia.
    + simpl. unfold np_concatenate. rewrite concat_singletons, list_fmap_id.
      destruct ys; [done|]. simpl. by destruct img; eexists.
Qed.

(** ** Shape and range of the output *)

Lemma pad_compensation (k : nat) :
  (0 < k)%nat →
  (2 * ((k - 1) / 2) + 1 = if Nat.odd k then k else k - 1)%nat.
Proof.
  intros Hk. destruct (Nat.odd k) eqn:Hodd.
  - apply Nat.odd_spec in Hodd as [m ->].
    replace (2 * m + 1 - 1)%nat with (m * 2)%nat by lia.
    rewrite Nat.div_mul by done. lia.
  - assert (Nat.even k = true) as Heven
      by (rewrite <- Nat.negb_odd, Hodd; done).
    apply Nat.even_spec in Heven as [m ->].
    assert ((2 * m - 1) / 2 = m - 1)%nat as ->.
    { symmetry. apply (Nat.div_unique _ _ _ 1); lia. }
    lia.
Qed.

Lemma img_at_inrange img i j k v :
  wf_image img → img_at img i j k = Some v →
  (i < img_rows img)%nat ∧ (j < img_cols img)%nat ∧ chan_in img k.
Proof.
  destruct img as [a|a]; simpl; intros [Hlen Hall].
  - case_decide as Hk; [|done]. unfold get2.
    destruct (data2 a !! i) as [r|] eqn:Hr; simpl; [|done].
    intros Hv. split_and!; [|   |done].
    + apply lookup_lt_Some in Hr. lia.
    + apply lookup_lt_Some in Hv.
      eapply Forall_lookup_1 in Hall; [|exact Hr]. simpl in Hall. lia.
  - unfold get3.
    destruct (data3 a !! i) as [r|] eqn:Hr; simpl; [|done].
    destruct (r !! j) as [p|] eqn:Hp; simpl; [|done].
    intros Hv. eapply Forall_lookup_1 in Hall as [Hc Hall]; [|exact Hr].
    eapply Forall_lookup_1 in Hall; [|exact Hp]. simpl in Hall.
    split_and!.
    + apply lookup_lt_Some in Hr. lia.
    + apply lookup_lt_Some in Hp. lia.
    + apply lookup_lt_Some in Hv. lia.
Qed.

(** X2. Whenever [convolve2D] returns, the result is a rectangular array of
    8-bit values: every entry lies in [0, 255].  Its height is the height of
    the input for a kernel of odd height and one less for a kernel of even
    height, and likewise for the width. *)
Theorem convolve2D_shape_range (img : image) (kernel : ndarray2) :
  wf_image img → wf2 kernel →
  (0 < rows2 kernel)%nat → (0 < cols2 kernel)%nat → chan_in img 0 →
  (rows2 kernel ≤ img_rows img + 2 * ((rows2 kernel - 1) / 2))%nat →
  (cols2 kernel ≤ img_cols img + 2 * ((cols2 kernel - 1) / 2))%nat →
  ∃ res,
    convolve2D img kernel = Some res ∧ wf_image res ∧
    img_rows res
    = (if Nat.odd (rows2 kernel) then img_rows img else img_rows img - 1)%nat ∧
    img_cols res
    = (if Nat.odd (cols2 kernel) then img_cols img else img_cols img - 1)%nat ∧
    ∀ i j k v, img_at res i j k = Some v → 0 ≤ v ≤ 255.
Proof.
  intros Hwf Hker Hkh Hkw Hch Hfh Hfw.
  destruct (convolve2D_values img kernel Hwf Hker Hkh Hkw Hch Hfh Hfw)
    as (padded & res & _ & Hpr & Hpc & Hconv & Hwfr & Hnd & Hchs & Hr & Hc & Hval).
  exists res. split; [done|]. split; [done|].
  pose proof (pad_compensation (rows2 kernel) Hkh) as Hrk.
  pose proof (pad_compensation (cols2 kernel) Hkw) as Hck.
  split_and!.
  - rewrite Hr, Hpr. destruct (Nat.odd (rows2 kernel)); lia.
  - rewrite Hc, Hpc. destruct (Nat.odd (cols2 kernel)); lia.
  - intros i j k v Hv.
    destruct (img_at_inrange res i j k v Hwfr Hv) as (Hi & Hj & Hk).
    assert (chan_in img k) as Hk'.
    { destruct img, res; simpl in *; try done. by injection Hchs as <-. }
    rewrite Hval in Hv by done. injection Hv as <-.
    unfold conv_value. rewrite clamp_cast_mod.
    pose proof (Z.mod_pos_bound
                  (Z.max 0 (Int64.wrap64 (product_sum padded kernel i j k))) 256).
    lia.
Qed.

Lemma convolve2D_shape_range_witness :
  ∃ res,
    convolve2D (Img2 {| rows2 := 2; cols2 := 3;
                        data2 := [[100; 200; 250]; [90; 80; 70]] |})
               {| rows2 := 2; cols2 := 2; data2 := [[1; 1]; [1; 1]] |}
    = Some res ∧
    img_rows res = 1%nat ∧ img_cols res = 2%nat ∧
    ∀ i j k v, img_at res i j k = Some v → 0 ≤ v ≤ 255.
Proof.
  destruct (convolve2D_shape_range
              (Img2 {| rows2 := 2; cols2 := 3;
                       data2 := [[100; 200; 250]; [90; 80; 70]] |})
              {| rows2 := 2; cols2 := 2; data2 := [[1; 1]; [1; 1]] |})
    as (res & Hconv & _ & Hr & Hc & Hrange).
  - split; [reflexivity|]. repeat constructor.
  - split; [reflexivity|]. repeat constructor.
  - simpl. lia.
  - simpl. lia.
  - reflexivity.
  - simpl. lia.
  - simpl. lia.
  - by exists res.
Defined.

(** ** The Identity kernel *)

Lemma at3_get3 a i j k v : get3 a i j k = Some v → at3 a i j k = v.
Proof.
  unfold get3, at3.
  destruct (data3 a !! i) as [r|] eqn:Hr; simpl; [|done].
  destruct (r !! j) as [p|] eqn:Hp; simpl; [|done].
  intros Hv.
  rewrite (list_lookup_total_correct _ _ _ Hr).
  rewrite (list_lookup_total_correct _ _ _ Hp).
  by apply list_lookup_total_correct.
Qed.

Lemma get3_inrange a i j k :
  wf3 a → (i < rows3 a)%nat → (j < cols3 a)%nat → (k < chans3 a)%nat →
  get3 a i j k = Some (at3 a i j k).
Proof.
  intros [Hlen Hall] Hi Hj Hk. unfold get3.
  destruct (lookup_lt_is_Some_2 (data3 a) i) as [r Hr]; [lia|].
  eapply Forall_lookup_1 in Hall as [Hc Hall]; [|exact Hr].
  destruct (lookup_lt_is_Some_2 r j) as [p Hp]; [lia|].
  eapply Forall_lookup_1 in Hall; [|exact Hp]. simpl in Hall.
  destruct (lookup_lt_is_Some_2 p k) as [v Hv]; [lia|].
  assert (get3 a i j k = Some v) as Hget
    by (unfold get3; rewrite Hr; simpl; rewrite Hp; simpl; exact Hv).
  rewrite Hr. simpl. rewrite Hp. simpl. rewrite Hv.
  by rewrite (at3_get3 a i j k v Hget).
Qed.

Lemma tabulate3_at3 a :
  wf3 a → tabulate3 (at3 a) (rows3 a) (cols3 a) (chans3 a) = data3 a.
Proof.
  intros [Hlen Hall]. unfold tabulate3, at3.
  apply list_eq. intros i. rewrite list_lookup_fmap.
  destruct (decide (i < rows3 a)%nat) as [Hi|Hi].
  2: { rewrite lookup_seq_ge by lia. symmetry. apply lookup_ge_None_2. lia. }
  rewrite lookup_seq_lt by done. simpl.
  destruct (lookup_lt_is_Some_2 (data3 a) i) as [r Hr]; [lia|].
  rewrite Hr, (list_lookup_total_correct _ _ _ Hr). f_equal.
  eapply Forall_lookup_1 in Hall as [Hc Hall]; [|exact Hr].
  apply list_eq. intros j. rewrite list_lookup_fmap.
  destruct (decide (j < cols3 a)%nat) as [Hj|Hj].
  2: { rewrite lookup_seq_ge by lia. symmetry. apply lookup_ge_None_2. lia. }
  rewrite lookup_seq_lt by done. simpl.
  destruct (lookup_lt_is_Some_2 r j) as [p Hp]; [lia|].
  rewrite Hp, (list_lookup_total_correct _ _ _ Hp). f_equal.
  eapply Forall_lookup_1 in Hall; [|exact Hp]. simpl in Hall.
  apply list_eq. intros k. rewrite list_lookup_fmap.
  destruct (decide (k < chans3 a)%nat) as [Hk|Hk].
  2: { rewrite lookup_seq_ge by lia. symmetry. apply lookup_ge_None_2. lia. }
  rewrite lookup_seq_lt by done. simpl.
  destruct (lookup_lt_is_Some_2 p k) as [v Hv]; [lia|].
  by rewrite Hv, (list_lookup_total_correct _ _ _ Hv).
Qed.

Lemma tabulate3_ext {A} (f g : nat → nat → nat → A) h w c :
  (∀ i j k, (i < h)%nat → (j < w)%nat → (k < c)%nat → f i j k = g i j k) →
  tabulate3 f h w c = tabulate3 g h w c.
Proof.
  intros Hfg. unfold tabulate3.
  apply list_fmap_ext. intros ? i [-> Hi]%lookup_seq. simpl.
  apply list_fmap_ext. intros ? j [-> Hj]%lookup_seq. simpl.
  apply list_fmap_ext. intros ? k [-> Hk]%lookup_seq. simpl.
  by apply Hfg.
Qed.

Lemma channel0_expand_dims a : channel0 (expand_dims a) = a.
Proof.
  destruct a as [r c d]. unfold channel0, expand_dims. simpl. f_equal.
  rewrite <- list_fmap_compose. rewrite <- (list_fmap_id d) at 2.
  apply list_fmap_ext. intros _ row _. simpl.
  rewrite <- list_fmap_compose. rewrite <- (list_fmap_id row) at 2.
  by apply list_fmap_ext.
Qed.

Lemma at3_padded_interior a h w i j k :
  wf3 a → (i < rows3 a)%nat → (j < cols3 a)%nat → (k < chans3 a)%nat →
  at3 (constant_pad3 a h w) (h + i) (w + j) k = at3 a i j k.
Proof.
  intros Hwf Hi Hj Hk. apply at3_get3.
  rewrite get3_constant_pad by done.
  rewrite decide_True by lia.
  replace (h + i - h)%nat with i by lia.
  replace (w + j - w)%nat with j by lia.
  by apply get3_inrange.
Qed.

(** X3. The Identity kernel of [get_kernels] gives every 8-bit image with at
    least one pixel back unchanged. *)
Theorem convolve2D_identity (img : image) :
  wf_image img → uint8_image (to3d img) →
  (0 < img_rows img)%nat → (0 < img_cols img)%nat → chan_in img 0 →
  ("Identity"%string, identity_kernel) ∈ get_kernels ∧
  convolve2D img identity_kernel = Some img.
Proof.
  intros Hwf Hpx Hr Hc Hch. split; [left|].
  assert (wf2 identity_kernel) as Hker
    by (split; [reflexivity | repeat constructor]).
  pose proof (wf3_to3d img Hwf) as Hwf3.
  pose proof (chans3_to3d img Hch) as Hchans.
  assert (rows3 (to3d img) = img_rows img) as Hrows by by destruct img.
  assert (cols3 (to3d img) = img_cols img) as Hcols by by destruct img.
  pose proof (convolve2D_closed img identity_kernel Hwf Hker) as Hconv.
  cbv zeta in Hconv.
  change ((rows2 identity_kernel - 1) / 2)%nat with 1%nat in Hconv.
  change ((cols2 identity_kernel - 1) / 2)%nat with 1%nat in Hconv.
  change (rows2 identity_kernel) with 3%nat in Hconv.
  change (cols2 identity_kernel) with 3%nat in Hconv.
  set (padded := constant_pad3 (to3d img) 1 1) in *.
  assert (out_extent (rows3 padded) 3 = rows3 (to3d img)) as Hoh
    by (unfold out_extent; simpl; lia).
  assert (out_extent (cols3 padded) 3 = cols3 (to3d img)) as How
    by (unfold out_extent; simpl; lia).
  rewrite Hoh, How in Hconv.
  change (chans3 padded) with (chans3 (to3d img)) in Hconv.
  rewrite Hconv by (lia || done).
  rewrite (tabulate3_ext (conv_value padded identity_kernel) (at3 (to3d img))).
  - rewrite tabulate3_at3 by done. f_equal.
    destruct img as [a|a]; simpl.
    + f_equal. apply (channel0_expand_dims a).
    + by destruct a.
  - intros i j k Hi Hj Hk. unfold conv_value.
    assert (product_sum padded identity_kernel i j k = at3 (to3d img) i j k)
      as ->.
    { unfold product_sum, identity_kernel, kernel3x3, at2. simpl.
      rewrite <- (at3_padded_interior (to3d img) 1 1 i j k) by done.
      fold padded.
      replace (1 + i)%nat with (i + 1)%nat by lia.
      replace (1 + j)%nat with (j + 1)%nat by lia. lia. }
    pose proof (at3_uint8 (to3d img) i j k Hpx) as Hv.
    rewrite Int64Facts.wrap64_small by lia.
    rewrite clamp_cast_mod, Z.max_r, Z.mod_small by lia. done.
Qed.

Lemma convolve2D_identity_witness :
  convolve2D (Img3 {| rows3 := 1; cols3 := 2; chans3 := 3;
                      data3 := [[[255; 0; 7]; [4; 5; 6]]] |})
             identity_kernel
  = Some (Img3 {| rows3 := 1; cols3 := 2; chans3 := 3;
                  data3 := [[[255; 0; 7]; [4; 5; 6]]] |}).
Proof.
  apply (convolve2D_identity
           (Img3 {| rows3 := 1; cols3 := 2; chans3 := 3;
                    data3 := [[[255; 0; 7]; [4; 5; 6]]] |})).
  - split; [reflexivity|]. repeat constructor.
  - repeat constructor; lia.
  - simpl. lia.
  - simpl. lia.
  - simpl. lia.
Defined.

(** ** Channels are convolved one by one *)

Lemma channel_of_tabulate3 (f : nat → nat → nat → Z) h w n c :
  (c < n)%nat →
  (λ r : list (list Z), (λ p : list Z, p !!! c) <$> r) <$> tabulate3 f h w n
  = (λ i : nat, (λ j : nat, f i j c) <$> seq 0 w) <$> seq 0 h.
Proof.
  intros Hc. unfold tabulate3. rewrite <- list_fmap_compose.
  apply list_fmap_ext. intros _ i _. simpl.
  rewrite <- list_fmap_compose.
  apply list_fmap_ext. intros _ j _. simpl.
  apply list_lookup_total_correct.
  by rewrite list_lookup_fmap, lookup_seq_lt by done.
Qed.

Lemma wf3_gray_channel a c : wf3 a → wf3 (expand_dims (take_channel c a)).
Proof.
  intros [Hlen Hall]. apply wf3_expand_dims. split; simpl.
  - by rewrite length_fmap.
  - apply Forall_fmap. eapply Forall_impl; [exact Hall|].
    intros r [Hr _]. simpl. by rewrite length_fmap.
Qed.

Lemma get3_gray_channel a c i j :
  wf3 a → (i < rows3 a)%nat → (j < cols3 a)%nat → (c < chans3 a)%nat →
  get3 (expand_dims (take_channel c a)) i j 0 = Some (at3 a i j c).
Proof.
  intros [Hlen Hall] Hi Hj Hc. unfold get3, expand_dims, take_channel, at3.
  simpl.
  destruct (lookup_lt_is_Some_2 (data3 a) i) as [r Hr]; [lia|].
  eapply Forall_lookup_1 in Hall as [Hcols _]; [|exact Hr].
  destruct (lookup_lt_is_Some_2 r j) as [p Hp]; [lia|].
  rewrite !list_lookup_fmap, Hr. simpl.
  rewrite !list_lookup_fmap, Hp. simpl.
  rewrite (list_lookup_total_correct _ _ _ Hr).
  by rewrite (list_lookup_total_correct _ _ _ Hp).
Qed.

Lemma at3_padded_gray_channel a c h w i j :
  wf3 a → (c < chans3 a)%nat →
  (i < h + rows3 a + h)%nat → (j < w + cols3 a + w)%nat →
  at3 (constant_pad3 (expand_dims (take_channel c a)) h w) i j 0
  = at3 (constant_pad3 a h w) i j c.
Proof.
  intros Hwf Hc Hi Hj.
  apply at3_get3. rewrite get3_constant_pad by by apply wf3_gray_channel.
  simpl.
  pose proof (get3_constant_pad a h w i j c Hwf) as Hpad.
  destruct (decide (h ≤ i < h + rows3 a ∧ w ≤ j < w + cols3 a)%nat)
    as [Hin|Hout].
  - rewrite get3_gray_channel by (done || lia). f_equal. symmetry.
    apply at3_get3. rewrite Hpad. by apply get3_inrange; (done || lia).
  - rewrite decide_True by lia. f_equal. symmetry.
    apply at3_get3. rewrite Hpad. by rewrite decide_True by lia.
Qed.

Lemma product_sum_ext img1 img2 kernel i j k1 k2 :
  (∀ a b, (a < rows2 kernel)%nat → (b < cols2 kernel)%nat →
          at3 img1 (i + a) (j + b) k1 = at3 img2 (i + a) (j + b) k2) →
  product_sum img1 kernel i j k1 = product_sum img2 kernel i j k2.
Proof.
  intros Hat. unfold product_sum. f_equal.
  apply list_fmap_ext. intros ? a [-> Ha]%lookup_seq. simpl. f_equal.
  apply list_fmap_ext. intros ? b [-> Hb]%lookup_seq. simpl.
  by rewrite Hat.
Qed.

(** X4. Convolving a colour image and then taking channel [c] of the result
    is the same as convolving the grayscale image made of channel [c]: no
    channel influences another. *)
Theorem convolve2D_per_channel (a : ndarray3) (kernel : ndarray2) (c : nat) :
  wf3 a → wf2 kernel → (c < chans3 a)%nat →
  (0 < rows2 kernel)%nat → (0 < cols2 kernel)%nat →
  (rows2 kernel ≤ rows3 a + 2 * ((rows2 kernel - 1) / 2))%nat →
  (cols2 kernel ≤ cols3 a + 2 * ((cols2 kernel - 1) / 2))%nat →
  ∃ res,
    convolve2D (Img3 a) kernel = Some (Img3 res) ∧
    convolve2D (Img2 (take_channel c a)) kernel
    = Some (Img2 (take_channel c res)).
Proof.
  intros Hwf Hker Hc Hkh Hkw Hfh Hfw.
  set (ph := ((rows2 kernel - 1) / 2)%nat) in *.
  set (pw := ((cols2 kernel - 1) / 2)%nat) in *.
  pose proof (convolve2D_closed (Img3 a) kernel Hwf Hker Hkh Hkw) as Hcol.
  assert (wf2 (take_channel c a)) as Hwfc.
  { destruct Hwf as [Hlen Hall]. split; simpl; [by rewrite length_fmap|].
    apply Forall_fmap. eapply Forall_impl; [exact Hall|].
    intros r [Hr _]. simpl. by rewrite length_fmap. }
  pose proof (convolve2D_closed (Img2 (take_channel c a)) kernel
                Hwfc Hker Hkh Hkw eq_refl) as Hgray.
  cbv zeta in Hcol, Hgray. fold ph pw in Hcol, Hgray.
  change (to3d (Img3 a)) with a in Hcol.
  change (to3d (Img2 (take_channel c a)))
    with (expand_dims (take_channel c a)) in Hgray.
  set (padded := constant_pad3 a ph pw) in *.
  set (padded_c := constant_pad3 (expand_dims (take_channel c a)) ph pw) in *.
  change (rows3 padded_c) with (rows3 padded) in Hgray.
  change (cols3 padded_c) with (cols3 padded) in Hgray.
  change (chans3 padded_c) with 1%nat in Hgray.
  change (chans3 padded) with (chans3 a) in Hcol.
  assert (rows3 padded = (ph + rows3 a + ph)%nat) as Hrows by done.
  assert (cols3 padded = (pw + cols3 a + pw)%nat) as Hcols by done.
  set (oh := out_extent (rows3 padded) (rows2 kernel)) in *.
  set (ow := out_extent (cols3 padded) (cols2 kernel)) in *.
  assert (0 < oh)%nat as Hoh by (unfold oh, out_extent; lia).
  assert (0 < ow)%nat as How by (unfold ow, out_extent; lia).
  assert (oh + rows2 kernel = rows3 padded + 1)%nat as Hoh'
    by (unfold oh, out_extent; lia).
  assert (ow + cols2 kernel = cols3 padded + 1)%nat as How'
    by (unfold ow, out_extent; lia).
  eexists. split; [apply Hcol; (simpl; lia) || done|].
  rewrite Hgray by done.
  do 2 f_equal. unfold channel0, take_channel. simpl. f_equal.
  rewrite (channel_of_tabulate3 _ oh ow 1 0) by lia.
  rewrite (channel_of_tabulate3 _ oh ow (chans3 a) c) by done.
  apply list_fmap_ext. intros ? i [-> Hi]%lookup_seq. simpl.
  apply list_fmap_ext. intros ? j [-> Hj]%lookup_seq. simpl.
  unfold conv_value. do 2 f_equal.
  apply product_sum_ext. intros a' b' Ha' Hb'.
  apply at3_padded_gray_channel; (done || lia).
Qed.

Lemma convolve2D_per_channel_witness :
  ∃ res,
    convolve2D (Img3 {| rows3 := 1; cols3 := 2; chans3 := 2;
                        data3 := [[[10; 1]; [20; 2]]] |})
               (kernel3x3 [[0; -1; 0]; [-1; 5; -1]; [0; -1; 0]])
    = Some (Img3 res) ∧
    convolve2D (Img2 {| rows2 := 1; cols2 := 2; data2 := [[1; 2]] |})
               (kernel3x3 [[0; -1; 0]; [-1; 5; -1]; [0; -1; 0]])
    = Some (Img2 (take_channel 1 res)).
Proof.
  apply (convolve2D_per_channel
           {| rows3 := 1; cols3 := 2; chans3 := 2;
              data3 := [[[10; 1]; [20; 2]]] |}
           (kernel3x3 [[0; -1; 0]; [-1; 5; -1]; [0; -1; 0]]) 1).
  - split; [reflexivity|]. repeat constructor.
  - split; [reflexivity|]. repeat constructor.
  - simpl. lia.
  - simpl. lia.
  - simpl. lia.
  - simpl. lia.
  - simpl. lia.
Defined.

(** ** When [pad_img] raises and when it changes nothing *)

(** X5. [pad_img] raises exactly when the kernel has no row or no column;
    for every other kernel it returns a padded image, whatever the
    image. *)
Theorem pad_img_defined (img : image) (kernel : ndarray2) :
  pad_img img kernel = None ↔ (rows2 kernel = 0 ∨ cols2 kernel = 0)%nat.
Proof.
  split.
  - intros Hnone.
    destruct (decide (0 < rows2 kernel ∧ 0 < cols2 kernel)%nat) as [[Hr Hc]|Hk];
      [|lia].
    by rewrite pad_img_unfold in Hnone by done.
  - apply pad_img_raises.
Qed.

Lemma constant_pad2_zero a : constant_pad2 a 0 0 = a.
Proof.
  destruct a as [r c d]. unfold constant_pad2. simpl.
  rewrite Nat.add_0_r, Nat.add_0_r, app_nil_r. f_equal.
  rewrite <- (list_fmap_id d) at 2. apply list_fmap_ext.
  intros _ row _. simpl. by rewrite app_nil_r.
Qed.

Lemma constant_pad3_zero a : constant_pad3 a 0 0 = a.
Proof.
  destruct a as [r c n d]. unfold constant_pad3. simpl.
  rewrite Nat.add_0_r, Nat.add_0_r, app_nil_r. f_equal.
  rewrite <- (list_fmap_id d) at 2. apply list_fmap_ext.
  intros _ row _. simpl. by rewrite app_nil_r.
Qed.

Lemma pad_amount_zero (k : nat) : ((k - 1) / 2 = 0 ↔ k ≤ 2)%nat.
Proof.
  split.
  - intros Hk. apply Nat.div_small_iff in Hk; lia.
  - intros Hk. apply Nat.div_small. lia.
Qed.

(** X6. [pad_img] returns the image as it is exactly for the kernels whose
    height and width are 1 or 2: these get no padding. *)
Theorem pad_img_unchanged (img : image) (kernel : ndarray2) :
  pad_img img kernel = Some img ↔
  (1 ≤ rows2 kernel ≤ 2)%nat ∧ (1 ≤ cols2 kernel ≤ 2)%nat.
Proof.
  split.
  - intros Hpad.
    destruct (decide (0 < rows2 kernel ∧ 0 < cols2 kernel)%nat) as [[Hr Hc]|Hk].
    2: { rewrite pad_img_raises in Hpad by lia. done. }
    rewrite pad_img_unfold in Hpad by done.
    assert (((rows2 kernel - 1) / 2 = 0 ∧ (cols2 kernel - 1) / 2 = 0)%nat)
      as [Hh Hw].
    { destruct img as [a|a]; injection Hpad as Hpad;
        [apply (f_equal rows2) in Hpad as Hrows;
         apply (f_equal cols2) in Hpad as Hcols
        |apply (f_equal rows3) in Hpad as Hrows;
         apply (f_equal cols3) in Hpad as Hcols]; simpl in *; lia. }
    apply pad_amount_zero in Hh. apply pad_amount_zero in Hw. lia.
  - intros [Hr Hc]. rewrite pad_img_unfold by lia.
    assert ((rows2 kernel - 1) / 2 = 0)%nat as -> by (apply pad_amount_zero; lia).
    assert ((cols2 kernel - 1) / 2 = 0)%nat as -> by (apply pad_amount_zero; lia).
    destruct img; by rewrite ?constant_pad2_zero, ?constant_pad3_zero.
Qed.

(** ** The panels of [plot_with_kernels] *)

Lemma convolve2D_ndim img kernel res :
  convolve2D img kernel = Some res → ndim res = ndim img.
Proof.
  unfold convolve2D.
  destruct (pad_img _ kernel) as [[p|p]|]; simpl; [done| |done].
  destruct (mapM _ _) as [rows|]; simpl; [|done].
  destruct (np_concatenate rows) as [d|]; simpl; [|done].
  destruct img; simpl; by intros [= <-].
Qed.

Lemma plot_kernel_panels_eq n img calls i kernel :
  (i < n)%nat →
  plot_kernel_panels n img calls i kernel
  = res ← convolve2D img kernel.2;
    Some (calls ++ [PltSubplot n 3 (i * 3 + 1); PltText kernel.1; PltAxisOff;
                    PltSubplot n 3 (i * 3 + 2); SnsHeatmap kernel.2; PltAxisOff;
                    PltSubplot n 3 ((i + 1) * 3);
                    PltImshow res (bool_decide (ndim res = 2%nat));
                    PltAxisOff]).
Proof.
  intros Hi. unfold plot_kernel_panels, plt_subplot.
  rewrite decide_True by lia. simpl.
  rewrite decide_True by lia. simpl.
  rewrite decide_True by lia. simpl.
  destruct (convolve2D img kernel.2) as [res|]; simpl; [|done].
  f_equal. case_decide as Hnd.
  - rewrite bool_decide_eq_true_2 by done. by rewrite <- !app_assoc.
  - rewrite bool_decide_eq_false_2 by done. by rewrite <- !app_assoc.
Qed.

Lemma seq_three (a m : nat) :
  seq a (3 + m) = [a; a + 1; a + 2]%nat ++ seq (a + 3) m.
Proof.
  simpl. rewrite Nat.add_1_r. do 2 f_equal.
  replace (a + 2)%nat with (S (S a)) by lia.
  by replace (a + 3)%nat with (S (S (S a))) by lia.
Qed.

Lemma plot_loop n img kernels results start calls :
  (start + length kernels ≤ n)%nat →
  mapM (λ kernel : string * ndarray2, convolve2D img kernel.2) kernels
  = Some results →
  ∃ calls',
    for_enumerate (plot_kernel_panels n img) start kernels calls
    = Some (calls ++ calls') ∧
    subplot_indices calls' = seq (3 * start + 1) (3 * length kernels) ∧
    Forall (λ c, ∀ r w i, c = PltSubplot r w i → r = n ∧ w = 3%nat) calls' ∧
    shown_images calls'
    = (λ r, (r, bool_decide (ndim r = 2%nat))) <$> results.
Proof.
  intros Hn Hres%mapM_Some_1. revert start calls Hn.
  induction Hres as [|kernel res kernels results Hk _ IH]; intros start calls Hn.
  - exists []. simpl. rewrite app_nil_r. split_and!; (done || constructor).
  - simpl in Hn.
    remember (3 * length (kernel :: kernels))%nat as total eqn:Htotal.
    rewrite for_enumerate_cons, plot_kernel_panels_eq, Hk by lia. simpl.
    destruct (IH (S start)
                (calls ++ [PltSubplot n 3 (start * 3 + 1); PltText kernel.1;
                           PltAxisOff; PltSubplot n 3 (start * 3 + 2);
                           SnsHeatmap kernel.2; PltAxisOff;
                           PltSubplot n 3 ((start + 1) * 3);
                           PltImshow res (bool_decide (ndim res = 2%nat));
                           PltAxisOff]))
      as (calls' & -> & Hidx & Hgrid & Hshown); [lia|].
    eexists. split; [by rewrite <- app_assoc|].
    split_and!.
    + unfold subplot_indices in *. rewrite omap_app, Hidx.
      replace total with (3 + 3 * length kernels)%nat
        by (rewrite Htotal; simpl; lia).
      rewrite (seq_three (3 * start + 1)).
      replace (start * 3 + 1)%nat with (3 * start + 1)%nat by lia.
      replace (start * 3 + 2)%nat with (3 * start + 1 + 1)%nat by lia.
      replace ((start + 1) * 3)%nat with (3 * start + 1 + 2)%nat by lia.
      replace (3 * S start + 1)%nat with (3 * start + 1 + 3)%nat by lia.
      reflexivity.
    + apply Forall_app. split; [|done].
      repeat (apply Forall_cons_2; [intros r w i [=]; by subst|]).
      apply Forall_nil_2.
    + unfold shown_images in *. rewrite omap_app, Hshown. done.
Qed.



Lemma plot_loop_raises n img kernels start calls :
  (start + length kernels ≤ n)%nat →
  Exists (λ kernel : string * ndarray2, convolve2D img kernel.2 = None) kernels →
  for_enumerate (plot_kernel_panels n img) start kernels calls = None.
Proof.
  intros Hn Hex. revert start calls Hn.
  induction kernels as [|kernel kernels IH]; intros start calls Hn.
  - by apply Exists_nil in Hex.
  - simpl in Hn. rewrite for_enumerate_cons, plot_kernel_panels_eq by lia.
    destruct (convolve2D img kernel.2) as [res|] eqn:Hk; simpl; [|done].
    apply Exists_cons in Hex as [Hex|Hex]; [congruence|].
    apply IH; [done | lia].
Qed.


(** ** [one_hot] on any label vector *)

Lemma np_index_Some (n : nat) (v : Z) (i : nat) :
  np_index n v = Some i →
  (i < n)%nat ∧ - Z.of_nat n ≤ v < Z.of_nat n ∧
  Z.of_nat i = v mod Z.of_nat n.
Proof.
  unfold np_index. repeat case_decide; intros [= <-].
  - split_and!; [lia | lia | lia |]. rewrite Z.mod_small by done. lia.
  - split_and!; [lia | lia | lia |].
    rewrite Z2Nat.id by lia.
    replace v with (Z.of_nat n + v + -1 * Z.of_nat n) at 2 by lia.
    rewrite Z.mod_add by lia. by rewrite Z.mod_small by lia.
Qed.

Lemma np_index_is_Some (n : nat) (v : Z) :
  is_Some (np_index n v) ↔ - Z.of_nat n ≤ v < Z.of_nat n.
Proof.
  split.
  - intros [i Hi]. by apply np_index_Some in Hi as (_ & ? & _).
  - intros Hv. unfold np_index. repeat case_decide; (by eexists) || lia.
Qed.

Lemma one_hot_eq (y : list Z) (M : list (list Z)) :
  one_hot y = Some M →
  ∃ m, np_max y = Some m ∧ 0 ≤ m ∧
       Forall (λ v, - (m + 1) ≤ v ≤ m) y ∧
       M = (λ v : Z, unit_row (Z.to_nat (m + 1))
                              (Z.to_nat (v mod (m + 1)))) <$> y.
Proof.
  unfold one_hot. intros Hhot.
  destruct (np_max y) as [m|] eqn:Hmax; [|done]. simpl in Hhot.
  destruct (np_max_spec y m Hmax) as [Hin Hle].
  unfold np_eye in Hhot. case_decide as Hneg; [done|]. simpl in Hhot.
  set (n := Z.to_nat (m + 1)) in *.
  assert (Z.of_nat n = m + 1) as Hn by lia.
  unfold take_rows in Hhot. rewrite length_fmap, length_seq in Hhot.
  apply mapM_Some_1 in Hhot.
  assert (Forall (λ v, - (m + 1) ≤ v) y) as Hlo.
  { apply Forall_forall. intros v Hv.
    apply list_elem_of_lookup in Hv as [i Hi].
    destruct (Forall2_lookup_l _ _ _ _ _ Hhot Hi) as (row & _ & Hrow).
    destruct (np_index n v) as [c|] eqn:Hc; [|done].
    apply np_index_Some in Hc. lia. }
  assert (0 ≤ m) as Hm.
  { eapply Forall_forall in Hlo; [|exact Hin]. simpl in Hlo. lia. }
  exists m. split_and!; [done | done | |].
  - apply Forall_forall. intros v Hv. split.
    + by eapply Forall_forall in Hlo; [|exact Hv].
    + by eapply Forall_forall in Hle; [|exact Hv].
  - apply list_eq. intros i. rewrite list_lookup_fmap.
    destruct (y !! i) as [v|] eqn:Hi; simpl.
    + destruct (Forall2_lookup_l _ _ _ _ _ Hhot Hi) as (row & -> & Hrow).
      destruct (np_index n v) as [c|] eqn:Hc; [|done]. simpl in Hrow.
      apply np_index_Some in Hc as (Hcn & _ & Hc).
      rewrite list_lookup_fmap, lookup_seq_lt in Hrow by done.
      simpl in Hrow. injection Hrow as <-. f_equal. unfold unit_row.
      replace (Z.to_nat (v mod (m + 1))) with c by (rewrite <- Hn; lia).
      done.
    + apply Forall2_length in Hhot. apply lookup_ge_None.
      apply lookup_ge_None in Hi. lia.
Qed.

(** X9. [one_hot] returns exactly when the label vector is not empty, its
    maximum [m] is not negative and no label lies below [-(m + 1)]; labels
    from [-(m + 1)] to [-1] are accepted and count from the end. *)
Theorem one_hot_defined (y : list Z) :
  is_Some (one_hot y) ↔
  ∃ m, np_max y = Some m ∧ 0 ≤ m ∧ Forall (λ v, - (m + 1) ≤ v) y.
Proof.
  split.
  - intros [M HM]. apply one_hot_eq in HM as (m & Hmax & Hm & Hall & _).
    exists m. split_and!; [done | done |].
    eapply Forall_impl; [exact Hall|]. simpl. intros. lia.
  - intros (m & Hmax & Hm & Hall).
    destruct (np_max_spec y m Hmax) as [_ Hle].
    unfold one_hot. rewrite Hmax. simpl. unfold np_eye.
    rewrite decide_False by lia. simpl.
    apply mapM_is_Some_2, Forall_forall. intros v Hv.
    rewrite length_fmap, length_seq.
    eapply Forall_forall in Hall; [|exact Hv].
    eapply Forall_forall in Hle; [|exact Hv]. simpl in *.
    destruct (np_index (Z.to_nat (m + 1)) v) as [c|] eqn:Hc.
    + apply np_index_Some in Hc as (Hcn & _). simpl.
      rewrite list_lookup_fmap, lookup_seq_lt by done. by eexists.
    + assert (is_Some (np_index (Z.to_nat (m + 1)) v)) as [? ?]
        by (apply np_index_is_Some; lia).
      congruence.
Qed.

(** X10. Whenever [one_hot] returns, the matrix has one row per label and
    [m + 1] columns for the maximum [m] of the labels, and the row of the
    label [v] is 1 in column [v mod (m + 1)] and 0 in every other column:
    the label itself when it is not negative, [m + 1 + v] when it is. *)
Theorem one_hot_rows (y : list Z) (M : list (list Z)) :
  one_hot y = Some M →
  ∃ m, np_max y = Some m ∧ length M = length y ∧
    ∀ i v, y !! i = Some v →
      ∃ row, M !! i = Some row ∧ length row = Z.to_nat (m + 1) ∧
        (∀ j, (j < Z.to_nat (m + 1))%nat →
           row !! j
           = Some (if decide (Z.of_nat j = v mod (m + 1)) then 1 else 0)) ∧
        Zsum row = 1.
Proof.
  intros (m & Hmax & Hm & Hall & ->)%one_hot_eq.
  exists m. split_and!; [done | by rewrite length_fmap |].
  intros i v Hv. eexists. split_and!.
  - by rewrite list_lookup_fmap, Hv.
  - unfold unit_row. by rewrite length_fmap, length_seq.
  - intros j Hj. unfold unit_row.
    rewrite list_lookup_fmap, lookup_seq_lt by done. simpl.
    assert (0 ≤ v mod (m + 1) < m + 1) by (apply Z.mod_pos_bound; lia).
    repeat case_decide; (done || lia).
  - unfold unit_row. rewrite one_hot_row_sum.
    assert (0 ≤ v mod (m + 1) < m + 1) by (apply Z.mod_pos_bound; lia).
    rewrite decide_True; [done | lia].
Qed.

Lemma one_hot_rows_witness :
  one_hot [-1; 2; 0] = Some [[0; 0; 1]; [0; 0; 1]; [1; 0; 0]] ∧
  ∃ m row, np_max [-1; 2; 0] = Some m ∧
    [[0; 0; 1]; [0; 0; 1]; [1; 0; 0]] !! 0%nat = Some row ∧
    length row = Z.to_nat (m + 1) ∧ Zsum row = 1.
Proof.
  split; [reflexivity|].
  destruct (one_hot_rows [-1; 2; 0] [[0; 0; 1]; [0; 0; 1]; [1; 0; 0]] eq_refl)
    as (m & Hmax & _ & Hrows).
  destruct (Hrows 0%nat (-1) eq_refl) as (row & Hrow & Hlen & _ & Hsum).
  by exists m, row.
Defined.

(** ** The labels behind a one-hot matrix *)

Lemma argmax_from_best best best_i i row :
  Forall (λ v, v ≤ best) row → argmax_from best best_i i row = best_i.
Proof.
  intros Hall. revert i. induction Hall as [|v row Hv _ IH]; intros i; simpl.
  - done.
  - rewrite decide_False by lia. apply IH.
Qed.

Lemma argmax_from_unit (c s n best_i : nat) :
  (s ≤ c < s + n)%nat →
  argmax_from 0 best_i s
    ((λ j : nat, if decide (c = j) then 1 else 0) <$> seq s n) = c.
Proof.
  revert s. induction n as [|n IH]; intros s Hc; [lia|]. csimpl.
  destruct (decide (c = s)) as [->|Hne].
  - rewrite decide_True by lia. apply argmax_from_best.
    apply Forall_fmap, Forall_forall. intros j _. simpl. case_decide; lia.
  - rewrite decide_False by lia. apply IH. lia.
Qed.

Lemma np_argmax_unit_row (n c : nat) :
  (c < n)%nat → np_argmax (unit_row n c) = Some c.
Proof.
  intros Hc. unfold unit_row. destruct n as [|n]; [lia|]. csimpl. f_equal.
  destruct (decide (c = 0%nat)) as [->|Hne].
  - apply argmax_from_best.
    apply Forall_fmap, Forall_forall. intros j Hj. simpl.
    apply elem_of_seq in Hj. case_decide; lia.
  - apply argmax_from_unit. lia.
Qed.

(** X11. [argmax(axis=1)], as the classification report applies it to the
    one-hot labels, undoes [one_hot]: it gives back [v mod (m + 1)] for
    every label [v], which is the label vector itself when no label is
    negative. *)
Theorem one_hot_argmax (y : list Z) (M : list (list Z)) :
  one_hot y = Some M →
  ∃ m, np_max y = Some m ∧
    argmax_axis1 M = Some ((λ v : Z, Z.to_nat (v mod (m + 1))) <$> y) ∧
    (Forall (λ v, 0 ≤ v) y →
     Z.of_nat <$> default [] (argmax_axis1 M) = y).
Proof.
  intros (m & Hmax & Hm & Hall & ->)%one_hot_eq.
  exists m. split; [done|].
  assert (argmax_axis1
            ((λ v : Z, unit_row (Z.to_nat (m + 1)) (Z.to_nat (v mod (m + 1))))
               <$> y)
          = Some ((λ v : Z, Z.to_nat (v mod (m + 1))) <$> y)) as Harg.
  { unfold argmax_axis1. apply mapM_Some_2. apply Forall2_fmap.
    apply Forall_Forall2_diag, Forall_forall. intros v _.
    apply np_argmax_unit_row.
    assert (0 ≤ v mod (m + 1) < m + 1) by (apply Z.mod_pos_bound; lia). lia. }
  split; [done|]. intros Hpos. rewrite Harg. simpl.
  rewrite <- list_fmap_compose. rewrite <- (list_fmap_id y) at 2.
  apply Forall_fmap_ext_1, Forall_forall. intros v Hv.
  eapply Forall_forall in Hpos; [|exact Hv].
  eapply Forall_forall in Hall; [|exact Hv]. simpl in *.
  rewrite Z.mod_small by lia. lia.
Qed.

Lemma one_hot_argmax_witness :
  one_hot [2; 0; 1] = Some [[0; 0; 1]; [1; 0; 0]; [0; 1; 0]] ∧
  Z.of_nat <$> default [] (argmax_axis1 [[0; 0; 1]; [1; 0; 0]; [0; 1; 0]])
  = [2; 0; 1].
Proof.
  split; [reflexivity|].
  destruct (one_hot_argmax [2; 0; 1] [[0; 0; 1]; [1; 0; 0]; [0; 1; 0]] eq_refl)
    as (m & _ & _ & Hback).
  apply Hback. repeat constructor; lia.
Defined.

(** ** The split at any [val_split] *)



Lemma int_of_Q_ge (q : Q) (n : Z) : (inject_Z n <= q)%Q → 0 ≤ n → n ≤ int_of_Q q.
Proof.
  intros Hq Hn. unfold int_of_Q.
  assert (0 <= q)%Q as H0.
  { eapply Qle_trans; [|exact Hq]. change 0%Q with (inject_Z 0).
    by rewrite <- Zle_Qle. }
  apply Qle_bool_iff in H0. rewrite H0.
  rewrite <- (Qfloor_Z n). by apply Qfloor_resp_le.
Qed.

Lemma int_of_Q_le (q : Q) (n : Z) : (q <= inject_Z n)%Q → n ≤ 0 → int_of_Q q ≤ n.
Proof.
  intros Hq Hn. unfold int_of_Q.
  destruct (Qle_bool 0 q) eqn:H0.
  - apply Qle_bool_iff in H0.
    rewrite <- (Qfloor_Z n). by apply Qfloor_resp_le.
  - rewrite <- (Qceiling_Z n). by apply Qceiling_resp_le.
Qed.



(** ** [shuffle] on arrays of different lengths *)

Lemma take_indices_bound {A} (l : list A) (p : list nat) (l' : list A) :
  take_indices l p = Some l' → Forall (λ j, (j < length l)%nat) p.
Proof.
  intros H%mapM_Some_1. apply Forall_forall. intros j Hj.
  apply list_elem_of_lookup in Hj as [i Hi].
  destruct (Forall2_lookup_l _ _ _ _ _ H Hi) as (x & _ & Hx).
  by apply lookup_lt_Some in Hx.
Qed.

Lemma take_indices_defined {A} (l : list A) (p : list nat) :
  Forall (λ j, (j < length l)%nat) p → is_Some (take_indices l p).
Proof.
  intros Hall. apply mapM_is_Some_2. eapply Forall_impl; [exact Hall|].
  simpl. intros j Hj. by apply lookup_lt_is_Some_2.
Qed.

(** X14. With a generator that permutes the positions, [shuffle] returns
    exactly when [y] is at least as long as [X] (a shorter [y] raises
    [IndexError]); the results then have the length of [X] and hold the
    pairs of [X] with the first [len X] labels, each as often as before, so
    labels beyond the length of [X] are dropped. *)
Theorem shuffle_lengths {rng A B}
    (np_random_shuffle : rng → list nat → list nat * rng)
    (X : list A) (y : list B) (g : rng) :
  (∀ g l, (np_random_shuffle g l).1 ≡ₚ l) →
  (is_Some (shuffle np_random_shuffle X y g) ↔ (length X ≤ length y)%nat) ∧
  ∀ X' y' g',
    shuffle np_random_shuffle X y g = Some (X', y', g') →
    length X' = length X ∧ length y' = length X ∧
    zip X' y' ≡ₚ zip X (take (length X) y).
Proof.
  intros Hperm. unfold shuffle.
  specialize (Hperm g (seq 0 (length X))).
  destruct (np_random_shuffle g (seq 0 (length X))) as [p g1] eqn:Hrng.
  simpl in Hperm.
  destruct (take_indices_is_Some X p Hperm) as [X1 HX1]. rewrite HX1. simpl.
  split.
  - split.
    + intros [r Hr]. destruct (take_indices y p) as [y1|] eqn:Hy1; [|done].
      apply take_indices_bound in Hy1.
      destruct (decide (length X ≤ length y)%nat) as [|Hgt]; [done|].
      assert (length y ∈ p) as Hin by (rewrite Hperm; apply elem_of_seq; lia).
      eapply Forall_forall in Hy1; [|exact Hin]. simpl in Hy1. lia.
    + intros Hle. destruct (take_indices_defined y p) as [y1 Hy1].
      * apply Forall_forall. intros j Hj. rewrite Hperm in Hj.
        apply elem_of_seq in Hj. lia.
      * rewrite Hy1. by eexists.
  - intros X' y' g' Hs.
    destruct (take_indices y p) as [y1|] eqn:Hy1; [|done].
    simpl in Hs. injection Hs as <- <- <-.
    assert (length X ≤ length y)%nat as Hle.
    { apply take_indices_bound in Hy1.
      destruct (decide (length X ≤ length y)%nat) as [|Hgt]; [done|].
      assert (length y ∈ p) as Hin by (rewrite Hperm; apply elem_of_seq; lia).
      eapply Forall_forall in Hy1; [|exact Hin]. simpl in Hy1. lia. }
    split_and!.
    + rewrite (take_indices_length _ _ _ HX1), Hperm. by rewrite length_seq.
    + rewrite (take_indices_length _ _ _ Hy1), Hperm. by rewrite length_seq.
    + assert (zip X (take (length X) y) = zip X y) as ->.
      { apply zip_with_take_r. }
      apply (take_indices_Permutation _ p).
      * rewrite length_zip, Nat.min_l by done. done.
      * by apply take_indices_zip.
Qed.

Lemma shuffle_lengths_witness :
  (∀ (g : nat) (l : list nat), ((reverse l, S g)).1 ≡ₚ l) ∧
  is_Some (shuffle (λ (g : nat) (l : list nat), (reverse l, S g))
             ["a"; "b"]%string [1; 2; 3] 0%nat) ∧
  shuffle (λ (g : nat) (l : list nat), (reverse l, S g))
    ["a"; "b"; "c"]%string [1; 2] 0%nat = None.
Proof.
  assert (∀ (g : nat) (l : list nat), ((reverse l, S g)).1 ≡ₚ l) as Hperm
    by (intros g l; apply reverse_Permutation).
  split; [exact Hperm|]. split.
  - apply (shuffle_lengths (λ (g : nat) (l : list nat), (reverse l, S g))
             ["a"; "b"]%string [1; 2; 3] 0%nat Hperm). simpl. lia.
  - apply eq_None_not_Some. intros Hsome.
    apply (shuffle_lengths (λ (g : nat) (l : list nat), (reverse l, S g))
             ["a"; "b"; "c"]%string [1; 2] 0%nat Hperm) in Hsome.
    simpl in Hsome. lia.
Defined.

(** ** When the loader returns *)

Section LoaderErrors.
Context {picture ndimage : Type}.
Variable load : picture → list nat → ndimage.
Variable size : list nat.

Lemma load_pictures_loop_raises (es : list (string * @node picture)) start imgs :
  mapM (λ e : string * node, image_open e.2) es = None →
  for_enumerate
    (λ imgs (_ : nat) (img_name : string * node),
       img ← image_open img_name.2;
       Some (imgs ++ [load img size]))
    start es imgs
  = None.
Proof.
  intros H%mapM_None_1. revert start imgs.
  induction es as [|e es IH]; intros start imgs.
  - by apply Exists_nil in H.
  - rewrite for_enumerate_cons.
    destruct (image_open e.2) as [p|] eqn:He; simpl; [|done].
    apply Exists_cons in H as [H|H]; [congruence|]. by apply IH.
Qed.

Lemma load_class_raises (c : string * @node picture) i st :
  pictures_of c.2 = None → load_class load size st i c = None.
Proof.
  unfold pictures_of, load_class. destruct st as [[imgs labels] names].
  destruct (listdir c.2) as [es|]; simpl; [|done].
  intros Hp. unfold for_each. by rewrite load_pictures_loop_raises.
Qed.

Lemma load_classes_loop_raises (classes : list (string * @node picture))
    start st :
  Exists (λ c, pictures_of c.2 = None) classes →
  for_enumerate (load_class load size) start classes st = None.
Proof.
  intros Hex. revert start st.
  induction classes as [|c classes IH]; intros start st.
  - by apply Exists_nil in Hex.
  - rewrite for_enumerate_cons.
    destruct (pictures_of c.2) as [pics|] eqn:Hc.
    + destruct st as [[imgs labels] names].
      rewrite (load_class_eq load size c pics) by done. simpl.
      apply Exists_cons in Hex as [Hex|Hex]; [congruence|]. by apply IH.
    + by rewrite load_class_raises.
Qed.

Lemma get_data_from_dir_classes (classes : list (string * @node picture)) :
  classes ≠ [] →
  Forall (λ c, is_Some (pictures_of c.2)) classes →
  ∃ imgs labels,
    get_data_from_dir load (Directory classes) size
    = Some (imgs, labels, classes.*1) ∧
    length labels = length imgs ∧
    Forall (λ l, 0 ≤ l < Z.of_nat (length classes)) labels ∧
    zip imgs labels = concat (imap (class_examples load size) classes).
Proof.
  intros Hne Hall.
  destruct (load_classes_loop load size classes 0 [] [] [] Hall)
    as (I & L & Hloop & HlenL & Hlen & Hzip & Hrange).
  exists I, (concat L). split_and!; try done.
  unfold get_data_from_dir. simpl. rewrite Hloop. simpl.
  destruct L; [by destruct classes|]. done.
Qed.

End LoaderErrors.

(** ** The cells that prepare the image data *)

Lemma one_hot_nonneg (y : list Z) :
  y ≠ [] → Forall (λ v, 0 ≤ v) y → is_Some (one_hot y).
Proof.
  intros Hne Hpos.
  destruct (np_max y) as [m|] eqn:Hmax; [|by destruct y].
  destruct (np_max_spec y m Hmax) as [Hin Hle].
  assert (0 ≤ m) as Hm by (by eapply Forall_forall in Hpos; [|exact Hin]).
  unfold one_hot. rewrite Hmax. simpl. unfold np_eye.
  rewrite decide_False by lia. simpl.
  apply mapM_is_Some_2, Forall_forall. intros v Hv.
  rewrite length_fmap, length_seq.
  eapply Forall_forall in Hpos; [|exact Hv].
  eapply Forall_forall in Hle; [|exact Hv]. simpl in *.
  unfold np_index. rewrite decide_True by lia. simpl.
  rewrite list_lookup_fmap, lookup_seq_lt by lia. by eexists.
Qed.

Lemma one_hot_shape (y : list Z) (M : list (list Z)) (c : nat) :
  one_hot y = Some M → Forall (λ v, 0 ≤ v < Z.of_nat c) y →
  y ≠ [] ∧ length M = length y ∧ Forall (λ row, (length row ≤ c)%nat) M.
Proof.
  intros (m & Hmax & Hm & Hall & ->)%one_hot_eq Hrange.
  destruct (np_max_spec y m Hmax) as [Hin _].
  split_and!.
  - intros ->. by apply elem_of_nil in Hin.
  - by rewrite length_fmap.
  - apply Forall_fmap, Forall_forall. intros v _. simpl.
    unfold unit_row. rewrite length_fmap, length_seq.
    eapply Forall_forall in Hrange; [|exact Hin]. simpl in Hrange. lia.
Qed.

Lemma split_index_default (n : nat) :
  int_of_Q (inject_Z (Z.of_nat n) * (1 - (2 # 10))) = Z.of_nat (4 * n / 5).
Proof.
  destruct (split_index_floor n (2 # 10)) as [-> _]; [done | done |].
  unfold Qfloor, Qmult, inject_Z. simpl Qnum. simpl Qden.
  rewrite Nat2Z.inj_div, Nat2Z.inj_mul.
  change (1 * 10 + - (2) * 1) with 8.
  change (Z.pos (1 * (1 * 10))) with 10.
  change (Z.of_nat 4) with 4. change (Z.of_nat 5) with 5.
  replace (Z.of_nat n * 8) with (4 * Z.of_nat n * 2) by lia.
  change 10 with (5 * 2). apply Z.div_mul_cancel_r; lia.
Qed.

Section PipelineFacts.
Context {picture ndimage rng : Type}.
Variable load : picture → list nat → ndimage.
Variable np_random_shuffle : rng → list nat → list nat * rng.
Hypothesis shuffle_permutes : ∀ g l, (np_random_shuffle g l).1 ≡ₚ l.

Local Abbreviation examples_of classes :=
  (concat (imap (class_examples load [100; 100]%nat) classes)).

Lemma load_and_shuffle (classes : list (string * @node picture)) (g : rng) :
  classes ≠ [] →
  Forall (λ c, is_Some (pictures_of c.2)) classes →
  ∃ imgs labels X y g',
    get_data_from_dir load (Directory classes) [100; 100]%nat
    = Some (imgs, labels, classes.*1) ∧
    shuffle np_random_shuffle imgs labels g = Some (X, y, g') ∧
    length X = length y ∧ length X = length (examples_of classes) ∧
    zip X y ≡ₚ examples_of classes ∧
    Forall (λ l, 0 ≤ l < Z.of_nat (length classes)) y.
Proof.
  intros Hne Hall.
  destruct (get_data_from_dir_classes load [100; 100]%nat classes Hne Hall)
    as (imgs & labels & Hget & Hlen & Hrange & Hzip).
  exists imgs, labels. unfold shuffle.
  pose proof (shuffle_permutes g (seq 0 (length imgs))) as Hperm.
  destruct (np_random_shuffle g (seq 0 (length imgs))) as [p g'] eqn:Hrng.
  simpl in Hperm.
  destruct (take_indices_is_Some imgs p Hperm) as [X HX].
  destruct (take_indices_is_Some labels p) as [y Hy]; [by rewrite Hlen|].
  exists X, y, g'. rewrite HX, Hy. simpl.
  assert (length X = length imgs) as HlenX.
  { rewrite (take_indices_length _ _ _ HX), Hperm. by rewrite length_seq. }
  assert (length y = length imgs) as Hleny.
  { rewrite (take_indices_length _ _ _ Hy), Hperm. by rewrite length_seq. }
  assert (length (zip imgs labels) = length imgs) as Hlenz.
  { rewrite length_zip. lia. }
  split_and!; try done.
  - lia.
  - rewrite <- Hzip. lia.
  - rewrite <- Hzip. apply (take_indices_Permutation _ p).
    + by rewrite Hlenz.
    + by apply take_indices_zip.
  - assert (y ≡ₚ labels) as ->; [|done].
    apply (take_indices_Permutation _ p); [by rewrite Hlen | done].
Qed.


End PipelineFacts.



(** ** [vectorize_sequences] on any word indices *)

Lemma np_index_mod (n : nat) (v : Z) :
  - Z.of_nat n ≤ v < Z.of_nat n →
  np_index n v = Some (Z.to_nat (v mod Z.of_nat n)).
Proof.
  intros Hv. destruct (np_index n v) as [i|] eqn:Hi.
  - apply np_index_Some in Hi as (_ & _ & Hi). f_equal. lia.
  - assert (is_Some (np_index n v)) as [? ?] by by apply np_index_is_Some.
    congruence.
Qed.

Lemma set_ones_zeros_any (dimension : nat) (s : list Z) :
  Forall (λ w, - Z.of_nat dimension ≤ w < Z.of_nat dimension) s →
  set_ones (replicate dimension 0) s
  = Some (bag_row dimension ((λ w : Z, w mod Z.of_nat dimension) <$> s)).
Proof.
  intros Hs. unfold set_ones. rewrite length_replicate.
  rewrite (mapM_total _ (λ w : Z, Z.to_nat (w mod Z.of_nat dimension))).
  2: { intros w Hw. eapply Forall_forall in Hs; [|exact Hw].
       by apply np_index_mod. }
  simpl. f_equal. apply list_eq. intros j.
  rewrite foldl_insert_lookup, length_replicate, lookup_replicate_lt.
  unfold bag_row. rewrite list_lookup_fmap.
  destruct (decide (j < dimension)%nat) as [Hj|Hj].
  - rewrite lookup_seq_lt by done. simpl.
    assert (∀ w, w ∈ s → 0 ≤ w mod Z.of_nat dimension) as Hmod.
    { intros w Hw. apply Z.mod_pos_bound. lia. }
    destruct (decide (Z.of_nat j ∈ _)) as [Hin|Hin].
    + rewrite decide_True; [done|]. split; [|done].
      apply list_elem_of_fmap in Hin as (w & Hjw & Hw).
      apply list_elem_of_fmap. exists w. split; [lia | done].
    + rewrite decide_False; [done|]. intros [Hin' _]. apply Hin.
      apply list_elem_of_fmap in Hin' as (w & -> & Hw).
      apply list_elem_of_fmap. exists w. split; [|done].
      specialize (Hmod w Hw). lia.
  - rewrite lookup_seq_ge by lia. rewrite decide_False by tauto. done.
Qed.

Lemma set_ones_raises (row : list Z) (s : list Z) :
  ¬ Forall (λ w, - Z.of_nat (length row) ≤ w < Z.of_nat (length row)) s →
  set_ones row s = None.
Proof.
  intros Hs. unfold set_ones.
  destruct (mapM (np_index (length row)) s) as [idx|] eqn:Hidx; [|done].
  exfalso. apply Hs. apply mapM_Some_1 in Hidx.
  apply Forall_forall. intros w Hw.
  apply list_elem_of_lookup in Hw as [i Hi].
  destruct (Forall2_lookup_l _ _ _ _ _ Hidx Hi) as (c & _ & Hc).
  by apply np_index_Some in Hc as (_ & ? & _).
Qed.

Lemma vectorize_loop_any (dimension : nat) (sequences : list (list Z))
    (filled : list (list Z)) :
  for_enumerate
    (λ (results : list (list Z)) (i : nat) (sequence : list Z),
       row ← results !! i;
       row ← set_ones row sequence;
       Some (<[i := row]> results))
    (length filled) sequences
    (filled ++ replicate (length sequences) (replicate dimension 0))
  = if decide (Forall (Forall (λ w, - Z.of_nat dimension ≤ w
                                    < Z.of_nat dimension)) sequences)
    then Some (filled
               ++ ((λ s : list Z,
                      bag_row dimension
                        ((λ w : Z, w mod Z.of_nat dimension) <$> s))
                     <$> sequences))
    else None.
Proof.
  revert filled. induction sequences as [|s sequences IH]; intros filled.
  - rewrite decide_True by constructor. done.
  - rewrite for_enumerate_cons. cbn [length replicate].
    rewrite list_lookup_middle by done. cbn [mbind option_bind].
    destruct (decide (Forall (λ w, - Z.of_nat dimension ≤ w
                                   < Z.of_nat dimension) s)) as [Hs|Hs].
    + rewrite set_ones_zeros_any by done. cbn [mbind option_bind].
      rewrite insert_app_r_alt, Nat.sub_diag by lia. cbn [insert list_insert].
      specialize (IH (filled ++ [bag_row dimension
                                   ((λ w : Z, w mod Z.of_nat dimension) <$> s)])).
      rewrite length_app, <- !app_assoc in IH. simpl in IH.
      rewrite Nat.add_1_r in IH. rewrite IH.
      destruct (decide (Forall _ sequences)) as [Hall|Hall].
      * rewrite decide_True by by constructor. done.
      * rewrite decide_False; [done|].
        by intros [_ ?]%Forall_cons.
    + rewrite set_ones_raises by by rewrite length_replicate.
      rewrite decide_False; [done|]. by intros [? _]%Forall_cons.
Qed.

Lemma vectorize_sequences_eq (sequences : list (list Z)) (dimension : nat) :
  vectorize_sequences sequences dimension
  = if decide (Forall (Forall (λ w, - Z.of_nat dimension ≤ w
                                    < Z.of_nat dimension)) sequences)
    then Some ((λ s : list Z,
                  bag_row dimension
                    ((λ w : Z, w mod Z.of_nat dimension) <$> s))
                 <$> sequences)
    else None.
Proof. apply (vectorize_loop_any dimension sequences []). Qed.

(** X18. [vectorize_sequences] returns exactly when every word index lies
    in [-dimension, dimension); entry [(i, j)] of the matrix is then 1
    when some index of sequence [i] is [j] modulo [dimension] (a negative
    index counts from the end of the row) and 0 otherwise.  An index of
    [dimension] or more, or below [-dimension], raises. *)
Theorem vectorize_sequences_any (sequences : list (list Z)) (dimension : nat) :
  (is_Some (vectorize_sequences sequences dimension) ↔
   Forall (Forall (λ w, - Z.of_nat dimension ≤ w < Z.of_nat dimension))
          sequences) ∧
  ∀ M, vectorize_sequences sequences dimension = Some M →
    length M = length sequences ∧
    ∀ i s, sequences !! i = Some s →
      ∃ row, M !! i = Some row ∧ length row = dimension ∧
        ∀ j, (j < dimension)%nat →
          row !! j
          = Some (if decide (Z.of_nat j
                             ∈ (λ w : Z, w mod Z.of_nat dimension) <$> s)
                  then 1 else 0).
Proof.
  rewrite vectorize_sequences_eq.
  destruct (decide (Forall _ sequences)) as [Hall|Hall].
  - split; [split; [done | by eexists]|].
    intros M [= <-]. split; [by rewrite length_fmap|].
    intros i s Hs. eexists. split_and!.
    + by rewrite list_lookup_fmap, Hs.
    + unfold bag_row. by rewrite length_fmap, length_seq.
    + intros j Hj. unfold bag_row.
      by rewrite list_lookup_fmap, lookup_seq_lt by done.
  - split; [|done]. split; [by intros [? ?] | done].
Qed.

Lemma bag_row_ext (dimension : nat) (s t : list Z) :
  (∀ w, w ∈ s ↔ w ∈ t) → bag_row dimension s = bag_row dimension t.
Proof.
  intros Hst. unfold bag_row. apply list_fmap_ext. intros _ j _.
  destruct (decide (Z.of_nat j ∈ s)) as [Hs|Hs].
  - rewrite decide_True; [done|]. by apply Hst.
  - rewrite decide_False; [done|]. intros Ht. by apply Hs, Hst.
Qed.

(** X19. The row of a review depends on the set of its words only: two
    lists of sequences that agree, position by position, on which words
    occur give the same matrix, whatever the order and the repetitions of
    the words (and one raises when the other does). *)
Theorem vectorize_sequences_set (sequences sequences' : list (list Z))
    (dimension : nat) :
  Forall2 (λ s t : list Z, ∀ w, w ∈ s ↔ w ∈ t) sequences sequences' →
  vectorize_sequences sequences dimension
  = vectorize_sequences sequences' dimension.
Proof.
  intros Hsets. rewrite !vectorize_sequences_eq.
  assert (Forall (Forall (λ w, - Z.of_nat dimension ≤ w < Z.of_nat dimension))
                 sequences
          ↔ Forall (Forall (λ w, - Z.of_nat dimension ≤ w < Z.of_nat dimension))
                   sequences') as Hiff.
  { induction Hsets as [|s t ss ts Hst _ IH]; [done|].
    rewrite !Forall_cons, IH. rewrite !Forall_forall.
    split; intros [Hs ?]; (split; [|done]); intros w Hw; apply Hs, Hst, Hw. }
  assert ((λ s : list Z,
             bag_row dimension ((λ w : Z, w mod Z.of_nat dimension) <$> s))
            <$> sequences
          = (λ s : list Z,
               bag_row dimension ((λ w : Z, w mod Z.of_nat dimension) <$> s))
              <$> sequences') as Hrows.
  { clear Hiff. induction Hsets as [|s t ss ts Hst _ IH]; [done|]. csimpl.
    rewrite IH. f_equal. apply bag_row_ext. intros w.
    rewrite !list_elem_of_fmap. split; intros (v & -> & Hv); exists v;
      (split; [done|]); by apply Hst. }
  destruct (decide (Forall _ sequences)) as [Hall|Hall].
  - rewrite decide_True by by apply Hiff. by rewrite Hrows.
  - rewrite decide_False; [done|]. intros H'. by apply Hall, Hiff.
Qed.

Lemma vectorize_sequences_set_witness :
  vectorize_sequences [[1; 3; 3]; [0; 2]] 4
  = vectorize_sequences [[3; 1]; [2; 2; 0]] 4.
Proof.
  apply vectorize_sequences_set.
  constructor; [|constructor; [|constructor]];
    intros w; rewrite !elem_of_cons, !elem_of_nil; tauto.
Defined.

(** X20. Vectorising and slicing commute: a slice [[:k]] or [[k:]] of the
    matrix of [vectorize_sequences] is the matrix of the same slice of the
    sequences, as when the validation rows are cut from [X_train] with
    [k = 10000]. *)
Theorem vectorize_sequences_slice (sequences : list (list Z))
    (dimension : nat) (M : list (list Z)) (k : Z) :
  vectorize_sequences sequences dimension = Some M →
  vectorize_sequences (slice_to k sequences) dimension = Some (slice_to k M) ∧
  vectorize_sequences (slice_from k sequences) dimension
  = Some (slice_from k M).
Proof.
  rewrite !vectorize_sequences_eq.
  destruct (decide (Forall _ sequences)) as [Hall|Hall]; [|done].
  intros [= <-]. unfold slice_to, slice_from. rewrite length_fmap.
  split.
  - rewrite decide_True by by apply Forall_take. by rewrite fmap_take.
  - rewrite decide_True by by apply Forall_drop. by rewrite fmap_drop.
Qed.

Lemma vectorize_sequences_slice_witness :
  vectorize_sequences (slice_to 1 [[1]; [0; 2]; [-1]]) 3 = Some [[0; 1; 0]] ∧
  vectorize_sequences (slice_from 1 [[1]; [0; 2]; [-1]]) 3
  = Some [[1; 0; 1]; [0; 0; 1]].
Proof.
  apply (vectorize_sequences_slice [[1]; [0; 2]; [-1]] 3
           [[0; 1; 0]; [1; 0; 1]; [0; 0; 1]] 1).
  reflexivity.
Defined.

(** ** Frames of any number of lags *)

Lemma tabulate_lookups {A} (d : A) (l : list A) :
  (λ t : nat, default d (l !! t)) <$> seq 0 (length l) = l.
Proof.
  apply list_eq. intros t. rewrite list_lookup_fmap.
  destruct (decide (t < length l)%nat) as [Ht|Ht].
  - rewrite lookup_seq_lt by done. simpl.
    destruct (lookup_lt_is_Some_2 l t Ht) as [x Hx]. by rewrite Hx.
  - rewrite lookup_seq_ge by lia. symmetry. apply lookup_ge_None. lia.
Qed.

Lemma filter_none {A} (P : A → Prop) `{!∀ x, Decision (P x)} (l : list A) :
  Forall (λ x, ¬ P x) l → filter P l = [].
Proof.
  induction 1 as [|x l Hx _ IH]; [done|].
  by rewrite filter_cons_False.
Qed.

Section WindowFacts.
Context {V : Type}.
Implicit Types (data : @series_input V) (df : @frame V).

Lemma shift_length df p : length (rows (shift df p)) = length (rows df).
Proof.
  unfold shift. simpl. case_decide.
  - rewrite length_app, length_replicate, length_take. lia.
  - rewrite length_app, length_replicate, length_drop. lia.
Qed.

Lemma shift_lookup df p t :
  (t < length (rows df))%nat →
  rows (shift df p) !! t = Some (shifted_row df (Z.of_nat t - p)).
Proof.
  intros Ht. unfold shift, shifted_row. cbn [rows].
  set (n := length (rows df)) in *.
  destruct (decide (0 ≤ p)) as [Hp|Hp].
  - destruct (decide (t < Z.to_nat p)%nat) as [Hlt|Hge].
    + rewrite lookup_app_l by (rewrite length_replicate; lia).
      rewrite lookup_replicate_2 by lia.
      rewrite decide_False by lia. done.
    + rewrite Nat.min_l by lia.
      rewrite lookup_app_r by (rewrite length_replicate; lia).
      rewrite length_replicate, lookup_take_lt by lia.
      rewrite decide_True by lia.
      replace (Z.to_nat (Z.of_nat t - p)) with (t - Z.to_nat p)%nat by lia.
      destruct (lookup_lt_is_Some_2 (rows df) (t - Z.to_nat p)) as [x Hx];
        [fold n; lia|].
      by rewrite Hx.
  - destruct (decide (t + Z.to_nat (- p) < n)%nat) as [Hlt|Hge].
    + rewrite Nat.min_l by lia.
      rewrite lookup_app_l by (rewrite length_drop; fold n; lia).
      rewrite lookup_drop, decide_True by lia.
      replace (Z.to_nat (Z.of_nat t - p)) with (Z.to_nat (- p) + t)%nat by lia.
      destruct (lookup_lt_is_Some_2 (rows df) (Z.to_nat (- p) + t)) as [x Hx];
        [fold n; lia|].
      by rewrite Hx.
    + rewrite lookup_app_r by (rewrite length_drop; fold n; lia).
      rewrite length_drop. fold n.
      rewrite lookup_replicate_2 by lia.
      rewrite decide_False by lia. done.
Qed.

Lemma foldl_lags df (n_vars : nat) (l : list nat) cols names :
  foldl (λ '(cols, names) (i : nat),
           (cols ++ [shift df (Z.of_nat i)],
            names ++ ((λ j : nat,
                         "var" ++ dec (j + 1) ++ "(t-" ++ dec i ++ ")")%string
                        <$> seq 0 n_vars)))
        (cols, names) l
  = (cols ++ ((λ i : nat, shift df (Z.of_nat i)) <$> l),
     names ++ (l ≫= λ i : nat,
                 (λ j : nat, "var" ++ dec (j + 1) ++ "(t-" ++ dec i ++ ")")%string
                   <$> seq 0 n_vars)).
Proof.
  revert cols names. induction l as [|i l IH]; intros cols names.
  - by rewrite !app_nil_r.
  - cbn [foldl]. rewrite IH. csimpl. by rewrite <- !app_assoc.
Qed.

Lemma foldl_leads df (n_vars : nat) (l : list nat) cols names :
  foldl (λ '(cols, names) (i : nat),
           (cols ++ [shift df (- Z.of_nat i)],
            if decide (i = 0%nat) then
              names ++ ((λ j : nat, "var" ++ dec (j + 1) ++ "(t)")%string
                          <$> seq 0 n_vars)
            else
              names ++ ((λ j : nat,
                           "var" ++ dec (j + 1) ++ "(t+" ++ dec i ++ ")")%string
                          <$> seq 0 n_vars)))
        (cols, names) l
  = (cols ++ ((λ i : nat, shift df (- Z.of_nat i)) <$> l),
     names ++ (l ≫= λ i : nat,
                 if decide (i = 0%nat) then
                   (λ j : nat, "var" ++ dec (j + 1) ++ "(t)")%string
                     <$> seq 0 n_vars
                 else
                   (λ j : nat,
                      "var" ++ dec (j + 1) ++ "(t+" ++ dec i ++ ")")%string
                     <$> seq 0 n_vars)).
Proof.
  revert cols names. induction l as [|i l IH]; intros cols names.
  - by rewrite !app_nil_r.
  - cbn [foldl]. rewrite IH. csimpl.
    destruct (decide (i = 0%nat)); by rewrite <- !app_assoc.
Qed.

Lemma frame_names_length (v n_in n_out : nat) :
  length (frame_names v n_in n_out) = ((n_in + n_out) * v)%nat.
Proof.
  unfold frame_names. rewrite length_app.
  assert (∀ (l : list nat) (f : nat → list string),
            (∀ i, length (f i) = v) → length (l ≫= f) = (length l * v)%nat)
    as Hbind.
  { intros l f Hf. induction l as [|i l IH]; csimpl; [done|].
    rewrite length_app, Hf, IH. lia. }
  rewrite !Hbind.
  - rewrite length_reverse, !length_seq. lia.
  - intros i. case_decide; by rewrite length_fmap, length_seq.
  - intros i. by rewrite length_fmap, length_seq.
Qed.

Lemma pd_concat_foldl (cols : list (@frame V)) (acc : @frame V) (n : nat) :
  length (rows acc) = n →
  Forall (λ c, length (rows c) = n) cols →
  foldl (λ (acc : frame) (f : frame),
           {| width := width acc + width f;
              index := index acc;
              rows := zip_with app (rows acc) (rows f) |})
        acc cols
  = {| width := width acc + sum_list (width <$> cols);
       index := index acc;
       rows := (λ t : nat,
                  default [] (rows acc !! t)
                  ++ concat ((λ c : frame, default [] (rows c !! t)) <$> cols))
                 <$> seq 0 n |}.
Proof.
  intros Hacc Hcols. revert acc Hacc.
  induction Hcols as [|c cols Hc _ IH]; intros acc Hacc.
  - simpl. destruct acc as [w idx R]. simpl in *. f_equal; [lia|].
    rewrite <- Hacc. rewrite <- (tabulate_lookups [] R) at 1.
    apply list_fmap_ext. intros _ t _. by rewrite app_nil_r.
  - cbn [foldl]. rewrite IH by (cbn [rows]; rewrite length_zip_with; lia).
    cbn [width index rows]. csimpl. f_equal; [lia|].
    apply list_fmap_ext. intros _ t Ht%list_elem_of_lookup_2.
    apply elem_of_seq in Ht.
    rewrite lookup_zip_with.
    destruct (lookup_lt_is_Some_2 (rows acc) t) as [x ->]; [lia|].
    destruct (lookup_lt_is_Some_2 (rows c) t) as [y ->]; [lia|].
    simpl. by rewrite <- app_assoc.
Qed.

Lemma organize_series_frame data (n_in n_out : nat) (dropnan : bool) :
  wf_input data → input_rows data ≠ [] → (0 < n_in + n_out)%nat →
  let agg :=
    {| names := frame_names (input_cols data) n_in n_out;
       body := {| width := (n_in + n_out) * input_cols data;
                  index := seq 0 (length (input_rows data));
                  rows := lagged_row (DataFrame data) n_in n_out
                            <$> seq 0 (length (input_rows data)) |} |} in
  organize_series data n_in n_out dropnan
  = Some (if dropnan then dropna agg else agg).
Proof.
  intros Hwf Hne Hpos agg.
  destruct (input_shape data Hwf Hne) as (Hwidth & Hindex & Hcols).
  unfold organize_series. fold (input_cols data).
  set (df := DataFrame data) in *.
  rewrite foldl_lags. cbv beta iota. rewrite foldl_leads. cbv beta iota.
  rewrite !app_nil_l. fold (frame_names (input_cols data) n_in n_out).
  set (cols := _ ++ _).
  set (n := length (input_rows data)) in *.
  assert (Forall (λ c : frame,
                    length (rows c) = n ∧ width c = input_cols data ∧
                    index c = seq 0 n) cols) as Hall.
  { apply Forall_app. split; apply Forall_fmap, Forall_forall; intros i _;
      (split_and!; [apply shift_length | exact Hwidth | exact Hindex]). }
  assert (length cols = (n_in + n_out)%nat) as Hlen.
  { unfold cols. rewrite length_app, !length_fmap, length_reverse, !length_seq.
    done. }
  assert (pd_concat cols
          = Some {| width := (n_in + n_out) * input_cols data;
                    index := seq 0 n;
                    rows := lagged_row df n_in n_out <$> seq 0 n |}) as ->.
  { destruct cols as [|c cols'] eqn:Hc; [simpl in Hlen; lia|].
    apply Forall_cons in Hall as [(Hc1 & Hc2 & Hc3) Hall].
    unfold pd_concat. rewrite (pd_concat_foldl cols' c n Hc1).
    2: { eapply Forall_impl; [exact Hall|]. by intros ? (? & _). }
    f_equal. f_equal.
    - rewrite Hc2. simpl in Hlen.
      assert (sum_list (width <$> cols') = (length cols' * input_cols data)%nat)
        as ->; [|lia].
      clear Hc Hlen. induction Hall as [|c' cols'' (_ & Hw & _) _ IH]; [done|].
      csimpl. rewrite Hw, IH. lia.
    - done.
    - apply list_fmap_ext. intros _ t Ht%list_elem_of_lookup_2.
      apply elem_of_seq in Ht. unfold lagged_row.
      change (default [] (rows c !! t)
              ++ concat ((λ c0 : frame, default [] (rows c0 !! t)) <$> cols'))
        with (concat ((λ c0 : frame, default [] (rows c0 !! t)) <$> c :: cols')).
      rewrite <- Hc. unfold cols. rewrite fmap_app, <- !list_fmap_compose.
      f_equal. f_equal; apply list_fmap_ext; intros _ i _; unfold compose;
        rewrite shift_lookup by (change (length (rows df)) with n; lia);
        cbn [default from_option id]; f_equal; lia. }
  cbn [mbind option_bind]. unfold set_columns. cbn [width].
  rewrite decide_True by apply frame_names_length.
  done.
Qed.
End WindowFacts.

Lemma reverse_seq_1 (n : nat) :
  reverse (seq 1 n) = (λ k : nat, (n - k)%nat) <$> seq 0 n.
Proof.
  induction n as [|n IH]; [done|].
  rewrite seq_S, reverse_snoc, IH. cbn [seq fmap list_fmap]. f_equal.
  rewrite <- fmap_S_seq, <- list_fmap_compose. unfold compose.
  apply list_fmap_ext. intros i k Hk. lia.
Qed.

Lemma elem_of_concat_2 {A} (x : A) (l : list A) (ls : list (list A)) :
  l ∈ ls → x ∈ l → x ∈ concat ls.
Proof.
  intros Hl Hx. induction ls as [|l' ls IH]; [by apply elem_of_nil in Hl|].
  simpl. apply elem_of_app.
  apply elem_of_cons in Hl as [->|Hl]; [by left | right; by apply IH].
Qed.

Lemma zip_seq_fmap {A} (f : nat → A) (s n : nat) :
  zip (seq s n) (f <$> seq s n) = (λ t : nat, (t, f t)) <$> seq s n.
Proof.
  revert s. induction n as [|n IH]; intros s; csimpl; [done|]. by rewrite IH.
Qed.

Lemma filter_seq_range {A} (P : A → Prop) `{!∀ x, Decision (P x)}
    (g : nat → A) (n a b : nat) :
  (∀ t, (t < n)%nat → P (g t) ↔ (a ≤ t < a + b)%nat) →
  b = 0%nat ∨ (a + b ≤ n)%nat →
  filter P (g <$> seq 0 n) = g <$> seq a b.
Proof.
  intros HP Hab.
  destruct (decide (b = 0%nat)) as [->|Hb].
  - simpl. apply filter_none, Forall_fmap, Forall_forall.
    intros t Ht%elem_of_seq. simpl. rewrite HP by lia. lia.
  - destruct Hab as [?|Hab]; [done|].
    replace n with (a + (b + (n - a - b)))%nat at 1 by lia.
    rewrite !seq_app, !fmap_app, !filter_app. simpl.
    rewrite (filter_none P (g <$> seq 0 a)), (filter_all P (g <$> seq a b)),
      (filter_none P (g <$> seq (a + b) (n - a - b))).
    + by rewrite app_nil_r.
    + apply Forall_fmap, Forall_forall. intros t Ht%elem_of_seq. simpl.
      rewrite HP by lia. lia.
    + apply Forall_fmap, Forall_forall. intros t Ht%elem_of_seq. simpl.
      rewrite HP by lia. lia.
    + apply Forall_fmap, Forall_forall. intros t Ht%elem_of_seq. simpl.
      rewrite HP by lia. lia.
Qed.

Section LagFacts.
Context {V : Type}.
Implicit Types (data : @series_input V) (df : @frame V).

Lemma lagged_row_eq df (n_in n_out t : nat) :
  lagged_row df n_in n_out t
  = concat ((λ k : nat,
               shifted_row df (Z.of_nat t - Z.of_nat n_in + Z.of_nat k))
              <$> seq 0 (n_in + n_out)).
Proof.
  unfold lagged_row. f_equal.
  rewrite seq_app, fmap_app, reverse_seq_1, <- list_fmap_compose. f_equal.
  - apply list_fmap_ext. intros _ k Hk%list_elem_of_lookup_2.
    apply elem_of_seq in Hk. unfold compose. f_equal. lia.
  - simpl.
    replace (seq n_in n_out) with (seq (n_in + 0) n_out) by (f_equal; lia).
    rewrite <- fmap_add_seq, <- list_fmap_compose.
    apply list_fmap_ext. intros _ k _. unfold compose. f_equal. lia.
Qed.

Lemma lagged_row_window df (n_in n_out t : nat) :
  (n_in ≤ t)%nat → (t + n_out ≤ length (rows df))%nat →
  lagged_row df n_in n_out t
  = lag_window (rows df) (n_in + n_out) (t - n_in).
Proof.
  intros Hlo Hhi. rewrite lagged_row_eq. unfold lag_window. f_equal.
  set (w := (n_in + n_out)%nat).
  set (l := take w (drop (t - n_in) (rows df))).
  assert (length l = w) as Hl.
  { unfold l. rewrite length_take, length_drop. lia. }
  rewrite <- (tabulate_lookups [] l), Hl.
  apply list_fmap_ext. intros _ k Hk%list_elem_of_lookup_2.
  apply elem_of_seq in Hk. unfold l, shifted_row.
  rewrite decide_True by lia.
  rewrite lookup_take_lt, lookup_drop by lia. do 2 f_equal. lia.
Qed.

Lemma lagged_row_nan df (n_in n_out t : nat) :
  (0 < width df)%nat → (1 ≤ n_out)%nat → (t < length (rows df))%nat →
  ¬ ((n_in ≤ t)%nat ∧ (t + n_out ≤ length (rows df))%nat) →
  None ∈ lagged_row df n_in n_out t.
Proof.
  intros Hv Hout Ht Hnot. rewrite lagged_row_eq.
  assert (∃ k, (k < n_in + n_out)%nat ∧
               ¬ (0 ≤ Z.of_nat t - Z.of_nat n_in + Z.of_nat k
                  < Z.of_nat (length (rows df)))) as (k & Hk & Hz).
  { destruct (decide (n_in ≤ t)%nat).
    - exists (n_in + n_out - 1)%nat. lia.
    - exists 0%nat. lia. }
  apply (elem_of_concat_2 _
           (shifted_row df (Z.of_nat t - Z.of_nat n_in + Z.of_nat k))).
  - apply list_elem_of_fmap. exists k. split; [done|].
    apply elem_of_seq. lia.
  - unfold shifted_row. rewrite decide_False by done.
    apply elem_of_replicate. split; [done | lia].
Qed.

Lemma lag_window_complete (R : list (list (@cell V))) (w i : nat) :
  Forall complete R → complete (lag_window R w i).
Proof.
  intros HR. unfold lag_window, complete.
  assert (Forall complete (take w (drop i R))) as Hall
    by by apply Forall_take, Forall_drop.
  induction Hall as [|r rs Hr _ IH]; simpl; [done|]. by apply Forall_app.
Qed.

Lemma complete_no_nan (r : list (@cell V)) :
  complete r ↔ ¬ Exists (λ c, c = None) r.
Proof.
  unfold complete. rewrite Forall_forall, Exists_exists. split.
  - intros Hall (c & Hc & ->). by apply (Hall None).
  - intros Hno c Hc ->. apply Hno. by exists None.
Qed.

Lemma lagged_row_complete data (n_in n_out t : nat) :
  wf_input data → input_rows data ≠ [] → (0 < input_cols data)%nat →
  Forall complete (input_rows data) → (1 ≤ n_out)%nat →
  (t < length (input_rows data))%nat →
  complete (lagged_row (DataFrame data) n_in n_out t)
  ↔ (n_in ≤ t)%nat ∧ (t + n_out ≤ length (input_rows data))%nat.
Proof.
  intros Hwf Hne Hv Hcomplete Hout Ht.
  destruct (input_shape data Hwf Hne) as (Hwidth & _ & _).
  unfold input_rows in *. split.
  - intros Hc.
    destruct (decide ((n_in ≤ t)%nat
                      ∧ (t + n_out ≤ length (rows (DataFrame data)))%nat))
      as [|Hnot]; [done|].
    exfalso. apply complete_no_nan in Hc. apply Hc, Exists_exists.
    exists None. split; [|done].
    apply lagged_row_nan; (done || lia).
  - intros [Hlo Hhi]. rewrite lagged_row_window by done.
    by apply lag_window_complete.
Qed.

Lemma lag_window_length (R : list (list (@cell V))) (v w i : nat) :
  Forall (λ r, length r = v) R → (i + w ≤ length R)%nat →
  length (lag_window R w i) = (w * v)%nat.
Proof.
  intros HR Hi. unfold lag_window.
  set (l := take w (drop i R)).
  assert (Forall (λ r, length r = v) l) as Hall
    by by apply Forall_take, Forall_drop.
  assert (length l = w) as Hl
    by (unfold l; rewrite length_take, length_drop; lia).
  rewrite <- Hl. clearbody l. clear Hl.
  induction Hall as [|r rs Hr _ IH]; simpl; [done|].
  rewrite length_app, Hr, IH. done.
Qed.
End LagFacts.

(** X21. On a non-empty table, [organize_series] returns exactly when it
    is asked for a column: [n_in + n_out > 0], with or without [dropnan];
    with [n_in = n_out = 0] there is nothing for [pd.concat] to join and
    it raises. *)
Theorem organize_series_defined {V : Type} (data : @series_input V)
    (n_in n_out : nat) (dropnan : bool) :
  wf_input data → input_rows data ≠ [] →
  is_Some (organize_series data n_in n_out dropnan) ↔ (0 < n_in + n_out)%nat.
Proof.
  intros Hwf Hne. split.
  - intros [agg Hagg].
    destruct (decide (0 < n_in + n_out)%nat) as [|Hzero]; [done|].
    assert (n_in = 0%nat) as -> by lia. assert (n_out = 0%nat) as -> by lia.
    by destruct data.
  - intros Hpos. rewrite organize_series_frame by done. by eexists.
Qed.

Lemma organize_series_defined_witness :
  is_Some (organize_series (PyList [Some 1; Some 2; Some 3]) 2 0 false) ∧
  organize_series (PyList [Some 1; Some 2; Some 3]) 0 0 true = None.
Proof.
  split.
  - apply (organize_series_defined (PyList [Some 1; Some 2; Some 3]) 2 0 false);
      [done | done | lia].
  - apply eq_None_not_Some. intros Hs.
    apply (organize_series_defined (PyList [Some 1; Some 2; Some 3]) 0 0 true)
      in Hs; [lia | done | done].
Defined.

(** X22. For a table of [n >= 1] rows and [v >= 1] columns without missing
    values and [n_out >= 1], [organize_series data n_in n_out True]
    returns the sliding windows of [n_in + n_out] consecutive rows: the
    frame has [(n_in + n_out) v] named columns and [n + 1 - n_in - n_out]
    rows labelled [n_in], [n_in + 1], ...; the row labelled [t] holds the
    input rows of times [t - n_in] to [t + n_out - 1] side by side, and no
    row with a missing value is left. *)
Theorem organize_series_windows {V : Type} (data : @series_input V)
    (n_in n_out : nat) :
  wf_input data → input_rows data ≠ [] → (0 < input_cols data)%nat →
  Forall complete (input_rows data) → (1 ≤ n_out)%nat →
  ∃ agg,
    organize_series data n_in n_out true = Some agg ∧
    names agg = frame_names (input_cols data) n_in n_out ∧
    length (names agg) = ((n_in + n_out) * input_cols data)%nat ∧
    width (body agg) = ((n_in + n_out) * input_cols data)%nat ∧
    index (body agg)
    = seq n_in (length (input_rows data) + 1 - (n_in + n_out)) ∧
    rows (body agg)
    = lag_window (input_rows data) (n_in + n_out)
        <$> seq 0 (length (input_rows data) + 1 - (n_in + n_out)) ∧
    Forall (λ r, length r = ((n_in + n_out) * input_cols data)%nat)
           (rows (body agg)) ∧
    Forall complete (rows (body agg)).
Proof.
  intros Hwf Hne Hv Hcomplete Hout.
  destruct (input_shape data Hwf Hne) as (_ & _ & Hcols).
  rewrite organize_series_frame by (done || lia). cbv zeta.
  eexists. split; [reflexivity|].
  set (n := length (input_rows data)).
  set (w := (n_in + n_out)%nat).
  set (df := DataFrame data).
  unfold dropna. cbn [names body width index rows].
  rewrite zip_seq_fmap.
  rewrite (filter_seq_range _ _ n n_in (n + 1 - w)).
  2: { intros t Ht. cbn [snd]. rewrite <- complete_no_nan. unfold df.
       rewrite lagged_row_complete by done. fold n. lia. }
  2: { lia. }
  rewrite <- !list_fmap_compose.
  assert (lagged_row df n_in n_out <$> seq n_in (n + 1 - w)
          = lag_window (input_rows data) w <$> seq 0 (n + 1 - w)) as Hrows.
  { replace (seq n_in (n + 1 - w)) with (seq (n_in + 0) (n + 1 - w))
      by (f_equal; lia).
    rewrite <- fmap_add_seq, <- list_fmap_compose.
    apply list_fmap_ext. intros _ i Hi%list_elem_of_lookup_2.
    apply elem_of_seq in Hi. unfold compose.
    rewrite lagged_row_window by (change (length (rows df)) with n; lia).
    unfold input_rows. f_equal. lia. }
  split_and!.
  - done.
  - apply frame_names_length.
  - done.
  - apply list_fmap_id.
  - exact Hrows.
  - change (snd ∘ (λ t : nat, (t, lagged_row df n_in n_out t)))
      with (lagged_row df n_in n_out).
    rewrite Hrows. apply Forall_fmap, Forall_forall.
    intros i Hi%elem_of_seq. simpl.
    apply lag_window_length; [done | fold n; lia].
  - change (snd ∘ (λ t : nat, (t, lagged_row df n_in n_out t)))
      with (lagged_row df n_in n_out).
    rewrite Hrows. apply Forall_fmap, Forall_forall. intros i _. simpl.
    by apply lag_window_complete.
Qed.

Lemma organize_series_windows_witness :
  organize_series
    (NdArray {| nrows := 4; ncols := 1;
                cells := [[Some 1]; [Some 2]; [Some 3]; [Some 4]] |})
    2 1 true
  = Some {| names := ["var1(t-2)"; "var1(t-1)"; "var1(t)"]%string;
            body := {| width := 3; index := [2; 3]%nat;
                       rows := [[Some 1; Some 2; Some 3];
                                [Some 2; Some 3; Some 4]] |} |}.
Proof.
  destruct (organize_series_windows
              (NdArray {| nrows := 4; ncols := 1;
                          cells := [[Some 1]; [Some 2]; [Some 3]; [Some 4]] |})
              2 1)
    as (agg & Hagg & _).
  - split; [reflexivity|]. repeat constructor.
  - discriminate.
  - simpl. lia.
  - repeat constructor; discriminate.
  - lia.
  - rewrite Hagg. vm_compute in Hagg. by injection Hagg as <-.
Defined.

(** X23. Under the same conditions, with [dropnan=False] the frame keeps
    the [n] rows under the labels [0], ..., [n - 1]; its row [t] is free
    of missing values exactly when the window fits the table,
    [n_in <= t <= n - n_out], and then holds the input rows of times
    [t - n_in] to [t + n_out - 1]; every other row has a NaN. *)
Theorem organize_series_keep_nan {V : Type} (data : @series_input V)
    (n_in n_out : nat) :
  wf_input data → input_rows data ≠ [] → (0 < input_cols data)%nat →
  Forall complete (input_rows data) → (1 ≤ n_out)%nat →
  ∃ agg,
    organize_series data n_in n_out false = Some agg ∧
    names agg = frame_names (input_cols data) n_in n_out ∧
    index (body agg) = seq 0 (length (input_rows data)) ∧
    length (rows (body agg)) = length (input_rows data) ∧
    ∀ t row, rows (body agg) !! t = Some row →
      (complete row
       ↔ (n_in ≤ t)%nat ∧ (t + n_out ≤ length (input_rows data))%nat) ∧
      ((n_in ≤ t)%nat → (t + n_out ≤ length (input_rows data))%nat →
       row = lag_window (input_rows data) (n_in + n_out) (t - n_in)).
Proof.
  intros Hwf Hne Hv Hcomplete Hout.
  rewrite organize_series_frame by (done || lia). cbv zeta.
  eexists. split; [reflexivity|]. cbn [names body width index rows].
  split_and!; [done | done | by rewrite length_fmap, length_seq |].
  intros t row Hrow. rewrite list_lookup_fmap in Hrow.
  destruct (decide (t < length (input_rows data))%nat) as [Ht|Ht].
  - rewrite lookup_seq_lt in Hrow by done. simpl in Hrow.
    injection Hrow as <-. split.
    + by apply lagged_row_complete.
    + intros Hlo Hhi. by rewrite lagged_row_window.
  - by rewrite lookup_seq_ge in Hrow by lia.
Qed.

Lemma organize_series_keep_nan_witness :
  ∃ agg,
    organize_series (PyList [Some 1; Some 2; Some 3]) 1 1 false = Some agg ∧
    rows (body agg) = [[None; Some 1]; [Some 1; Some 2]; [Some 2; Some 3]].
Proof.
  destruct (organize_series_keep_nan (PyList [Some 1; Some 2; Some 3]) 1 1)
    as (agg & Hagg & _).
  - done.
  - discriminate.
  - simpl. lia.
  - repeat constructor; discriminate.
  - lia.
  - exists agg. split; [exact Hagg|].
    vm_compute in Hagg. by injection Hagg as <-.
Defined.

(** ** Splitting the framed series *)

Section SplitFacts.
Context {V : Type}.
Implicit Types (m : list (list (@cell V))) (r : list (@cell V)).

Lemma row_snoc r (w : nat) :
  length r = S w → ∃ x, r !! w = Some x ∧ last r = Some x ∧ take w r ++ [x] = r.
Proof.
  intros Hr. destruct (lookup_lt_is_Some_2 r w) as [x Hx]; [lia|].
  exists x. split_and!; [done | |].
  - by rewrite last_lookup, Hr.
  - rewrite <- (take_S_r _ _ _ Hx). apply take_ge. lia.
Qed.

Lemma last_column_eq (w : nat) m :
  (0 < w)%nat → Forall (λ r, length r = w) m →
  last_column w m = Some ((λ r, default None (last r)) <$> m).
Proof.
  intros Hw Hm. unfold last_column, np_index.
  rewrite decide_False by lia. rewrite decide_True by lia.
  cbn [mbind option_bind]. apply mapM_total. intros r Hr.
  eapply Forall_forall in Hm; [|exact Hr]. simpl in Hm.
  destruct (row_snoc r (w - 1)) as (x & Hx & Hlast & _); [lia|].
  rewrite Hlast. simpl. rewrite <- Hx. f_equal. lia.
Qed.

Lemma last_column_raises m : last_column 0 m = None.
Proof. done. Qed.

Lemma drop_last_column_eq (w : nat) m :
  Forall (λ r, length r = w) m →
  drop_last_column m = (λ r, take (w - 1) r) <$> m.
Proof.
  intros Hm. unfold drop_last_column. apply Forall_fmap_ext_1.
  eapply Forall_impl; [exact Hm|]. simpl. intros r Hr.
  unfold slice_to, slice_bound. rewrite decide_True by lia.
  f_equal. lia.
Qed.

Lemma rejoin_columns (w : nat) m :
  (0 < w)%nat → Forall (λ r, length r = w) m →
  zip_with (λ (x : list (list cell)) (y : cell), concat x ++ [y])
    (reshape_steps ((λ r, take (w - 1) r) <$> m))
    ((λ r, default None (last r)) <$> m)
  = m.
Proof.
  intros Hw Hm. induction Hm as [|r m Hr _ IH]; csimpl; [done|].
  f_equal; [|exact IH].
  destruct (row_snoc r (w - 1)) as (x & _ & -> & Hsnoc); [lia|].
  simpl. by rewrite app_nil_r.
Qed.

(** X24. The split cell, on a frame whose rows have the width of the
    frame: it raises exactly when the frame has no column.  Otherwise
    its [test] arrays come from the first [n_train_hours] rows and its
    [train] arrays from the rows after them; every input is one time step
    holding all columns of a row but the last, the target is the last
    column of the same row, and putting each input back before its target
    gives the rows of the frame again, the [test] rows first. *)
Theorem split_series_spec (k : nat) (reframed : @named_frame V) :
  Forall (λ r, length r = width (body reframed)) (rows (body reframed)) →
  (is_Some (split_series (Z.of_nat k) reframed)
   ↔ (0 < width (body reframed))%nat) ∧
  ∀ X_train y_train X_test y_test,
    split_series (Z.of_nat k) reframed
    = Some (X_train, y_train, X_test, y_test) →
    length X_test = Nat.min k (length (rows (body reframed))) ∧
    length y_test = length X_test ∧ length y_train = length X_train ∧
    Forall (λ x, ∃ r, x = [r]
                      ∧ length r = (width (body reframed) - 1)%nat)
           (X_test ++ X_train) ∧
    zip_with (λ (x : list (list cell)) (y : cell), concat x ++ [y])
      X_test y_test
    ++ zip_with (λ (x : list (list cell)) (y : cell), concat x ++ [y])
         X_train y_train
    = rows (body reframed).
Proof.
  intros Hwf. unfold split_series.
  set (w := width (body reframed)) in *.
  set (R := rows (body reframed)) in *.
  unfold slice_to, slice_from, slice_bound.
  rewrite !decide_False by lia. rewrite Nat2Z.id.
  destruct (decide (0 < w)%nat) as [Hw|Hw].
  - assert (Forall (λ r, length r = w) (take k R)) as Htake
      by by apply Forall_take.
    assert (Forall (λ r, length r = w) (drop k R)) as Hdrop
      by by apply Forall_drop.
    rewrite !last_column_eq by done. cbn [mbind option_bind].
    rewrite !(drop_last_column_eq w) by done.
    split; [split; [done | by eexists]|].
    intros X_train y_train X_test y_test [= <- <- <- <-].
    split_and!.
    + unfold reshape_steps. by rewrite !length_fmap, length_take.
    + unfold reshape_steps. by rewrite !length_fmap.
    + unfold reshape_steps. by rewrite !length_fmap.
    + unfold reshape_steps.
      rewrite <- !fmap_app, take_drop, <- list_fmap_compose.
      apply Forall_fmap.
      eapply Forall_impl; [exact Hwf|]. simpl. intros r Hr.
      exists (take (w - 1) r). split; [done|]. rewrite length_take. lia.
    + rewrite !rejoin_columns by done. apply take_drop.
  - assert (w = 0%nat) as -> by lia.
    rewrite last_column_raises. cbn [mbind option_bind].
    split; [|done]. split; [by intros [? ?] | lia].
Qed.

End SplitFacts.

Lemma split_series_spec_witness :
  split_series 1
    {| names := ["var1(t-1)"; "var1(t)"]%string;
       body := {| width := 2; index := [1; 2; 3]%nat;
                  rows := [[Some 1; Some 2]; [Some 2; Some 3];
                           [Some 3; Some 4]] |} |}
  = Some ([[[Some 2]]; [[Some 3]]], [Some 3; Some 4], [[[Some 1]]], [Some 2]).
Proof.
  destruct (split_series_spec 1
              {| names := ["var1(t-1)"; "var1(t)"]%string;
                 body := {| width := 2; index := [1; 2; 3]%nat;
                            rows := [[Some 1; Some 2]; [Some 2; Some 3];
                                     [Some 3; Some 4]] |} |})
    as [[_ Hdef] _].
  - by repeat constructor.
  - destruct Hdef as [r Hr]; [simpl; lia|].
    change (Z.of_nat 1) with 1 in Hr. rewrite Hr.
    vm_compute in Hr. by injection Hr as <-.
Defined.

Section ReframedSplit.
Context {V : Type}.
Implicit Types (data : @series_input V).

Lemma split_series_eq (k : nat) (reframed : @named_frame V) :
  (0 < width (body reframed))%nat →
  Forall (λ r, length r = width (body reframed)) (rows (body reframed)) →
  split_series (Z.of_nat k) reframed
  = Some (reshape_steps ((λ r, take (width (body reframed) - 1) r)
                           <$> drop k (rows (body reframed))),
          (λ r, default None (last r)) <$> drop k (rows (body reframed)),
          reshape_steps ((λ r, take (width (body reframed) - 1) r)
                           <$> take k (rows (body reframed))),
          (λ r, default None (last r)) <$> take k (rows (body reframed))).
Proof.
  intros Hw Hwf. unfold split_series.
  unfold slice_to, slice_from, slice_bound.
  rewrite !decide_False by lia. rewrite Nat2Z.id.
  rewrite !last_column_eq by (done || by apply Forall_take || by apply Forall_drop).
  cbn [mbind option_bind].
  rewrite !(drop_last_column_eq (width (body reframed)))
    by (by apply Forall_take || by apply Forall_drop).
  done.
Qed.

(** X25. Framing with one lag and then splitting, as the notebook does:
    for a table without missing values whose rows [prev] and [cur] are
    those of times [t] and [t + 1], the example made from them has as
    input the one time step [prev] followed by all of [cur] but its last
    value, and as target the last value of [cur]; it is example [t] of the
    [test] arrays when [t < n_train_hours] and example
    [t - n_train_hours] of the [train] arrays otherwise. *)
Theorem reframed_split data (k : nat) :
  wf_input data → input_rows data ≠ [] → (0 < input_cols data)%nat →
  Forall complete (input_rows data) →
  ∃ reframed X_train y_train X_test y_test,
    organize_series data 1 1 true = Some reframed ∧
    split_series (Z.of_nat k) reframed
    = Some (X_train, y_train, X_test, y_test) ∧
    ∀ t prev cur,
      input_rows data !! t = Some prev →
      input_rows data !! S t = Some cur →
      ((t < k)%nat →
       X_test !! t = Some [prev ++ take (input_cols data - 1) cur] ∧
       y_test !! t = last cur) ∧
      ((k ≤ t)%nat →
       X_train !! (t - k)%nat
       = Some [prev ++ take (input_cols data - 1) cur] ∧
       y_train !! (t - k)%nat = last cur).
Proof.
  intros Hwf Hne Hv Hcomplete.
  destruct (input_shape data Hwf Hne) as (_ & _ & Hcols).
  rewrite organize_series_eq by done.
  set (R := input_rows data) in *. set (v := input_cols data) in *.
  set (W := zip_with app (take (length R - 1) R) (drop 1 R)).
  assert (∀ t prev cur, R !! t = Some prev → R !! S t = Some cur →
            W !! t = Some (prev ++ cur)) as HW.
  { intros t prev cur Hp Hc. unfold W.
    rewrite lookup_zip_with, lookup_take_lt, lookup_drop, Hp.
    - simpl. by rewrite Hc.
    - apply lookup_lt_Some in Hc. lia. }
  assert (Forall (λ r, length r = (v + v)%nat) W) as HWf.
  { apply Forall_lookup. intros i r Hi.
    apply lookup_zip_with_Some in Hi as (a & b & -> & Ha & Hb).
    apply lookup_take_Some in Ha as [Ha _]. rewrite lookup_drop in Hb.
    rewrite length_app.
    rewrite (Forall_lookup_1 _ _ _ _ Hcols Ha).
    rewrite (Forall_lookup_1 _ _ _ _ Hcols Hb). done. }
  eexists _, _, _, _, _. split; [reflexivity|].
  rewrite split_series_eq by (cbn [body width rows]; (lia || done)).
  cbn [body width rows]. fold W. split; [reflexivity|].
  intros t prev cur Hp Hc.
  pose proof (HW t prev cur Hp Hc) as Hrow.
  assert (length prev = v) as Hlp by apply (Forall_lookup_1 _ _ _ _ Hcols Hp).
  assert (length cur = v) as Hlc by apply (Forall_lookup_1 _ _ _ _ Hcols Hc).
  destruct (row_snoc cur (v - 1)) as (x & _ & Hlast & Hsnoc); [lia|].
  assert (take (v + v - 1) (prev ++ cur) = prev ++ take (v - 1) cur) as Htake.
  { rewrite take_app_ge by lia. do 2 f_equal. lia. }
  assert (default None (last (prev ++ cur)) = x) as Hlastrow.
  { rewrite <- Hsnoc, app_assoc, last_snoc. done. }
  unfold reshape_steps. unfold cell in *. split.
  - intros Hlt.
    rewrite !list_lookup_fmap, !lookup_take_lt, !Hrow by done. simpl.
    by rewrite Htake, Hlastrow, Hlast.
  - intros Hge.
    rewrite !list_lookup_fmap, !lookup_drop.
    replace (k + (t - k))%nat with t by lia. rewrite !Hrow. simpl.
    by rewrite Htake, Hlastrow, Hlast.
Qed.
End ReframedSplit.

Lemma reframed_split_witness :
  ∃ reframed X_train y_train X_test y_test,
    organize_series
      (NdArray {| nrows := 3; ncols := 2;
                  cells := [[Some 1; Some 2]; [Some 3; Some 4];
                            [Some 5; Some 6]] |}) 1 1 true
    = Some reframed ∧
    split_series 1 reframed = Some (X_train, y_train, X_test, y_test) ∧
    X_test !! 0%nat = Some [[Some 1; Some 2; Some 3]] ∧
    y_test !! 0%nat = Some (Some 4) ∧
    X_train !! 0%nat = Some [[Some 3; Some 4; Some 5]] ∧
    y_train !! 0%nat = Some (Some 6).
Proof.
  destruct (reframed_split
              (NdArray {| nrows := 3; ncols := 2;
                          cells := [[Some 1; Some 2]; [Some 3; Some 4];
                                    [Some 5; Some 6]] |}) 1)
    as (reframed & Xtr & ytr & Xte & yte & Hframe & Hsplit & Hex).
  - split; [reflexivity|]. repeat constructor.
  - discriminate.
  - simpl. lia.
  - repeat constructor; discriminate.
  - exists reframed, Xtr, ytr, Xte, yte.
    destruct (Hex 0%nat [Some 1; Some 2] [Some 3; Some 4] eq_refl eq_refl)
      as [Htest _].
    destruct (Hex 1%nat [Some 3; Some 4] [Some 5; Some 6] eq_refl eq_refl)
      as [_ Htrain].
    destruct (Htest ltac:(lia)) as [HX0 Hy0].
    destruct (Htrain ltac:(lia)) as [HX1 Hy1].
    by split_and!.
Defined.

(** ** Decoding a review *)

Lemma dict_get_missing {A} (pairs : list (Z * A)) (k : Z) (found : option A) :
  k ∉ pairs.*1 →
  foldl (λ (found : option A) (p : Z * A),
           if decide (p.1 = k) then Some p.2 else found)
        found pairs = found.
Proof.
  revert found. induction pairs as [|p pairs IH]; intros found Hk; [done|].
  csimpl in *. apply not_elem_of_cons in Hk as [Hne Hk].
  rewrite decide_False by done. by apply IH.
Qed.

Lemma dict_get_present {A} (pairs : list (Z * A)) (k : Z) (v : A)
    (found : option A) :
  NoDup pairs.*1 → (k, v) ∈ pairs →
  foldl (λ (found : option A) (p : Z * A),
           if decide (p.1 = k) then Some p.2 else found)
        found pairs = Some v.
Proof.
  revert found. induction pairs as [|p pairs IH]; intros found Hnd Hin.
  - by apply elem_of_nil in Hin.
  - csimpl in *. apply NoDup_cons in Hnd as [Hp Hnd].
    apply elem_of_cons in Hin as [<-|Hin].
    + simpl in *. rewrite decide_True by done. by apply dict_get_missing.
    + by apply IH.
Qed.

(** X26. Decoding a review: when no two words of [word_index] share a
    rank, an index [i] whose [i - 3] is the rank of a word decodes to that
    word, and an index whose [i - 3] is no rank decodes to ['?']; so the
    indices 0 to 3 give ['?'] when the ranks start at 1, and a review
    that spells words out by rank plus 3 decodes to these words joined by
    single spaces. *)
Theorem decode_review_spec (word_index : list (string * Z))
    (review : list Z) (words : list string) :
  NoDup word_index.*2 →
  Forall2 (λ (i : Z) (w : string),
             (w, i - 3) ∈ word_index
             ∨ ((i - 3 ∉ word_index.*2) ∧ w = "?"%string))
          review words →
  decode_words word_index review = words ∧
  decode_review word_index review = str_join " " words.
Proof.
  intros Hnd Hwords.
  assert (decode_words word_index review = words) as Hdec.
  { unfold decode_words.
    set (reverse_word_index := (λ '(key, value), (value, key)) <$> word_index).
    assert (reverse_word_index.*1 = word_index.*2) as Hkeys.
    { unfold reverse_word_index. rewrite <- list_fmap_compose.
      apply list_fmap_ext. by intros _ [key value] _. }
    induction Hwords as [|i w review words Hw _ IH]; csimpl; [done|].
    rewrite IH. f_equal. unfold dict_get.
    destruct Hw as [Hin|[Hout ->]].
    - rewrite (dict_get_present _ _ w); [done | by rewrite Hkeys |].
      unfold reverse_word_index. apply list_elem_of_fmap.
      by exists (w, i - 3).
    - rewrite dict_get_missing; [done | by rewrite Hkeys]. }
  split; [done|]. unfold decode_review. by rewrite Hdec.
Qed.

Lemma decode_review_spec_witness :
  decode_review [("the", 1); ("film", 2); ("good", 3)]%string [1; 4; 5; 9; 6]
  = "? the film ? good"%string.
Proof.
  apply (decode_review_spec [("the", 1); ("film", 2); ("good", 3)]%string
           [1; 4; 5; 9; 6] ["?"; "the"; "film"; "?"; "good"]%string).
  - simpl. repeat (apply NoDup_cons; split;
                     [rewrite ?elem_of_cons, elem_of_nil; lia|]).
    apply NoDup_nil_2.
  - constructor; [|constructor; [|constructor; [|constructor;
      [|constructor; [|constructor]]]]].
    + right. split; [|done]. simpl. rewrite !elem_of_cons, elem_of_nil. lia.
    + left. rewrite !elem_of_cons. tauto.
    + left. rewrite !elem_of_cons. tauto.
    + right. split; [|done]. simpl. rewrite !elem_of_cons, elem_of_nil. lia.
    + left. rewrite !elem_of_cons. tauto.
Defined.

(** ** Flat regions under the kernels of [get_kernels] *)

Lemma img_at_to3d img i j k v :
  img_at img i j k = Some v → get3 (to3d img) i j k = Some v.
Proof.
  destruct img as [a|a]; simpl; [|done].
  case_decide as Hk; [subst k | done]. unfold get2, get3. simpl.
  rewrite list_lookup_fmap.
  destruct (data2 a !! i) as [r|]; simpl; [|done].
  rewrite list_lookup_fmap. intros ->. done.
Qed.

(** X27. On a flat region the three edge-detection kernels of
    [get_kernels] give 0 and its Identity and Sharpen kernels give the
    value of the region: when an 8-bit image has the value [c] in channel
    [k] on the 3 by 3 neighbourhood of the pixel [(i, j)], the output pixel
    [(i, j)] of that channel is [c] times the sum of the kernel entries,
    which is 0 for the kernels named Edge Detection and 1 for the two
    others. *)
Theorem convolve2D_flat_region (img : image) (name : string)
    (kernel : ndarray2) (i j k : nat) (c : Z) :
  wf_image img → uint8_image (to3d img) →
  (name, kernel) ∈ get_kernels →
  (1 ≤ i)%nat → (1 ≤ j)%nat →
  (∀ a b, (a < 3)%nat → (b < 3)%nat →
          img_at img (i + a - 1) (j + b - 1) k = Some c) →
  ∃ res,
    convolve2D img kernel = Some res ∧
    Zsum (concat (data2 kernel))
    = (if String.prefix "Edge" name then 0 else 1) ∧
    img_at res i j k = Some (c * Zsum (concat (data2 kernel))).
Proof.
  intros Hwf Hpx Hin Hi Hj Hflat.
  pose proof (wf3_to3d img Hwf) as Hwf3.
  assert (rows3 (to3d img) = img_rows img) as Hrows by by destruct img.
  assert (cols3 (to3d img) = img_cols img) as Hcols by by destruct img.
  destruct (img_at_inrange img _ _ k c Hwf (Hflat 2%nat 2%nat ltac:(lia) ltac:(lia)))
    as (Hi2 & Hj2 & Hk).
  assert (chan_in img 0) as Hch by (destruct img; simpl in *; lia).
  assert (chan_in (Img3 (to3d img)) k) as Hk3.
  { destruct img; simpl in *; lia. }
  simpl in Hk3.
  assert (wf2 kernel ∧ rows2 kernel = 3%nat ∧ cols2 kernel = 3%nat) as (Hker & Hkh & Hkw).
  { unfold get_kernels in Hin.
    repeat (apply elem_of_cons in Hin as [[= -> ->]|Hin];
            [split_and!; [split; [reflexivity | repeat constructor]
                         | reflexivity | reflexivity]|]).
    by apply elem_of_nil in Hin. }
  destruct (convolve2D_values img kernel Hwf Hker) as
    (padded & res & Hpad & Hpr & Hpc & Hconv & _ & _ & _ & Hr & Hc & Hval);
    [lia | lia | done | lia | lia |].
  rewrite pad_img_unfold in Hpad by lia. injection Hpad as Hpad.
  rewrite Hkh, Hkw in *.
  change ((3 - 1) / 2)%nat with 1%nat in *.
  exists res. split; [done|].
  assert (∀ a b, (a < 3)%nat → (b < 3)%nat →
            at3 padded (i + a) (j + b) k = c) as Hwin.
  { intros a b Ha Hb. rewrite <- Hpad.
    replace (i + a)%nat with (1 + (i + a - 1))%nat by lia.
    replace (j + b)%nat with (1 + (j + b - 1))%nat by lia.
    pose proof (Hflat a b Ha Hb) as Hv.
    destruct (img_at_inrange img _ _ _ _ Hwf Hv) as (Hia & Hjb & _).
    rewrite at3_padded_interior by (done || lia).
    by apply at3_get3, img_at_to3d. }
  assert (0 ≤ c ≤ 255) as Hcrange.
  { pose proof (Hflat 1%nat 1%nat ltac:(lia) ltac:(lia)) as Hv.
    apply img_at_to3d, at3_get3 in Hv. rewrite <- Hv. by apply at3_uint8. }
  rewrite Hval by (done || lia). unfold conv_value.
  assert (product_sum padded kernel i j k = c * Zsum (concat (data2 kernel)))
    as ->.
  { unfold product_sum. rewrite Hkh, Hkw. unfold at2. cbn [seq fmap list_fmap].
    rewrite !Hwin by lia. clear Hwin Hval.
    unfold get_kernels in Hin.
    repeat (apply elem_of_cons in Hin as [[= -> ->]|Hin];
            [simpl; lia|]).
    by apply elem_of_nil in Hin. }
  assert (Zsum (concat (data2 kernel))
          = (if String.prefix "Edge" name then 0 else 1)) as Hsum.
  { unfold get_kernels in Hin.
    repeat (apply elem_of_cons in Hin as [[= -> ->]|Hin]; [reflexivity|]).
    by apply elem_of_nil in Hin. }
  split; [done|]. rewrite Hsum.
  destruct (String.prefix "Edge" name).
  - rewrite Z.mul_0_r. reflexivity.
  - rewrite Z.mul_1_r, Int64Facts.wrap64_small by lia.
    rewrite clamp_cast_mod, Z.max_r, Z.mod_small by lia. done.
Qed.

Lemma convolve2D_flat_region_witness :
  ∃ res,
    convolve2D (Img2 {| rows2 := 3; cols2 := 4;
                        data2 := [[9; 9; 9; 200]; [9; 9; 9; 200];
                                  [9; 9; 9; 200]] |})
               (kernel3x3 [[-1; -1; -1]; [-1; 8; -1]; [-1; -1; -1]])
    = Some res ∧
    img_at res 1 1 0 = Some 0.
Proof.
  destruct (convolve2D_flat_region
              (Img2 {| rows2 := 3; cols2 := 4;
                       data2 := [[9; 9; 9; 200]; [9; 9; 9; 200];
                                 [9; 9; 9; 200]] |})
              "Edge Detection3"
              (kernel3x3 [[-1; -1; -1]; [-1; 8; -1]; [-1; -1; -1]])
              1 1 0 9)
    as (res & Hres & _ & Hpx).
  - split; [reflexivity|]. repeat constructor.
  - repeat constructor; lia.
  - do 3 right. left.
  - lia.
  - lia.
  - intros a b Ha Hb.
    destruct a as [|[|[|a]]]; [| | |lia];
      (destruct b as [|[|[|b]]]; [| | |lia]); reflexivity.
  - exists res. split; [exact Hres|]. exact Hpx.
Defined.

(** ** Showing some examples *)

Section PlotSomeFacts.
Context {example rng : Type}.
Variable np_random_randint : rng → Z → Z → nat → list Z * rng.
Hypothesis randint_range : ∀ g low high size,
  low < high →
  length (np_random_randint g low high size).1 = size ∧
  Forall (λ v, low ≤ v < high) (np_random_randint g low high size).1.

Lemma list_index_nonneg {A} (l : list A) (v : Z) :
  0 ≤ v < Z.of_nat (length l) → list_index l v = l !! Z.to_nat v.
Proof.
  intros Hv. unfold list_index, np_index. by rewrite decide_True.
Qed.

Lemma plot_some_loop (X : list example) (y : list Z)
    (labels_list : list string) (indices : list Z) (start : nat)
    (calls : list (@some_call example)) :
  (start + length indices ≤ 10)%nat →
  (length X ≤ length y)%nat →
  Forall (λ l, 0 ≤ l < Z.of_nat (length labels_list)) y →
  Forall (λ v, 0 ≤ v < Z.of_nat (length X)) indices →
  ∃ calls' xs ts,
    for_enumerate (plot_some_panel X y None labels_list) start indices calls
    = Some calls' ∧
    some_subplots calls'
    = some_subplots calls
      ++ ((λ i : nat, (2, 5, i)%nat) <$> seq (start + 1) (length indices)) ∧
    some_shown calls' = some_shown calls ++ xs ∧
    some_titles calls' = some_titles calls ++ ts ∧
    Forall3 (λ (index : Z) (x : example) (t : string),
               X !! Z.to_nat index = Some x ∧
               ∃ label name,
                 y !! Z.to_nat index = Some label ∧
                 labels_list !! Z.to_nat label = Some name ∧
                 t = ("Y: " ++ name ++ "    Y_hat: N/A")%string)
            indices xs ts.
Proof.
  intros Hn Hlen Hy Hidx. revert start calls Hn.
  induction Hidx as [|index indices Hindex _ IH]; intros start calls Hn.
  - exists calls, [], []. simpl. rewrite !app_nil_r.
    split_and!; (done || constructor).
  - simpl in Hn.
    destruct (lookup_lt_is_Some_2 X (Z.to_nat index)) as [x Hx]; [lia|].
    destruct (lookup_lt_is_Some_2 y (Z.to_nat index)) as [label Hl]; [lia|].
    pose proof (Forall_lookup_1 _ _ _ _ Hy Hl) as Hlabel. simpl in Hlabel.
    destruct (lookup_lt_is_Some_2 labels_list (Z.to_nat label))
      as [name Hname]; [lia|].
    set (t := ("Y: " ++ name ++ "    Y_hat: N/A")%string).
    set (calls1 := calls ++ [SomeSubplot 2 5 (start + 1); SomeImshow x;
                             SomeTitle t; SomeAxisOff]).
    assert (plot_some_panel X y None labels_list calls start index
            = Some calls1) as Hpanel.
    { unfold plot_some_panel. rewrite decide_True by lia.
      cbn [mbind option_bind].
      rewrite (list_index_nonneg X), Hx by done. cbn [mbind option_bind].
      rewrite (list_index_nonneg y), Hl by lia. cbn [mbind option_bind].
      rewrite (list_index_nonneg labels_list), Hname by done.
      cbn [mbind option_bind]. unfold calls1, t.
      by rewrite <- !app_assoc. }
    destruct (IH (S start) calls1) as
      (calls' & xs & ts & Hloop & Hsub & Hshown & Htitles & Hall); [lia|].
    exists calls', (x :: xs), (t :: ts).
    rewrite for_enumerate_cons, Hpanel. cbn [mbind option_bind].
    unfold some_subplots, some_shown, some_titles in *. unfold calls1 in *.
    rewrite omap_app in Hsub. rewrite omap_app in Hshown.
    rewrite omap_app in Htitles.
    cbn [omap] in Hsub, Hshown, Htitles.
    split_and!.
    + done.
    + rewrite Hsub, <- app_assoc. cbn [length seq app fmap list_fmap].
      repeat f_equal; lia.
    + by rewrite Hshown, <- app_assoc.
    + by rewrite Htitles, <- app_assoc.
    + constructor; [|done]. split; [done|]. by exists label, name.
Qed.

(** X28. [plot_some], called with the names of the classes and without
    predictions, on at least one image, labels for every image and every
    label the position of a name: it draws ten panels in the places 1 to 10
    of a 2 by 5 grid, each showing the image at one of the ten random
    positions under a title that gives the name of the class of that same
    image and [N/A] for the prediction.  On no image at all it raises. *)
Theorem plot_some_spec (X : list example) (y : list Z)
    (labels_list : list string) (g : rng) :
  (length X ≤ length y)%nat →
  Forall (λ l, 0 ≤ l < Z.of_nat (length labels_list)) y →
  (X = [] → plot_some np_random_randint X y None labels_list g = None) ∧
  (X ≠ [] →
   ∃ calls indices g',
     np_random_randint g 0 (Z.of_nat (length X)) 10 = (indices, g') ∧
     plot_some np_random_randint X y None labels_list g = Some (calls, g') ∧
     some_subplots calls = (λ i : nat, (2, 5, i)%nat) <$> seq 1 10 ∧
     Forall3 (λ (index : Z) (x : example) (t : string),
                X !! Z.to_nat index = Some x ∧
                ∃ label name,
                  y !! Z.to_nat index = Some label ∧
                  labels_list !! Z.to_nat label = Some name ∧
                  t = ("Y: " ++ name ++ "    Y_hat: N/A")%string)
             indices (some_shown calls) (some_titles calls)).
Proof.
  intros Hlen Hy. split.
  - intros ->. done.
  - intros Hne. unfold plot_some, randint.
    assert (0 < Z.of_nat (length X)) as Hpos by (destruct X; simpl; [done | lia]).
    rewrite decide_True by done. cbn [mbind option_bind].
    destruct (randint_range g 0 (Z.of_nat (length X)) 10 Hpos) as [Hten Hrange].
    destruct (np_random_randint g 0 (Z.of_nat (length X)) 10)
      as [indices g'] eqn:Hrng. simpl in Hten, Hrange.
    destruct (plot_some_loop X y labels_list indices 0 [SomeFigure])
      as (calls' & xs & ts & Hloop & Hsub & Hshown & Htitles & Hall);
      [lia | done | done | done |].
    exists (calls' ++ [SomeTightLayout; SomeShow]), indices, g'.
    cbn [mbind option_bind]. rewrite Hloop. cbn [mbind option_bind].
    unfold some_subplots, some_shown, some_titles in *.
    rewrite !omap_app. cbn [omap]. rewrite !app_nil_r.
    rewrite Hsub, Hshown, Htitles, Hten. cbn [app Nat.add].
    by split_and!.
Qed.
End PlotSomeFacts.

Lemma plot_some_spec_witness :
  ∃ calls g',
    plot_some (λ (g : nat) (low _ : Z) (size : nat), (replicate size low, S g))
      ["a"; "b"]%string [1; 0] None ["apple"; "pear"]%string 0%nat
    = Some (calls, g') ∧
    some_subplots calls = (λ i : nat, (2, 5, i)%nat) <$> seq 1 10 ∧
    some_titles calls = replicate 10 "Y: pear    Y_hat: N/A"%string.
Proof.
  destruct (plot_some_spec
              (λ (g : nat) (low _ : Z) (size : nat), (replicate size low, S g))
              (λ g low high size Hlt,
                 conj (length_replicate size low)
                      (Forall_replicate (λ v, low ≤ v < high) size low
                         (conj (Z.le_refl low) Hlt)))
              ["a"; "b"]%string [1; 0] ["apple"; "pear"]%string 0%nat)
    as [_ Hsome].
  - simpl. lia.
  - repeat constructor; simpl; lia.
  - destruct Hsome as (calls & indices & g' & _ & Hplot & Hsub & _); [done|].
    exists calls, g'. split; [exact Hplot|]. split; [exact Hsub|].
    vm_compute in Hplot. by injection Hplot as <- _.
Defined.
